(** * LD pruning and LD expansion of GWAS variants (cdpybio/analysis.py)

    A shallow embedding of [ld_prune] and [ld_expand] together with the
    pieces of pandas, tabix, networkx and pybedtools they rely on, of the
    two readers of GWAS tables, [parse_grasp_gwas] and
    [parse_roadmap_gwas], from the table that pandas reads on, of the
    command line that [make_grasp_phenotype_file] builds, and of
    [liftover_bed] up to the command it means to run.

    Conventions of the embedding:
    - a pandas DataFrame of variants is the list of its rows, in row
      order, each row carrying its index label;
    - floats (p-values, r2) are idealised as exact rationals ([Qc]); nan
      and the infinities are not represented;
    - a Python exception is an explicit [Raise] outcome of the [result]
      monad;
    - the builtins [int] and [float], the iteration order of a Python
      [set] and networkx's component search are interfaces (type
      classes); every general theorem holds for all their instances, and a
      reference instance of each is given for concrete evaluations. *)

From Stdlib Require Import ZArith QArith Qcanon Ascii String List.
From stdpp Require Import base decidable option numbers list strings pretty
  relations sorting gmap.

#[local] Set Warnings "-clear-no-such-hyp".

Local Open Scope string_scope.
Local Open Scope Z_scope.
Local Open Scope list_scope.

(** ** Python exceptions and the error monad *)

Inductive exn : Set :=
  | TabixError   (* tabix.TabixError: region or chromosome not indexed *)
  | ValueError   (* tuple unpacking, int() and float() failures *)
  | NameError    (* reference to an unbound name *)
  | IndexError.  (* [x[0]] or [x[-1]] on an empty sequence *)

Inductive result (A : Type) : Type :=
  | Ok (a : A)
  | Raise (e : exn).
Arguments Ok {A} a.
Arguments Raise {A} e.

Global Instance result_ret : MRet result := λ A a, Ok a.
Global Instance result_bind : MBind result := λ A B k m,
  match m with
  | Ok a => k a
  | Raise e => Raise e
  end.

Definition raises {A} (m : result A) : Prop := ∃ e, m = Raise e.

(** Left-to-right loop whose body may raise: [for x in xs: acc = body acc x]. *)
Fixpoint for_each {A S} (body : S → A → result S) (acc : S) (xs : list A)
  : result S :=
  match xs with
  | [] => Ok acc
  | x :: xs' => acc' ← body acc x; for_each body acc' xs'
  end.

(** ** Data model *)

(** One row of the variant table: the index label and the five columns
    chrom, start, end, rsid, pvalue. *)
Record row : Set := Row {
  idx : string;
  chrom : string;
  start : Z;
  end_ : Z;
  rsid : string;
  pvalue : Qc
}.

Abbreviation DataFrame := (list row).

Global Instance row_eq_dec : EqDecision row.
Proof. solve_decision. Defined.

(** ['{}:{}'.format(chrom, x)] for an integer [x]. *)
Definition label (c : string) (x : Z) : string := c +:+ ":" +:+ pretty x.

(** The documented input format: the index is unique and of the form
    chrom:pos with pos the 1-based position, i.e. the end column. *)
Definition wf_table (df : DataFrame) : Prop :=
  NoDup (idx <$> df) ∧ ∀ r, r ∈ df → idx r = label (chrom r) (end_ r).

(** A record returned by a tabix query: its tab-separated fields. *)
Abbreviation record := (list string).

(** An opened tabix file: [f chrom start end] is [Some records] for the
    records overlapping the region and [None] when the query raises
    [tabix.TabixError]. *)
Abbreviation tabix_file := (string → Z → Z → option (list record)).

(** A value of the [ld_beds] dict, the name of a tabix file, through what
    [tabix.open] does on it: it raises ([open_error]), or it returns the
    opened file, whose queries are [tabix_query]. *)
Record ld_file : Type := LdFile {
  open_error : option exn;
  tabix_query :> tabix_file
}.

(** [tabix.open(name)]. *)
Definition tabix_open (s : ld_file) : result tabix_file :=
  match open_error s with
  | Some e => Raise e
  | None => Ok (tabix_query s)
  end.

(** The [ld_beds] dict in the order [ld_beds.keys()] enumerates it. *)
Abbreviation ld_sources := (list (string * ld_file)).

Implicit Types (cf : string * ld_file) (L ld_beds : ld_sources).

(** A line of the BED text handed to pybedtools: chrom, start, end, name. *)
Record interval : Set := Interval {
  ichrom : string;
  istart : Z;
  iend : Z;
  iname : string
}.

(** The LD threshold, the literal 0.8 of the source. *)
Definition tau : Qc := Q2Qc (8 # 10).

(** ** The interpreter and library interfaces *)

(** [int(s)] and [float(s)]: [None] stands for [ValueError]. *)
Class Builtins := {
  py_int : string → option Z;
  py_float : string → option Qc
}.

(** A Python set of strings. The order in which a set is iterated is
    not fixed by its elements: it depends on the operations that filled
    it. A set is therefore represented by the operations that made it. *)
Inductive pyset : Set :=
  | set_new                           (* set() *)
  | set_of (l : list string)          (* set(l) *)
  | set_and (a b : pyset)             (* a & b *)
  | set_sub (a b : pyset)             (* a - b *)
  | set_ior (a b : pyset)             (* a |= b *)
  | set_add (a : pyset) (x : string). (* a.add(x) *)

(** The elements of a set. *)
Fixpoint elems (s : pyset) : gset string :=
  match s with
  | set_new => ∅
  | set_of l => list_to_set l
  | set_and a b => elems a ∩ elems b
  | set_sub a b => elems a ∖ elems b
  | set_ior a b => elems a ∪ elems b
  | set_add a x => elems a ∪ {[ x ]}
  end.

(** [x in s]. *)
Global Instance pyset_elem_of : ElemOf string pyset := λ x s, x ∈ elems s.

Global Instance pyset_elem_of_dec (x : string) (s : pyset) : Decision (x ∈ s).
Proof. unfold elem_of, pyset_elem_of. apply _. Defined.

(** [list(s)] / iteration over a Python set of strings: some enumeration
    of its elements, which may differ between two sets with the same
    elements that were filled differently. *)
Class PySet := {
  set_iter : pyset → list string;
  set_iter_perm : ∀ s, set_iter s ≡ₚ elements (elems s)
}.

(** An undirected graph on the nodes [0 .. order-1], as [nx.Graph] builds
    it from a square array: [edge i j] for a nonzero cell (i, j). *)
Record graph : Type := Graph {
  order : nat;
  edge : nat → nat → bool
}.

Definition linked (g : graph) (i j : nat) : Prop :=
  (i < order g)%nat ∧ (j < order g)%nat ∧ (edge g i j = true ∨ edge g j i = true).

Definition connected (g : graph) : relation nat := rtc (linked g).

(** [nx.connected_components]: the node lists it yields, in order. *)
Class GraphLib := {
  connected_components : graph → list (list nat);
  cc_partition : ∀ g, concat (connected_components g) ≡ₚ seq 0 (order g);
  cc_nonempty : ∀ g c, c ∈ connected_components g → c ≠ [];
  cc_connected : ∀ g c i j,
    c ∈ connected_components g → i ∈ c → (j ∈ c ↔ connected g i j)
}.

(** ** Parsing an LD record *)

(** [s.split(sep)] for a one-character separator. *)
Fixpoint split (sep : ascii) (s : string) : list string :=
  match s with
  | EmptyString => [EmptyString]
  | String c s' =>
      if decide (c = sep) then EmptyString :: split sep s'
      else match split sep s' with
           | h :: t => String c h :: t
           | [] => [String c EmptyString]
           end
  end.

(** [n[-1]] and [n[0]]. *)
Definition last_field (n : record) : result string :=
  match last n with
  | Some s => Ok s
  | None => Raise IndexError
  end.

Definition first_field (n : record) : result string :=
  match n with
  | s :: _ => Ok s
  | [] => Raise IndexError
  end.

(** [p1, p2, r2 = fields]. *)
Definition unpack3 (fields : list string) : result (string * string * string) :=
  match fields with
  | [p1; p2; r2] => Ok (p1, p2, r2)
  | _ => Raise ValueError
  end.

Section Parsing.
Context `{Builtins}.

Definition float (s : string) : result Qc :=
  match py_float s with
  | Some q => Ok q
  | None => Raise ValueError
  end.

Definition int (s : string) : result Z :=
  match py_int s with
  | Some z => Ok z
  | None => Raise ValueError
  end.

(** The body shared by both record loops:
      p1, p2, r2 = n[-1].split(':')
      if float(r2) >= 0.8: ... int(p2) ...
    [Some p] is the partner position of a qualifying record, [None] a
    record below the threshold. [p1] is never converted, and [p2] only
    for a qualifying record. *)
Definition ld_partner (n : record) : result (option Z) :=
  f ← last_field n;
  '(p1, p2, r2) ← unpack3 (split ":" f);
  r ← float r2;
  if bool_decide (tau ≤ r)%Qc then p ← int p2; Ok (Some p) else Ok None.
End Parsing.

(** ** pandas frames of integers *)

(** The adjacency table [t]: row labels, column labels, and the cells by
    row and column number. *)
Record frame (I C : Type) : Type := Frame {
  f_index : list I;
  f_columns : list C;
  f_cell : nat → nat → Z
}.
Arguments Frame {I C} f_index f_columns f_cell.
Arguments f_index {I C} f.
Arguments f_columns {I C} f.
Arguments f_cell {I C} f i j.

(** Number of the first row (column) carrying a label. *)
Definition pos_of `{EqDecision A} (l : list A) (a : A) : option nat :=
  fst <$> list_find (λ b, b = a) l.

Section Frames.
Context {I C : Type} `{EqDecision I, EqDecision C}.

(** [pd.DataFrame(v, index=index, columns=columns)]. *)
Definition frame_const (v : Z) (index : list I) (columns : list C) : frame I C :=
  Frame index columns (λ _ _, v).

(** [t.ix[k, cs] = v] on labels: the cells of the rows labelled [k] in the
    columns whose label is in [cs]. *)
Definition frame_set (t : frame I C) (k : I) (cs : list C) (v : Z) : frame I C :=
  Frame (f_index t) (f_columns t)
    (λ i j, match f_index t !! i, f_columns t !! j with
            | Some k', Some c =>
                if bool_decide (k' = k ∧ c ∈ cs) then v else f_cell t i j
            | _, _ => f_cell t i j
            end).

(** [t.ix[rows, cols]] on labels that are all present in [t]; the cell of
    an absent label is left at 0. *)
Definition frame_ix (t : frame I C) (rows : list I) (cols : list C) : frame I C :=
  Frame rows cols
    (λ i j, match rows !! i ≫= pos_of (f_index t), cols !! j ≫= pos_of (f_columns t) with
            | Some i', Some j' => f_cell t i' j'
            | _, _ => 0
            end).
End Frames.

(** [t.index = new_index; t.columns = new_columns]. *)
Definition frame_relabel {I C I' C'} (t : frame I C)
    (new_index : list I') (new_columns : list C') : frame I' C' :=
  Frame new_index new_columns (f_cell t).

(** [nx.Graph(t.values)]: one node per row, an edge for every nonzero cell. *)
Definition nx_Graph {I C} (t : frame I C) : graph :=
  Graph (length (f_index t)) (λ i j, bool_decide (f_cell t i j ≠ 0)).

(** [index[sg]]: the labels at the given positions. A position past the
    end, which would raise in Python, selects nothing here; the nodes of a
    component are always positions of the index (see [cc_partition]). *)
Definition index_at {A} (index : list A) (sg : list nat) : list A :=
  omap (λ i, index !! i) sg.

(** ** Row selections on the variant table *)

(** [df[df['chrom'].astype(str) == chrom]]. *)
Definition on_chrom (c : string) (df : DataFrame) : DataFrame :=
  filter (λ r, chrom r = c) df.

(** [df.ix[labels]]: for each label in turn, the rows carrying it. Labels
    that are absent from the index select nothing here; under [wf_table]
    every label the functions below look up is present. *)
Definition ix_rows (df : DataFrame) (labels : list string) : DataFrame :=
  labels ≫= λ l, filter (λ r, idx r = l) df.

(** [s.pvalue.min()]; [None] for an empty column. *)
Definition Qc_min (a b : Qc) : Qc := if decide (a ≤ b)%Qc then a else b.

Definition pvalue_min (s : DataFrame) : option Qc :=
  foldr (λ r m, Some (from_option (Qc_min (pvalue r)) (pvalue r) m)) None s.

(** [s[s.pvalue == s.pvalue.min()].index[0]]. *)
Definition most_sig (s : DataFrame) : result string :=
  match pvalue_min s with
  | None => Raise IndexError
  | Some m =>
      match filter (λ r, pvalue r = m) s with
      | r :: _ => Ok (idx r)
      | [] => Raise IndexError
      end
  end.

(** ** ld_prune *)

Section Prune.
Context `{Builtins, PySet, GraphLib}.

(** The record loop of ld_prune: the list [ld_d[p]] after the iterator is
    exhausted. *)
Definition partners (recs : list record) : result (list Z) :=
  for_each (λ acc n, o ← ld_partner n;
                     Ok (match o with Some p2 => acc ++ [p2] | None => acc end))
           [] recs.

(** The body of [for j in tdf.index]. The handler of the outer [try] is
    [except TabixError], a name that ld_prune never binds (only the
    module [tabix] is imported): whatever exception reaches it, looking
    the name up raises [NameError], which leaves the function.
    [tdf.ix[j, 'end']] is read as the number in row [j]: that is what
    pandas gives when the label [j] occurs once in the index, as
    [wf_table] has it. *)
Definition prune_query (f : tabix_file) (c : string)
    (ld_d : gmap Z (list Z)) (r : row) : result (gmap Z (list Z)) :=
  let p := end_ r in
  match f c (p - 1) p with
  | None => Raise NameError
  | Some recs =>
      match partners recs with
      | Ok l => Ok (<[p := l]> ld_d)
      | Raise _ => Raise NameError
      end
  end.

Definition build_ld_d (f : tabix_file) (c : string) (tdf : DataFrame)
  : result (gmap Z (list Z)) :=
  for_each (prune_query f c) ∅ tdf.

(** [sorted(list(set([item for sublist in ld_d.values() for item in sublist])))]. *)
Definition ld_cols (ld_d : gmap Z (list Z)) : list Z :=
  merge_sort Z.le
    (elements (list_to_set (C := gset Z) (concat (map_to_list ld_d).*2))).

(** The adjacency table after both relabelings (lines 149-153). The dict
    is enumerated in the order of [map_to_list]. The table is used through
    its label-addressed cells and through the sets made of its labels,
    whose iteration order [PySet] leaves open: no general statement below
    depends on the order of [ld_d.keys()]. *)
Definition ld_table (c : string) (ld_d : gmap Z (list Z)) : frame string string :=
  let keys := (map_to_list ld_d).*1 in
  let cols := ld_cols ld_d in
  let t := foldl (λ t k, frame_set t k (ld_d !!! k) 1)
                 (frame_const 0 keys cols) keys in
  frame_relabel t (label c <$> keys) (label c <$> cols).

(** [set(t.index) - set(t.columns)]. *)
Definition ld_isolated (t : frame string string) : pyset :=
  set_sub (set_of (f_index t)) (set_of (f_columns t)).

(** [ind = list(set(t.columns) & set(t.index))]. *)
Definition ld_ind (t : frame string string) : list string :=
  set_iter (set_and (set_of (f_columns t)) (set_of (f_index t))).

(** The body of the component loop: [keep.add(...)] for one component. *)
Definition keep_component (tdf : DataFrame) (t : frame string string)
    (keep : pyset) (sg : list nat) : result pyset :=
  let s := ix_rows tdf (index_at (f_index t) sg) in
  k ← most_sig s; Ok (set_add keep k).

(** The body of [for chrom in ld_beds.keys()]. [tabix.open] stands
    outside every [try]: what it raises leaves the function. *)
Definition prune_chrom (df : DataFrame) (keep : pyset) cf : result pyset :=
  let tdf := on_chrom cf.1 df in
  f ← tabix_open cf.2;
  ld_d ← build_ld_d f cf.1 tdf;
  let t := ld_table cf.1 ld_d in
  let keep := set_ior keep (ld_isolated t) in
  let ind := ld_ind t in
  let t := frame_ix t ind ind in
  let g := nx_Graph t in
  for_each (keep_component tdf t) keep (connected_components g).

Definition prune_keep (df : DataFrame) (ld_beds : ld_sources) : result pyset :=
  for_each (prune_chrom df) set_new ld_beds.

Definition ld_prune (df : DataFrame) (ld_beds : ld_sources) : result DataFrame :=
  keep ← prune_keep df ld_beds;
  Ok (ix_rows df (set_iter keep)).

End Prune.

(** ** ld_expand *)

(** The order of [bt.sort()]: by chromosome name, then by start. *)
Definition bed_le (a b : interval) : Prop :=
  match String.compare (ichrom a) (ichrom b) with
  | Lt => True
  | Eq => istart a ≤ istart b
  | Gt => False
  end.

Global Instance bed_le_dec : RelDecision bed_le.
Proof.
  intros a b. unfold bed_le.
  destruct (String.compare (ichrom a) (ichrom b)); apply _.
Defined.

Definition bed_sort (l : list interval) : list interval := merge_sort bed_le l.

Section Expand.
Context `{Builtins}.

(** One turn of the record loop of ld_expand. *)
Definition expand_record (out_snps : list interval) (n : record)
  : result (list interval) :=
  o ← ld_partner n;
  match o with
  | Some p2 =>
      c ← first_field n;
      Ok (out_snps ++ [Interval c (p2 - 1) p2 (label c p2)])
  | None => Ok out_snps
  end.

(** The body of [for ind in tdf.index]; the handler here names
    [tabix.TabixError], so a failed query is skipped.
    [tdf.ix[ind, 'end']] is read as the number in row [ind], which is
    what pandas gives when the label occurs once in the index. *)
Definition expand_row (t : tabix_file) (c : string)
    (out_snps : list interval) (r : row) : result (list interval) :=
  let p := end_ r in
  let out_snps := out_snps ++ [Interval c (p - 1) p (idx r)] in
  match t c (p - 1) p with
  | None => Ok out_snps
  | Some recs => for_each expand_record out_snps recs
  end.

(** The body of [for chrom in ld_beds.keys()]; here too [tabix.open]
    stands outside every [try]. *)
Definition expand_chrom (df : DataFrame) (out_snps : list interval) cf
  : result (list interval) :=
  t ← tabix_open cf.2;
  for_each (expand_row t cf.1) out_snps (on_chrom cf.1 df).

Definition expand_snps (df : DataFrame) (ld_beds : ld_sources)
  : result (list interval) :=
  for_each (expand_chrom df) [] ld_beds.

Definition ld_expand (df : DataFrame) (ld_beds : ld_sources)
  : result (list interval) :=
  out_snps ← expand_snps df ld_beds;
  Ok (bed_sort out_snps).

End Expand.

(** ** The GWAS tables: parse_grasp_gwas and parse_roadmap_gwas *)

(** The significance cut-off, the literal 1e-5 of the source. *)
Definition sig_cutoff : Qc := Q2Qc (1 # 100000).

(** [df.drop_duplicates(subset=...)]: of the rows that agree on the key
    columns the first one is kept. [seen] holds the keys met so far. *)
Fixpoint drop_duplicates_from {A K} `{EqDecision K} (key : A → K)
    (seen : list K) (l : list A) : list A :=
  match l with
  | [] => []
  | x :: l' =>
      if decide (key x ∈ seen) then drop_duplicates_from key seen l'
      else x :: drop_duplicates_from key (key x :: seen) l'
  end.

Definition drop_duplicates {A K} `{EqDecision K} (key : A → K) (l : list A)
  : list A := drop_duplicates_from key [] l.

(** The columns of the GRASP table that parse_grasp_gwas reads:
    chr(hg19) (as [astype(str)] shows it), pos(hg19) (read as integers),
    SNPid(in paper) and Pvalue. *)
Record grasp_record : Set := Grasp {
  chr_hg19 : string;
  pos_hg19 : Z;
  SNPid : string;
  Pvalue : Qc
}.

(** The five columns that parse_roadmap_gwas names. *)
Record roadmap_record : Set := Roadmap {
  rm_chrom : string;
  rm_start : Z;
  rm_end : Z;
  rm_rsid : string;
  rm_pvalue : Qc
}.

(** The order of [df.sort(columns=[c, p, v])] with a chromosome column
    [c], a position column [p] and a p-value column [v]: rows are compared
    on [c], then on [p], then on [v]. [chr_le] orders the values of the
    chromosome column. *)
Definition columns_le {A} (chr_le : relation string)
    (c : A → string) (p : A → Z) (v : A → Qc) : relation A :=
  λ a b, chr_le (c a) (c b) ∧
         (c a = c b → p a < p b ∨ (p a = p b ∧ (v a ≤ v b)%Qc)).

Global Instance columns_le_dec {A} chr_le `{!RelDecision chr_le}
  (c : A → string) p v : RelDecision (columns_le chr_le c p v).
Proof. intros a b. unfold columns_le. apply _. Defined.

Section Gwas.
(** The order of the values of the chr(hg19) column, which pandas reads
    as integers or as strings depending on the file. *)
Context (chr_le : relation string) `{!RelDecision chr_le}.

(** The columns chrom, start, end, rsid, pvalue and the index chrom:end
    that the function derives from a GRASP row. *)
Definition grasp_variant (g : grasp_record) : row :=
  let chrom := "chr" +:+ chr_hg19 g in
  let end' := pos_hg19 g in
  Row (label chrom end') chrom (end' - 1) end' (SNPid g) (Pvalue g).

(** parse_grasp_gwas, from the table that [pd.read_table] returns. Rows
    that tie on all three sort columns come in the order the sort leaves
    them. *)
Definition parse_grasp_gwas (table : list grasp_record) : DataFrame :=
  let df := filter (λ g, (Pvalue g < sig_cutoff)%Qc) table in
  let df := merge_sort (columns_le chr_le chr_hg19 pos_hg19 Pvalue) df in
  let df := drop_duplicates (λ g, (chr_hg19 g, pos_hg19 g)) df in
  let df := filter (λ g, chr_hg19 g ≠ "Y") df in
  grasp_variant <$> df.

End Gwas.

(** A Roadmap row under the index chrom:end. *)
Definition roadmap_variant (g : roadmap_record) : row :=
  Row (label (rm_chrom g) (rm_end g)) (rm_chrom g) (rm_start g) (rm_end g)
      (rm_rsid g) (rm_pvalue g).

(** parse_roadmap_gwas, from the table that [pd.read_table] returns; the
    chromosome names are strings and sort as such. *)
Definition parse_roadmap_gwas (table : list roadmap_record) : DataFrame :=
  let df := filter (λ g, (rm_pvalue g < sig_cutoff)%Qc) table in
  let df := merge_sort (columns_le String.le rm_chrom rm_start rm_pvalue) df in
  let df := drop_duplicates (λ g, (rm_chrom g, rm_start g)) df in
  let df := filter (λ g, rm_chrom g ≠ "chrY") df in
  roadmap_variant <$> df.

(** ** make_grasp_phenotype_file *)

(** [s.replace("'", new)]: every single quote of [s] gives way to [new]. *)
Fixpoint replace_quote (new s : string) : string :=
  match s with
  | EmptyString => EmptyString
  | String a s' =>
      if decide (a = "'"%char) then new +:+ replace_quote new s'
      else String a (replace_quote new s')
  end.

(** The double quote, as a one-character string. *)
Definition dquote : string := String (ascii_of_nat 34) EmptyString.

(** The command line that make_grasp_phenotype_file builds and hands to
    [subprocess.check_call(c, shell=True)]: the template with its three
    slots filled by the escaped phenotype, [fn] and [out]. *)
Definition make_grasp_phenotype_file (fn pheno out : string) : string :=
  "awk -F " +:+ dquote +:+ "\t" +:+ dquote +:+ " 'NR == 1 || $12 == " +:+
  dquote +:+ replace_quote "\x27" pheno +:+ dquote +:+ " ' " +:+
  fn +:+ " > " +:+ out.

(** The number of single quotes of a string. *)
Fixpoint quotes (s : string) : nat :=
  match s with
  | EmptyString => 0
  | String a s' => (if decide (a = "'"%char) then 1 else 0) + quotes s'
  end.

(** ** liftover_bed *)

(** The names that are global in analysis.py when one of its functions
    runs: the import at the top, the colour table with the variables of
    the loop that scales it, and the functions and the class it defines.
    The imports written inside a function bind names of that function
    only. *)
Definition module_globals : list string :=
  ["pd"; "tableau20"; "i"; "r"; "g"; "b"; "make_grasp_phenotype_file";
   "parse_grasp_gwas"; "parse_roadmap_gwas"; "ld_prune"; "ld_expand";
   "liftover_bed"; "goseq_gene_enrichment"; "make_color_legend_rects"; "SVD"].

(** The exceptions of liftover_bed: one that tempfile or pybedtools
    raised, or one of the two the interpreter raises for a name without a
    value. *)
Inductive lift_exn (E : Type) : Type :=
  | LibraryError (e : E)
  | UnboundLocalError   (* a local variable read before any assignment *)
  | GlobalNameError.    (* NameError: a global name that is not defined *)
Arguments LibraryError {E} e.
Arguments UnboundLocalError {E}.
Arguments GlobalNameError {E}.

Inductive lift_result (E A : Type) : Type :=
  | Returned (a : A)
  | Raised (e : lift_exn E).
Arguments Returned {E A} a.
Arguments Raised {E A} e.

Definition lift_bind {E A B} (m : lift_result E A) (k : A → lift_result E B)
  : lift_result E B :=
  match m with
  | Returned a => k a
  | Raised e => Raised e
  end.

(** A library call: its value, or the exception it raised. *)
Definition lib_call {E A} (r : E + A) : lift_result E A :=
  match r with
  | inl e => Raised (LibraryError e)
  | inr a => Returned a
  end.

(** Reading a name that is not local to the function; none of the names
    read this way is a builtin. *)
Definition global_name {E} (x : string) : lift_result E unit :=
  if decide (x ∈ module_globals) then Returned () else Raised GlobalNameError.

Section Liftover.
(** The exceptions of the libraries, the BedTool objects, the values that
    [bed] may be besides a [str], and the data frame of the result. *)
Context {E B V F : Type}.
(** [tempfile.NamedTemporaryFile()] for [mapped] and for [unmapped] (the
    name of the file), [pbt.BedTool(path)], [bt.sort()] and [bt.fn]. *)
Context (tmp_mapped tmp_unmapped : E + string).
Context (BedTool : string → E + B) (bt_sort : B → E + B) (bt_fn : B → string).
(** The statements after the name [subprocess] has been read: the call of
    the command [c], the reading of the two files and the making of the
    frame. *)
Context (lift_and_read : string → B → string → string → lift_result E F).

(** liftover_bed; [bed] is [inl path] when [type(bed) == str]. The local
    variable [bt] has a value only when that test succeeded. *)
Definition liftover_bed (bed : string + V) (chain : string)
    (liftOver mapped unmapped : option string) : lift_result E F :=
  lift_bind (match mapped with
             | None => lib_call tmp_mapped
             | Some m => Returned m
             end) (λ mname,
  lift_bind (match unmapped with
             | None => lib_call tmp_unmapped
             | Some u => Returned u
             end) (λ uname,
  let liftOver := default "liftOver" liftOver in
  lift_bind (match bed with
             | inl path => lift_bind (lib_call (BedTool path))
                             (λ b, Returned (Some b))
             | inr _ => Returned None
             end) (λ bt,
  lift_bind (match bt with
             | Some b => lib_call (bt_sort b)
             | None => Raised UnboundLocalError
             end) (λ bt,
  let c := liftOver +:+ " " +:+ bt_fn bt +:+ " " +:+ chain +:+ " " +:+
           mname +:+ " " +:+ uname in
  lift_bind (global_name "subprocess") (λ _,
  lift_and_read c bt mname uname))))).

End Liftover.

(** The file name that liftover_bed uses for [mapped] or [unmapped]: the
    one given, or that of a new temporary file. *)
Definition chosen_name {E} (given : option string) (tmp : E + string)
  : E + string :=
  match given with
  | Some name => inr name
  | None => tmp
  end.

(** ** Reference instances of the interfaces *)

(** Decimal literals: an optional sign and digits, with an optional
    fractional part for floats. This is a subset of what [int] and [float]
    accept, enough for LD records such as 100:105:0.9. *)
Definition digit (c : ascii) : option Z :=
  let n := Z.of_nat (nat_of_ascii c) in
  if bool_decide (48 ≤ n ≤ 57) then Some (n - 48) else None.

Fixpoint digits_val (acc : Z) (s : string) : option Z :=
  match s with
  | EmptyString => Some acc
  | String c s' => d ← digit c; digits_val (10 * acc + d) s'
  end.

Definition unsigned_dec (s : string) : option Z :=
  match s with
  | EmptyString => None
  | _ => digits_val 0 s
  end.

Definition signed (A : Type) (neg : A → A) (body : string → option A)
    (s : string) : option A :=
  match s with
  | String "-" s' => neg <$> body s'
  | String "+" s' => body s'
  | _ => body s
  end.

Definition dec_int : string → option Z := signed Z Z.opp unsigned_dec.

Definition unsigned_float (s : string) : option Qc :=
  match split "." s with
  | [a] => (λ n, Q2Qc (inject_Z n)) <$> unsigned_dec a
  | [a; b] =>
      n ← unsigned_dec a; m ← unsigned_dec b;
      let d := 10 ^ Z.of_nat (String.length b) in
      Some (Q2Qc (Qmake (n * d + m) (Z.to_pos d)))
  | _ => None
  end.

Definition dec_float : string → option Qc := signed Qc Qcopp unsigned_float.

Definition dec_builtins : Builtins :=
  {| py_int := dec_int; py_float := dec_float |}.

(** Sets enumerated in the order of stdpp's [elements], whatever their
    history. *)
Definition elements_order : PySet :=
  {| set_iter := λ s, elements (elems s);
     set_iter_perm := λ s, reflexivity _ |}.

(** A breadth-first component search: [grow] adds the unseen neighbours
    of a node set, [order g] rounds of it from a node exhaust that node's
    component, and [cc_scan] starts a new component at every node not yet
    seen, in increasing node order. *)
Definition adjacent (g : graph) (i j : nat) : bool := edge g i j || edge g j i.

Definition grow (g : graph) (U : list nat) : list nat :=
  U ++ filter (λ j, (j ∉ U) ∧ Exists (λ i, adjacent g i j) U) (seq 0 (order g)).

Fixpoint reach (g : graph) (fuel : nat) (U : list nat) : list nat :=
  match fuel with
  | O => U
  | S n => reach g n (grow g U)
  end.

Definition component_of (g : graph) (v : nat) : list nat :=
  reach g (order g) [v].

Fixpoint cc_scan (g : graph) (todo seen : list nat) : list (list nat) :=
  match todo with
  | [] => []
  | v :: todo' =>
      if decide (v ∈ seen) then cc_scan g todo' seen
      else let c := component_of g v in c :: cc_scan g todo' (c ++ seen)
  end.

Definition bfs_components (g : graph) : list (list nat) :=
  cc_scan g (seq 0 (order g)) [].

(** The elements of a set in the order in which they were first inserted:
    the order of an interpreter whose sets keep insertion order, as
    Python's dicts do. *)
Fixpoint inserted (s : pyset) : list string :=
  match s with
  | set_new => []
  | set_of l => remove_dups l
  | set_and a b => filter (λ x, x ∈ b) (inserted a)
  | set_sub a b => filter (λ x, x ∉ b) (inserted a)
  | set_ior a b => inserted a ++ filter (λ x, x ∉ a) (inserted b)
  | set_add a x => if decide (x ∈ a) then inserted a else inserted a ++ [x]
  end.

(** ** Notions used in the statements *)

Section Notions.
Context `{Builtins, PySet, GraphLib}.

(** The partner list ld_prune records for position [p], when the query
    and the parsing of all its records go through. *)
Definition partners_at (f : tabix_file) (c : string) (p : Z) : option (list Z) :=
  recs ← f c (p - 1) p;
  match partners recs with
  | Ok l => Some l
  | Raise _ => None
  end.

(** The graph handed to networkx for chromosome [c] with LD dict [m]. *)
Definition ld_graph (c : string) (m : gmap Z (list Z)) : graph :=
  let t := ld_table c m in
  nx_Graph (frame_ix t (ld_ind t) (ld_ind t)).

(** The rows [s] that the component loop selects for component [sg]. *)
Definition component_rows (tdf : DataFrame) (c : string) (m : gmap Z (list Z))
    (sg : list nat) : DataFrame :=
  ix_rows tdf (index_at (ld_ind (ld_table c m)) sg).

(** Two variants of [tdf] that both occur in a recorded partner list and
    one of which is in the list of the other: the two ends of an edge of
    the component graph. *)
Definition listed_link (tdf : DataFrame) (m : gmap Z (list Z)) (r1 r2 : row)
  : Prop :=
  r1 ∈ tdf ∧ r2 ∈ tdf ∧ end_ r1 ∈ ld_cols m ∧ end_ r2 ∈ ld_cols m ∧
  (end_ r2 ∈ m !!! end_ r1 ∨ end_ r1 ∈ m !!! end_ r2).

(** Label [l] is added to [keep] while chromosome [cf.1] is processed. *)
Definition chrom_keeps (df : DataFrame) cf (l : string) : Prop :=
  ∃ m, build_ld_d cf.2 cf.1 (on_chrom cf.1 df) = Ok m ∧
    (l ∈ ld_isolated (ld_table cf.1 m) ∨
     ∃ sg, sg ∈ connected_components (ld_graph cf.1 m) ∧
           most_sig (component_rows (on_chrom cf.1 df) cf.1 m sg) = Ok l).

(** The records on which [ld_partner] raises. *)
Definition fatal_record (n : record) : Prop :=
  last n = None ∨
  ∃ f, last n = Some f ∧
    (length (split ":" f) ≠ 3%nat ∨
     ∃ p1 p2 r2, split ":" f = [p1; p2; r2] ∧
       (py_float r2 = None ∨
        ∃ q, py_float r2 = Some q ∧ (tau ≤ q)%Qc ∧ py_int p2 = None)).

End Notions.

(** The rows of the table that lie on a chromosome with an LD source. *)
Definition on_sources (L : ld_sources) (df : DataFrame) : DataFrame :=
  filter (λ r, chrom r ∈ L.*1) df.

(** The interval ld_expand emits for the variant itself. *)
Definition self_interval (c : string) (r : row) : interval :=
  Interval c (end_ r - 1) (end_ r) (idx r).

Section ExpandNotions.
Context `{Builtins}.

(** The interval that the record loop of ld_expand appends for a record,
    if it appends one. *)
Definition partner_interval (n : record) : option interval :=
  match ld_partner n, first_field n with
  | Ok (Some p2), Ok c => Some (Interval c (p2 - 1) p2 (label c p2))
  | _, _ => None
  end.

(** What one variant contributes: its own interval, then the intervals of
    the qualifying records of its query, none when the query fails. *)
Definition row_block (t : tabix_file) (c : string) (r : row) : list interval :=
  self_interval c r ::
  match t c (end_ r - 1) (end_ r) with
  | Some recs => omap partner_interval recs
  | None => []
  end.

(** All blocks, chromosome by chromosome in the order of the dict, and
    variant by variant in the order of the table. *)
Definition expand_all (df : DataFrame) (ld_beds : ld_sources) : list interval :=
  ld_beds ≫= λ cf, on_chrom cf.1 df ≫= row_block cf.2 cf.1.

End ExpandNotions.

(** Strings without a colon, as the decimal numerals are. *)
Fixpoint colon_free (s : string) : Prop :=
  match s with
  | EmptyString => True
  | String a s' => a ≠ ":"%char ∧ colon_free s'
  end.

(** ** Concrete tables and LD sources *)

(** A variant in the documented format. *)
Definition variant (c : string) (p : Z) (pv : Q) : row :=
  Row (label c p) c (p - 1) p "." (Q2Qc pv).

(** A tabix file of chromosome [c] holding one record per entry
    [(p, field)]: the record is found by the point query at position [p] and
    has [field] as its last field. *)
Definition tabix_of (c : string) (entries : list (Z * string)) : ld_file :=
  LdFile None
    (λ _ _ q, Some (omap (λ '(p, field),
                      if bool_decide (p = q)
                      then Some [c; pretty (p - 1); pretty p; field] else None)
                    entries)).

(** One variant on chr1 and an LD file in which chr1 is not indexed. *)
Definition lone_variant : DataFrame :=
  [Row "chr1:100" "chr1" 99 100 "rs1" (Q2Qc (1 # 1000000))].

Definition unindexed : ld_file := LdFile None (λ _ _ _, None).

(** The tie-break scenario: 100, 105 and 110 on chr1, pairwise linked at
    r2 = 0.9, with p-values 0.01, 0.001 and 0.01. *)
Definition trio : DataFrame :=
  [variant "chr1" 100 (1 # 100); variant "chr1" 105 (1 # 1000);
   variant "chr1" 110 (1 # 100)].

Definition trio_file : ld_file :=
  tabix_of "chr1"
    [(100, "100:105:0.9"); (100, "100:110:0.9"); (105, "105:100:0.9");
     (105, "105:110:0.9"); (110, "110:100:0.9"); (110, "110:105:0.9")].

Definition trio_sources : ld_sources := [("chr1", trio_file)].

Definition trio_ld_d : gmap Z (list Z) :=
  {[ 100 := [105; 110] ]} ∪ {[ 105 := [100; 110] ]} ∪ {[ 110 := [100; 105] ]}.

(** Two variants on chr1 whose only partner, 200, is not a variant. *)
Definition bridged : DataFrame :=
  [variant "chr1" 100 (1 # 100); variant "chr1" 105 (1 # 1000)].

Definition bridged_sources : ld_sources :=
  [("chr1", tabix_of "chr1" [(100, "100:200:0.9"); (105, "105:200:0.9")])].

Definition bridged_ld_d : gmap Z (list Z) :=
  {[ 100 := [200] ]} ∪ {[ 105 := [200] ]}.

(** The same shape at other positions: 300 and 310, both linked to 305. *)
Definition bridged' : DataFrame :=
  [variant "chr1" 300 (1 # 100); variant "chr1" 310 (1 # 100)].

Definition bridged'_file : ld_file :=
  tabix_of "chr1" [(300, "300:305:0.85"); (310, "310:305:0.85")].

Definition bridged'_ld_d : gmap Z (list Z) :=
  {[ 300 := [305] ]} ∪ {[ 310 := [305] ]}.

(** Two variants with equal p-values, linked to each other. *)
Definition tied : DataFrame :=
  [variant "chr1" 100 (1 # 100); variant "chr1" 110 (1 # 100)].

Definition tied_sources : ld_sources :=
  [("chr1", tabix_of "chr1" [(100, "100:110:0.9"); (110, "110:100:0.9")])].

(** A table with a variant on chr2 and an LD-source dict with chr1 only,
    its file holding no record. *)
Definition two_chroms : DataFrame :=
  [variant "chr1" 100 (1 # 100); variant "chr2" 50 (1 # 100)].

Definition chr1_only : ld_sources := [("chr1", tabix_of "chr1" [])].

(** A variant that the LD file links to itself and to 120. *)
Definition self_linked : DataFrame := [variant "chr1" 100 (1 # 100)].

Definition self_file : ld_file :=
  tabix_of "chr1" [(100, "100:100:0.9"); (100, "100:120:0.95")].

Definition self_ld_d : gmap Z (list Z) := {[ 100 := [100; 120] ]}.

(** Three variants of which 100 and 110 list each other, while 100 and
    105 share the partner 200, which is not a variant. *)
Definition mixed : DataFrame :=
  [variant "chr1" 100 (1 # 100); variant "chr1" 105 (1 # 1000);
   variant "chr1" 110 (1 # 10000)].

Definition mixed_file : ld_file :=
  tabix_of "chr1"
    [(100, "100:200:0.9"); (100, "100:110:0.9"); (105, "105:200:0.9");
     (110, "110:100:0.9")].

Definition mixed_ld_d : gmap Z (list Z) :=
  {[ 100 := [200; 110] ]} ∪ {[ 105 := [200] ]} ∪ {[ 110 := [100] ]}.

(** Listings in one direction only: 100 names 200, which is not a
    variant; 105 names 100; 110 names 105; nothing names 110. *)
Definition directed : DataFrame :=
  [variant "chr1" 100 (1 # 100); variant "chr1" 105 (1 # 1000);
   variant "chr1" 110 (1 # 100)].

Definition directed_file : ld_file :=
  tabix_of "chr1" [(100, "100:200:0.9"); (105, "105:100:0.9"); (110, "110:105:0.9")].

Definition directed_ld_d : gmap Z (list Z) :=
  {[ 100 := [200] ]} ∪ {[ 105 := [100] ]} ∪ {[ 110 := [105] ]}.

Definition mixed_out : DataFrame :=
  [variant "chr1" 110 (1 # 10000); variant "chr1" 105 (1 # 1000)].

Definition directed_out : DataFrame :=
  [variant "chr1" 110 (1 # 100); variant "chr1" 105 (1 # 1000)].



(** The trio with a variant on chr2. *)
Definition trio_and_chr2 : DataFrame := trio ++ [variant "chr2" 50 (1 # 100)].

(** A file name on which [tabix.open] raises. *)
Definition unopenable : ld_file := LdFile (Some TabixError) (λ _ _ _, None).


Definition self_kept : pyset :=
  set_add (set_ior set_new
             (set_sub (set_of ["chr1:100"]) (set_of ["chr1:100"; "chr1:120"])))
          "chr1:100".

(** LD files with a record that does not read as pos:pos:float: one below
    the threshold, one above it. *)
Definition odd_low : ld_sources := [("chr1", tabix_of "chr1" [(100, "100:abc:0.5")])].

Definition odd_high : ld_sources :=
  [("chr1", tabix_of "chr1" [(100, "100:abc:0.9")]); ("chr2", tabix_of "chr2" [])].

(** The trio's LD file beside a file of chr2 without records, in the two
    orders in which the keys of the dict can come. *)
Definition trio_chr2 : ld_sources :=
  [("chr1", trio_file); ("chr2", tabix_of "chr2" [])].

Definition chr2_trio : ld_sources :=
  [("chr2", tabix_of "chr2" []); ("chr1", trio_file)].

(** GRASP rows: two reports of chr1:1000, one on chrY, one not significant. *)
Definition grasp_sample : list grasp_record :=
  [Grasp "1" 1000 "rs1" (Q2Qc (1 # 1000000));
   Grasp "1" 1000 "rs1b" (Q2Qc (1 # 10000000));
   Grasp "Y" 500 "rs2" (Q2Qc (1 # 1000000));
   Grasp "2" 700 "rs3" (Q2Qc (1 # 100));
   Grasp "X" 900 "rs4" (Q2Qc (1 # 1000000))].

(** Roadmap rows, each a one-base interval. *)
Definition roadmap_sample : list roadmap_record :=
  [Roadmap "chr1" 999 1000 "rs1" (Q2Qc (1 # 1000000));
   Roadmap "chr1" 999 1000 "rs1b" (Q2Qc (1 # 10000000));
   Roadmap "chrY" 499 500 "rs2" (Q2Qc (1 # 1000000));
   Roadmap "chr2" 699 700 "rs3" (Q2Qc (1 # 100))].

(** Two Roadmap rows that end at chr1:1000 and start at different bases. *)
Definition roadmap_overlap : list roadmap_record :=
  [Roadmap "chr1" 990 1000 "rsA" (Q2Qc (1 # 1000000));
   Roadmap "chr1" 999 1000 "rsB" (Q2Qc (1 # 10000000))].

(** After the spec's words (data model, LD graph): the vertices of the LD
    graph of a chromosome are the input positions and every partner
    position found at the threshold, and its edges are unordered. [m] is
    the recorded partner lists. *)
Definition spec_edge (m : gmap Z (list Z)) (a b : Z) : Prop :=
  b ∈ m !!! a ∨ a ∈ m !!! b.

Definition spec_connected (m : gmap Z (list Z)) : relation Z := rtc (spec_edge m).

(** * Properties *)

(** ** The reference component search meets the networkx contract *)

Section Bfs.
Variable g : graph.

Definition bounded (S : list nat) : Prop := ∀ x, x ∈ S → (x < order g)%nat.
Definition closed (S : list nat) : Prop := ∀ i j, i ∈ S → linked g i j → j ∈ S.
Definition conn_closed (S : list nat) : Prop :=
  ∀ i j, i ∈ S → connected g i j → j ∈ S.

Lemma linked_sym i j : linked g i j → linked g j i.
Proof. unfold linked. tauto. Qed.

Lemma connected_sym i j : connected g i j → connected g j i.
Proof.
  induction 1 as [|i k j Hik _ IH]; [apply rtc_refl|].
  eapply rtc_trans; [exact IH|]. apply rtc_once, linked_sym, Hik.
Qed.

Lemma connected_bound i j : connected g i j → (i < order g)%nat → (j < order g)%nat.
Proof. induction 1 as [|i k j [_ [Hk _]] _ IH]; auto. Qed.

Lemma adjacent_linked i j :
  (i < order g)%nat → (j < order g)%nat → adjacent g i j → linked g i j.
Proof.
  intros Hi Hj Ha. repeat split; try done.
  unfold adjacent in Ha. apply orb_True in Ha.
  destruct Ha as [Ha|Ha]; apply Is_true_true in Ha; auto.
Qed.

Lemma linked_adjacent i j : linked g i j → adjacent g i j.
Proof.
  intros (_ & _ & [He|He]); unfold adjacent; rewrite He; simpl; auto.
Qed.

Lemma elem_of_grow S j :
  j ∈ grow g S ↔
  j ∈ S ∨ ((j < order g)%nat ∧ (j ∉ S) ∧ ∃ i, i ∈ S ∧ adjacent g i j).
Proof.
  unfold grow. rewrite elem_of_app, list_elem_of_filter, Exists_exists, elem_of_seq.
  naive_solver lia.
Qed.

Lemma grow_NoDup S : NoDup S → NoDup (grow g S).
Proof.
  intros HS. unfold grow. apply NoDup_app. split_and!; [done| |].
  - intros x Hx Hf. apply list_elem_of_filter in Hf. tauto.
  - apply NoDup_filter, NoDup_seq.
Qed.

Lemma grow_bounded S : bounded S → bounded (grow g S).
Proof. intros HS x Hx. apply elem_of_grow in Hx. naive_solver. Qed.

Lemma grow_cases S :
  bounded S →
  (grow g S = S ∧ closed S) ∨ (length S < length (grow g S))%nat.
Proof.
  intros HS. unfold grow.
  destruct (filter _ (seq 0 (order g))) as [|y ys] eqn:Hf.
  - left. split; [by rewrite app_nil_r|].
    intros i j Hi Hl. destruct (decide (j ∈ S)) as [|Hj]; [done|].
    assert (j ∈ filter (λ j, (j ∉ S) ∧ Exists (λ i, adjacent g i j) S)
                       (seq 0 (order g))) as Hin.
    { apply list_elem_of_filter. split_and!; [done| |].
      - apply Exists_exists. exists i. split; [done|]. by apply linked_adjacent.
      - apply elem_of_seq. destruct Hl as (_ & ? & _). lia. }
    rewrite Hf in Hin. by apply not_elem_of_nil in Hin.
  - right. rewrite length_app. simpl. lia.
Qed.

Lemma reach_closed_fixed fuel S : grow g S = S → reach g fuel S = S.
Proof. intros HS. induction fuel as [|n IH]; simpl; [done|]. by rewrite HS. Qed.

Lemma reach_inv fuel S :
  NoDup S → bounded S →
  NoDup (reach g fuel S) ∧ bounded (reach g fuel S) ∧ S ⊆ reach g fuel S.
Proof.
  revert S. induction fuel as [|n IH]; intros S Hn Hb; simpl; [done|].
  destruct (IH (grow g S)) as (? & ? & Hsub);
    [by apply grow_NoDup|by apply grow_bounded|].
  split_and!; [done..|].
  intros x Hx. apply Hsub, elem_of_grow. by left.
Qed.

Lemma reach_closed_or_long fuel S :
  bounded S →
  closed (reach g fuel S) ∨ (length S + fuel ≤ length (reach g fuel S))%nat.
Proof.
  revert S. induction fuel as [|n IH]; intros S Hb; simpl.
  - right. lia.
  - destruct (grow_cases S Hb) as [[Heq Hc]|Hlt].
    + left. by rewrite Heq, reach_closed_fixed.
    + destruct (IH (grow g S) (grow_bounded _ Hb)) as [?|?]; [by left|right; lia].
Qed.

Lemma bounded_length S : NoDup S → bounded S → (length S ≤ order g)%nat.
Proof.
  intros Hn Hb.
  assert (length (seq 0 (order g)) = order g) as <- by apply length_seq.
  apply submseteq_length, NoDup_submseteq; [done|].
  intros x Hx. apply elem_of_seq. specialize (Hb x Hx). lia.
Qed.

Lemma reach_sound fuel S x :
  bounded S → x ∈ reach g fuel S → ∃ s, s ∈ S ∧ connected g s x.
Proof.
  revert S. induction fuel as [|n IH]; intros S Hb Hx; simpl in Hx.
  - exists x. split; [done|apply rtc_refl].
  - destruct (IH _ (grow_bounded _ Hb) Hx) as (s & Hs & Hsx).
    apply elem_of_grow in Hs as [Hs|(Hlt & _ & i & Hi & Ha)]; [by exists s|].
    exists i. split; [done|].
    eapply rtc_l; [|exact Hsx]. apply adjacent_linked; auto.
Qed.

Lemma closed_connected S i j : closed S → i ∈ S → connected g i j → j ∈ S.
Proof. intros Hc Hi Hij. induction Hij; eauto. Qed.

Lemma component_of_spec v x :
  (v < order g)%nat → x ∈ component_of g v ↔ connected g v x.
Proof.
  intros Hv. unfold component_of.
  assert (NoDup [v]) as Hn by apply NoDup_singleton.
  assert (bounded [v]) as Hb.
  { intros y Hy. apply list_elem_of_singleton in Hy. by subst. }
  destruct (reach_inv (order g) [v] Hn Hb) as (Hn' & Hb' & Hsub).
  split.
  - intros Hx. destruct (reach_sound _ _ _ Hb Hx) as (s & Hs & Hsx).
    apply list_elem_of_singleton in Hs. by subst.
  - intros Hc. destruct (reach_closed_or_long (order g) [v] Hb) as [Hcl|Hlen].
    + eapply closed_connected; [done| |done]. apply Hsub. by left.
    + pose proof (bounded_length _ Hn' Hb'). simpl in Hlen. lia.
Qed.

Lemma cc_scan_spec todo seen :
  bounded todo → conn_closed seen →
  NoDup (concat (cc_scan g todo seen)) ∧
  (∀ x, x ∈ concat (cc_scan g todo seen) ↔
        (x ∉ seen) ∧ ∃ v, v ∈ todo ∧ connected g v x) ∧
  Forall (λ c, ∃ v, (v < order g)%nat ∧ c = component_of g v)
         (cc_scan g todo seen).
Proof.
  revert seen. induction todo as [|v todo IH]; intros seen Hb Hs; simpl.
  - split_and!; [constructor| |constructor].
    intros x. split; [by intros ?%not_elem_of_nil|].
    intros (_ & v & Hv & _). by apply not_elem_of_nil in Hv.
  - assert (bounded todo) as Hb' by (intros y Hy; apply Hb; by right).
    assert (v < order g)%nat as Hv by (apply Hb; by left).
    destruct (decide (v ∈ seen)) as [Hin|Hnin].
    + destruct (IH seen Hb' Hs) as (Hn & Hel & Hall).
      split_and!; [done| |done].
      intros x. rewrite Hel. split; [set_solver|].
      intros (Hx & w & [->|Hw]%elem_of_cons & Hc); [|by eauto].
      destruct Hx. by eapply Hs.
    + set (c := component_of g v).
      assert (conn_closed (c ++ seen)) as Hs'.
      { intros i j [Hi|Hi]%elem_of_app Hij; apply elem_of_app.
        - left. apply component_of_spec in Hi; [|done].
          apply component_of_spec; [done|]. by eapply rtc_trans.
        - right. by eapply Hs. }
      destruct (IH (c ++ seen) Hb' Hs') as (Hn & Hel & Hall).
      simpl. split_and!.
      * apply NoDup_app. split_and!; [|intros x Hx Hx'|done].
        -- unfold c, component_of. apply reach_inv; [apply NoDup_singleton|].
           intros y Hy. apply list_elem_of_singleton in Hy. by subst.
        -- apply Hel in Hx' as [Hx' _]. apply Hx', elem_of_app. by left.
      * intros x. rewrite elem_of_app, Hel, elem_of_app. split.
        -- intros [Hx|(Hx & w & Hw & Hc)].
           ++ apply component_of_spec in Hx; [|done]. split.
              ** intros Hxs. apply Hnin. eapply Hs; [done|]. by apply connected_sym.
              ** exists v. split; [by left|done].
           ++ split; [tauto|]. exists w. split; [by right|done].
        -- intros (Hx & w & [->|Hw]%elem_of_cons & Hc).
           ++ left. by apply component_of_spec.
           ++ destruct (decide (x ∈ c)); [by left|right].
              split; [tauto|]. by exists w.
      * constructor; [by exists v|done].
Qed.

Lemma bfs_components_spec :
  NoDup (concat (bfs_components g)) ∧
  (∀ x, x ∈ concat (bfs_components g) ↔ (x < order g)%nat) ∧
  Forall (λ c, ∃ v, (v < order g)%nat ∧ c = component_of g v) (bfs_components g).
Proof.
  assert (bounded (seq 0 (order g))) as Hb.
  { intros x Hx. apply elem_of_seq in Hx. lia. }
  assert (conn_closed []) as Hs by (intros i j Hi; by apply not_elem_of_nil in Hi).
  destruct (cc_scan_spec _ _ Hb Hs) as (Hn & Hel & Hall).
  split_and!; [done| |done].
  intros x. unfold bfs_components. rewrite Hel. split.
  - intros (_ & v & Hv & Hc). eapply connected_bound; [done|by apply Hb].
  - intros Hx. split; [apply not_elem_of_nil|].
    exists x. split; [apply elem_of_seq; lia|apply rtc_refl].
Qed.

Lemma bfs_partition : concat (bfs_components g) ≡ₚ seq 0 (order g).
Proof.
  destruct bfs_components_spec as (Hn & Hel & _).
  apply NoDup_Permutation; [done|apply NoDup_seq|].
  intros x. rewrite Hel, elem_of_seq. lia.
Qed.

Lemma bfs_nonempty c : c ∈ bfs_components g → c ≠ [].
Proof.
  destruct bfs_components_spec as (_ & _ & Hall).
  rewrite Forall_forall in Hall. intros (v & Hv & ->)%Hall Hnil.
  assert (v ∈ component_of g v) as Hin by (apply component_of_spec; [done|apply rtc_refl]).
  rewrite Hnil in Hin. by apply not_elem_of_nil in Hin.
Qed.

Lemma bfs_connected c i j :
  c ∈ bfs_components g → i ∈ c → (j ∈ c ↔ connected g i j).
Proof.
  destruct bfs_components_spec as (_ & _ & Hall).
  rewrite Forall_forall in Hall. intros (v & Hv & ->)%Hall Hi.
  apply component_of_spec in Hi; [|done].
  rewrite component_of_spec by done. split.
  - intros Hj. eapply rtc_trans; [by apply connected_sym|done].
  - intros Hj. by eapply rtc_trans.
Qed.

End Bfs.

(** networkx's component search, instantiated by the breadth-first one. *)
Definition bfs_graphlib : GraphLib :=
  {| connected_components := bfs_components;
     cc_partition := bfs_partition;
     cc_nonempty := bfs_nonempty;
     cc_connected := bfs_connected |}.

(** ** Sets and files *)

Lemma elem_of_pyset (x : string) (s : pyset) : x ∈ s ↔ x ∈ elems s.
Proof. done. Qed.

Lemma elem_of_set_new (x : string) : x ∉ set_new.
Proof. rewrite elem_of_pyset. simpl. apply not_elem_of_empty. Qed.

Lemma elem_of_set_of (x : string) (l : list string) : x ∈ set_of l ↔ x ∈ l.
Proof. rewrite elem_of_pyset. simpl. apply elem_of_list_to_set. Qed.

Lemma elem_of_set_and (x : string) (a b : pyset) :
  x ∈ set_and a b ↔ x ∈ a ∧ x ∈ b.
Proof. rewrite !elem_of_pyset. simpl. apply elem_of_intersection. Qed.

Lemma elem_of_set_sub (x : string) (a b : pyset) :
  x ∈ set_sub a b ↔ x ∈ a ∧ x ∉ b.
Proof. rewrite !elem_of_pyset. simpl. apply elem_of_difference. Qed.

Lemma elem_of_set_ior (x : string) (a b : pyset) :
  x ∈ set_ior a b ↔ x ∈ a ∨ x ∈ b.
Proof. rewrite !elem_of_pyset. simpl. apply elem_of_union. Qed.

Lemma elem_of_set_add (x : string) (a : pyset) (y : string) :
  x ∈ set_add a y ↔ x ∈ a ∨ x = y.
Proof. rewrite !elem_of_pyset. simpl. rewrite elem_of_union, elem_of_singleton. done. Qed.

Lemma tabix_open_Ok (s : ld_file) (f : tabix_file) :
  tabix_open s = Ok f ↔ open_error s = None ∧ f = tabix_query s.
Proof.
  unfold tabix_open. destruct (open_error s) as [e|]; split.
  - done.
  - by intros [? _].
  - by intros [= <-].
  - by intros [_ ->].
Qed.

Lemma tabix_open_opened (s : ld_file) :
  open_error s = None → tabix_open s = Ok (tabix_query s).
Proof. intros Ho. by apply tabix_open_Ok. Qed.

Lemma tabix_open_Raise (s : ld_file) e :
  tabix_open s = Raise e ↔ open_error s = Some e.
Proof.
  unfold tabix_open. destruct (open_error s); split; try done; by intros [= ->].
Qed.

Lemma inserted_spec (s : pyset) :
  NoDup (inserted s) ∧ ∀ x, x ∈ inserted s ↔ x ∈ s.
Proof.
  induction s as [|l|a [Ha Ha'] b [Hb Hb']|a [Ha Ha'] b [Hb Hb']
                  |a [Ha Ha'] b [Hb Hb']|a [Ha Ha'] y]; simpl.
  - split; [constructor|]. intros x. split; [by intros ?%not_elem_of_nil|].
    by intros ?%elem_of_set_new.
  - split; [apply NoDup_remove_dups|]. intros x.
    by rewrite elem_of_remove_dups, elem_of_set_of.
  - split; [by apply NoDup_filter|]. intros x.
    rewrite list_elem_of_filter, elem_of_set_and, Ha'. tauto.
  - split; [by apply NoDup_filter|]. intros x.
    rewrite list_elem_of_filter, elem_of_set_sub, Ha'. tauto.
  - split.
    + apply NoDup_app. split_and!; [done| |by apply NoDup_filter].
      intros x Hx [Hn _]%list_elem_of_filter. by apply Hn, Ha'.
    + intros x. rewrite elem_of_app, list_elem_of_filter, elem_of_set_ior, Ha', Hb'.
      destruct (decide (x ∈ a)); tauto.
  - destruct (decide (y ∈ a)) as [Hy|Hy].
    + split; [done|]. intros x. rewrite elem_of_set_add, Ha'.
      split; [by left|]. by intros [?| ->].
    + split.
      * apply NoDup_app. split_and!; [done| |apply NoDup_singleton].
        intros x Hx ->%list_elem_of_singleton. by apply Hy, Ha'.
      * intros x. by rewrite elem_of_app, list_elem_of_singleton, elem_of_set_add, Ha'.
Qed.

Lemma inserted_perm (s : pyset) : inserted s ≡ₚ elements (elems s).
Proof.
  destruct (inserted_spec s) as [Hn He].
  apply NoDup_Permutation; [done|apply NoDup_elements|].
  intros x. by rewrite He, elem_of_elements.
Qed.

(** Sets enumerated in the order of insertion. *)
Definition insertion_order : PySet :=
  {| set_iter := inserted; set_iter_perm := inserted_perm |}.

(** ** Loops, labels and row selection *)

Lemma for_each_app {A S} (body : S → A → result S) acc xs ys :
  for_each body acc (xs ++ ys) = (acc' ← for_each body acc xs; for_each body acc' ys).
Proof.
  revert acc. induction xs as [|x xs IH]; intros acc; simpl; [done|].
  destruct (body acc x) as [acc'|e]; simpl; [apply IH|done].
Qed.

(** A loop invariant: what every successful turn preserves holds at the end. *)
Lemma for_each_inv {A S} (P : S → Prop) (body : S → A → result S) xs acc out :
  (∀ a x a', x ∈ xs → P a → body a x = Ok a' → P a') →
  P acc → for_each body acc xs = Ok out → P out.
Proof.
  revert acc. induction xs as [|x xs IH]; intros acc Hstep Hacc Hrun; simpl in Hrun.
  - by injection Hrun as <-.
  - destruct (body acc x) as [acc'|e] eqn:Hb; simpl in Hrun; [|done].
    eapply IH; [|by eapply Hstep; [left|..]|done].
    intros a y a' Hy. apply Hstep. by right.
Qed.

(** A loop whose every turn succeeds from any state succeeds. *)
Lemma for_each_total {A S} (body : S → A → result S) xs acc :
  (∀ a x, x ∈ xs → ∃ a', body a x = Ok a') →
  ∃ out, for_each body acc xs = Ok out.
Proof.
  revert acc. induction xs as [|x xs IH]; intros acc Hstep; simpl; [by eexists|].
  destruct (Hstep acc x) as [acc' ->]; [by left|]. simpl.
  apply IH. intros a y Hy. apply Hstep. by right.
Qed.

(** A turn that raises makes the loop raise. *)
Lemma for_each_raises {A S} (body : S → A → result S) xs acc x :
  x ∈ xs → (∀ a, raises (body a x)) → raises (for_each body acc xs).
Proof.
  revert acc. induction xs as [|y xs IH]; intros acc Hx Hr; [by apply not_elem_of_nil in Hx|].
  simpl. apply elem_of_cons in Hx as [<-|Hx].
  - destruct (Hr acc) as [e ->]. by exists e.
  - destruct (body acc y) as [acc'|e]; simpl; [by apply IH|by exists e].
Qed.

Global Instance label_inj c : Inj (=) (=) (label c).
Proof.
  intros x y Hxy. unfold label in Hxy.
  apply (inj (String.app c)) in Hxy.
  apply (inj (String.app ":")) in Hxy. by apply (inj pretty) in Hxy.
Qed.

(** Labels of different chromosomes: no decimal numeral holds a colon, so
    the last colon of a label parts the chromosome from the position. *)
Lemma pretty_N_go_colon_free x s : colon_free s → colon_free (pretty_N_go x s).
Proof.
  revert s. induction (N.lt_wf_0 x) as [x _ IH]; intros s Hs.
  assert (x = 0 ∨ 0 < x)%N as [->|Hx] by lia; [by rewrite pretty_N_go_0|].
  rewrite pretty_N_go_step by done. apply IH; [by apply N.div_lt|].
  split; [|done]. unfold pretty_N_char. by repeat case_match.
Qed.

Lemma pretty_Z_colon_free (z : Z) : colon_free (pretty z).
Proof.
  assert (∀ p : positive, colon_free (pretty p)) as Hp.
  { intros p. unfold pretty, pretty_positive, pretty, pretty_N.
    destruct (decide _); [done|]. by apply pretty_N_go_colon_free. }
  destruct z as [|p|p]; [done|apply Hp|]. split; [done|apply Hp].
Qed.

Lemma append_nil_l (d : string) : "" +:+ d = d.
Proof. reflexivity. Qed.

Lemma append_cons (a : ascii) (c d : string) :
  String a c +:+ d = String a (c +:+ d).
Proof. reflexivity. Qed.

Lemma colon_free_app_colon c d : ¬ colon_free (c +:+ ":" +:+ d).
Proof.
  induction c as [|a c IH]; rewrite ?append_nil_l, !append_cons;
    [by intros [? _]|by intros [_ ?]].
Qed.

Lemma app_colon_inj c1 c2 d1 d2 :
  colon_free d1 → colon_free d2 →
  c1 +:+ ":" +:+ d1 = c2 +:+ ":" +:+ d2 → c1 = c2 ∧ d1 = d2.
Proof.
  intros H1 H2. revert c2.
  induction c1 as [|a c1 IH]; intros [|b c2];
    rewrite ?append_nil_l, !append_cons, ?append_nil_l; intros He.
  - by injection He as ->.
  - injection He as _ He. rewrite He in H1.
    by apply colon_free_app_colon in H1.
  - injection He as _ He. rewrite <-He in H2.
    by apply colon_free_app_colon in H2.
  - injection He as -> He. by destruct (IH _ He) as [-> ->].
Qed.

(** The label chrom:pos determines both the chromosome and the position. *)
Lemma label_pair_inj c1 p1 c2 p2 :
  label c1 p1 = label c2 p2 → c1 = c2 ∧ p1 = p2.
Proof.
  intros He. apply app_colon_inj in He as [-> Hp];
    [|apply pretty_Z_colon_free..].
  split; [done|]. by apply (inj pretty).
Qed.

Lemma elem_of_on_chrom c df r : r ∈ on_chrom c df ↔ r ∈ df ∧ chrom r = c.
Proof. unfold on_chrom. rewrite list_elem_of_filter. tauto. Qed.

Lemma NoDup_idx_inj (df : DataFrame) r r' :
  NoDup (idx <$> df) → r ∈ df → r' ∈ df → idx r = idx r' → r = r'.
Proof.
  induction df as [|a df IH]; intros Hn Hr Hr' He; [by apply not_elem_of_nil in Hr|].
  rewrite fmap_cons in Hn. apply NoDup_cons in Hn as [Ha Hn].
  apply elem_of_cons in Hr as [->|Hr]; apply elem_of_cons in Hr' as [->|Hr']; [done| | |by apply IH].
  - destruct Ha. rewrite He. by apply list_elem_of_fmap_2.
  - destruct Ha. rewrite <- He. by apply list_elem_of_fmap_2.
Qed.

Lemma filter_none {A} (P : A → Prop) `{∀ x, Decision (P x)} (l : list A) :
  (∀ x, x ∈ l → ¬ P x) → filter P l = [].
Proof.
  induction l as [|a l IH]; intros Hl; [done|].
  rewrite filter_cons_False by (apply Hl; by left).
  apply IH. intros x Hx. apply Hl. by right.
Qed.

Lemma filter_idx_single (df : DataFrame) r :
  NoDup (idx <$> df) → r ∈ df → filter (λ r', idx r' = idx r) df = [r].
Proof.
  induction df as [|a df IH]; intros Hn Hr; [by apply not_elem_of_nil in Hr|].
  rewrite fmap_cons in Hn. apply NoDup_cons in Hn as [Ha Hn].
  assert (∀ b, idx b ∉ idx <$> df → filter (λ r', idx r' = idx b) df = []) as Hnone.
  { intros b Hb. apply filter_none. intros x Hx Hxb.
    apply Hb. rewrite <- Hxb. by apply list_elem_of_fmap_2. }
  apply elem_of_cons in Hr as [->|Hr].
  - rewrite filter_cons_True by done. by rewrite Hnone.
  - rewrite filter_cons_False; [by apply IH|].
    intros He. apply Ha. rewrite He. by apply list_elem_of_fmap_2.
Qed.

Lemma elem_of_ix_rows df labels r :
  r ∈ ix_rows df labels ↔ r ∈ df ∧ idx r ∈ labels.
Proof.
  unfold ix_rows. rewrite list_elem_of_bind. split.
  - intros (l & Hr & Hl). apply list_elem_of_filter in Hr as [<- ?]. done.
  - intros [Hr Hl]. exists (idx r). split; [|done]. by apply list_elem_of_filter.
Qed.

(** With a unique index, looking up the labels of rows of the table
    returns those rows, in the order of the labels. *)
Lemma ix_rows_idx df (rs : list row) :
  NoDup (idx <$> df) → (∀ r, r ∈ rs → r ∈ df) → ix_rows df (idx <$> rs) = rs.
Proof.
  intros Hn. induction rs as [|r rs IH]; intros Hin; [done|].
  unfold ix_rows in *. rewrite fmap_cons, bind_cons.
  rewrite filter_idx_single; [|done|apply Hin; by left].
  rewrite IH; [done|]. intros r' Hr'. apply Hin. by right.
Qed.

Lemma ix_rows_fmap_idx df labels :
  NoDup (idx <$> df) → (∀ l, l ∈ labels → l ∈ idx <$> df) →
  idx <$> ix_rows df labels = labels.
Proof.
  intros Hn. induction labels as [|l ls IH]; intros Hin; [done|].
  unfold ix_rows in *. rewrite bind_cons, fmap_app, IH by (intros; apply Hin; by right).
  destruct (proj1 (list_elem_of_fmap _ _ _) (Hin l ltac:(by left))) as (r & -> & Hr).
  by rewrite filter_idx_single.
Qed.

(** ** The most significant row of a selection *)

Lemma Qc_min_le_l a b : (Qc_min a b ≤ a)%Qc.
Proof.
  unfold Qc_min. destruct (decide (a ≤ b)%Qc) as [|Hn]; [apply Qcle_refl|].
  by apply Qclt_le_weak, Qcnot_le_lt.
Qed.

Lemma Qc_min_le_r a b : (Qc_min a b ≤ b)%Qc.
Proof. unfold Qc_min. destruct (decide (a ≤ b)%Qc); [done|apply Qcle_refl]. Qed.

Lemma Qc_min_cases a b : Qc_min a b = a ∨ Qc_min a b = b.
Proof. unfold Qc_min. destruct (decide (a ≤ b)%Qc); auto. Qed.

Lemma pvalue_min_None s : pvalue_min s = None ↔ s = [].
Proof. destruct s; simpl; split; done. Qed.

Lemma pvalue_min_Some s m :
  pvalue_min s = Some m →
  (∃ r, r ∈ s ∧ pvalue r = m) ∧ ∀ r, r ∈ s → (m ≤ pvalue r)%Qc.
Proof.
  revert m. induction s as [|a s IH]; intros m Hm; [done|].
  simpl in Hm. injection Hm as <-.
  destruct (pvalue_min s) as [q|] eqn:Hq; simpl.
  - destruct (IH q eq_refl) as [(r & Hr & Hrq) Hle]. split.
    + destruct (Qc_min_cases (pvalue a) q) as [->| ->].
      * exists a. split; [by left|done].
      * exists r. split; [by right|done].
    + intros r' [->|Hr']%elem_of_cons; [apply Qc_min_le_l|].
      eapply Qcle_trans; [apply Qc_min_le_r|by apply Hle].
  - apply pvalue_min_None in Hq as ->. split.
    + exists a. split; [by left|done].
    + intros r' [->|Hr']%elem_of_cons; [apply Qcle_refl|by apply not_elem_of_nil in Hr'].
Qed.

Lemma filter_head {A} (P : A → Prop) `{∀ x, Decision (P x)} (l : list A) x xs :
  filter P l = x :: xs →
  ∃ l1 l2, l = l1 ++ x :: l2 ∧ P x ∧ ∀ y, y ∈ l1 → ¬ P y.
Proof.
  induction l as [|a l IH]; intros Hf; [done|].
  destruct (decide (P a)) as [Ha|Ha].
  - rewrite filter_cons_True in Hf by done. injection Hf as -> _.
    exists [], l. split_and!; [done..|]. by intros y ?%not_elem_of_nil.
  - rewrite filter_cons_False in Hf by done.
    destruct (IH Hf) as (l1 & l2 & -> & Hx & Hl1).
    exists (a :: l1), l2. split_and!; [done..|].
    intros y [->|Hy]%elem_of_cons; auto.
Qed.

(** [most_sig] returns the label of the first row, in the order of the
    selection, whose p-value is the least one. *)
Lemma most_sig_Ok s k :
  most_sig s = Ok k →
  ∃ s1 r s2, s = s1 ++ r :: s2 ∧ k = idx r ∧
    (∀ r', r' ∈ s → (pvalue r ≤ pvalue r')%Qc) ∧
    (∀ r', r' ∈ s1 → (pvalue r < pvalue r')%Qc).
Proof.
  unfold most_sig. destruct (pvalue_min s) as [m|] eqn:Hm; [|done].
  destruct (pvalue_min_Some _ _ Hm) as [_ Hle].
  destruct (filter _ s) as [|r rest] eqn:Hf; [done|].
  intros [= <-]. destruct (filter_head _ _ _ _ Hf) as (s1 & s2 & -> & Hr & Hs1).
  exists s1, r, s2. rewrite Hr. split_and!; [done..|].
  intros r' Hr'. destruct (Qcle_lt_or_eq m (pvalue r')) as [|He]; [|done|].
  - apply Hle, elem_of_app. by left.
  - destruct (Hs1 r' Hr'). done.
Qed.

Lemma most_sig_total s : s ≠ [] → ∃ k, most_sig s = Ok k.
Proof.
  intros Hs. unfold most_sig.
  destruct (pvalue_min s) as [m|] eqn:Hm; [|by apply pvalue_min_None in Hm].
  destruct (pvalue_min_Some _ _ Hm) as [(r & Hr & Hrm) _].
  destruct (filter _ s) as [|r' rest] eqn:Hf; [|by eexists].
  assert (r ∈ filter (λ r, pvalue r = m) s) as Hin by by apply list_elem_of_filter.
  rewrite Hf in Hin. by apply not_elem_of_nil in Hin.
Qed.

Lemma most_sig_singleton r : most_sig [r] = Ok (idx r).
Proof.
  unfold most_sig. simpl. rewrite filter_cons_True by done. done.
Qed.

(** ** The LD dict of one chromosome *)

Lemma elem_of_concat {A} (x : A) (ls : list (list A)) :
  x ∈ concat ls ↔ ∃ l, x ∈ l ∧ l ∈ ls.
Proof.
  induction ls as [|l ls IH]; simpl.
  - split; [by intros ?%not_elem_of_nil|by intros (l & _ & ?%not_elem_of_nil)].
  - rewrite elem_of_app, IH. split.
    + intros [Hx|(l' & Hx & Hl')]; [exists l; split; [done|by left]|].
      exists l'. split; [done|by right].
    + intros (l' & Hx & [->|Hl']%elem_of_cons); [by left|right; by exists l'].
Qed.

Lemma concat_disjoint {A} (ls : list (list A)) l1 l2 x :
  NoDup (concat ls) → l1 ∈ ls → l2 ∈ ls → x ∈ l1 → x ∈ l2 → l1 = l2.
Proof.
  induction ls as [|l ls IH]; simpl; intros Hn H1 H2 Hx1 Hx2;
    [by apply not_elem_of_nil in H1|].
  apply NoDup_app in Hn as (_ & Hd & Hn).
  apply elem_of_cons in H1 as [->|H1]; apply elem_of_cons in H2 as [->|H2];
    [done| | |by apply IH].
  - destruct (Hd x Hx1). apply elem_of_concat. by exists l2.
  - destruct (Hd x Hx2). apply elem_of_concat. by exists l1.
Qed.

Section PruneFacts.
Context `{Builtins, PySet, GraphLib}.

Lemma prune_query_spec f c m r :
  prune_query f c m r =
  match partners_at f c (end_ r) with
  | Some l => Ok (<[end_ r := l]> m)
  | None => Raise NameError
  end.
Proof.
  unfold prune_query, partners_at.
  destruct (f c (end_ r - 1) (end_ r)) as [recs|]; simpl; [|done].
  by destruct (partners recs).
Qed.

Lemma build_ld_d_from f c tdf m0 m :
  for_each (prune_query f c) m0 tdf = Ok m →
  (∀ r, r ∈ tdf → is_Some (partners_at f c (end_ r))) ∧
  ∀ p, m !! p = if decide (p ∈ end_ <$> tdf) then partners_at f c p else m0 !! p.
Proof.
  revert m0. induction tdf as [|r tdf IH]; intros m0 Hrun; simpl in Hrun.
  - injection Hrun as <-. split; [by intros r ?%not_elem_of_nil|].
    intros p. rewrite decide_False; [done|apply not_elem_of_nil].
  - rewrite prune_query_spec in Hrun.
    destruct (partners_at f c (end_ r)) as [l|] eqn:Hl; simpl in Hrun; [|done].
    destruct (IH _ Hrun) as [Hall Hm]. split.
    + intros r' [->|Hr']%elem_of_cons; [by rewrite Hl|by apply Hall].
    + intros p. rewrite Hm, fmap_cons.
      destruct (decide (p ∈ end_ <$> tdf)) as [Hp|Hp].
      * rewrite decide_True; [done|by right].
      * destruct (decide (p = end_ r)) as [->|Hne].
        -- rewrite decide_True by by left. by rewrite lookup_insert_eq.
        -- rewrite decide_False by (intros [?|?]%elem_of_cons; done).
           by rewrite lookup_insert_ne.
Qed.

Lemma build_ld_d_spec f c tdf m :
  build_ld_d f c tdf = Ok m →
  (∀ r, r ∈ tdf → is_Some (partners_at f c (end_ r))) ∧
  ∀ p, m !! p = if decide (p ∈ end_ <$> tdf) then partners_at f c p else None.
Proof.
  intros Hrun. destruct (build_ld_d_from _ _ _ _ _ Hrun) as [Hall Hm].
  split; [done|]. intros p. by rewrite Hm, lookup_empty.
Qed.

Lemma build_ld_d_total f c tdf :
  (∀ r, r ∈ tdf → is_Some (partners_at f c (end_ r))) →
  ∃ m, build_ld_d f c tdf = Ok m.
Proof.
  intros Hall. apply for_each_total. intros m r Hr.
  rewrite prune_query_spec. destruct (Hall r Hr) as [l ->]. by eexists.
Qed.

(** A position queried in a successful run has an entry in the dict. *)
Lemma build_ld_d_key f c tdf m p :
  build_ld_d f c tdf = Ok m → is_Some (m !! p) ↔ p ∈ end_ <$> tdf.
Proof.
  intros Hrun. destruct (build_ld_d_spec _ _ _ _ Hrun) as [Hall Hm]. rewrite Hm.
  destruct (decide (p ∈ end_ <$> tdf)) as [Hp|Hp].
  - split; [done|intros _].
    apply list_elem_of_fmap in Hp as (r & -> & Hr). by apply Hall.
  - split; [by intros [? ?]|done].
Qed.

Lemma elem_of_ld_keys (m : gmap Z (list Z)) k :
  k ∈ (map_to_list m).*1 ↔ is_Some (m !! k).
Proof.
  rewrite list_elem_of_fmap. split.
  - intros ([k' l] & -> & Hkl). apply elem_of_map_to_list in Hkl. by exists l.
  - intros [l Hl]. exists (k, l). split; [done|]. by apply elem_of_map_to_list.
Qed.

Lemma elem_of_ld_cols (m : gmap Z (list Z)) x :
  x ∈ ld_cols m ↔ ∃ k l, m !! k = Some l ∧ x ∈ l.
Proof.
  unfold ld_cols. rewrite merge_sort_Permutation, elem_of_elements,
    elem_of_list_to_set, elem_of_concat. split.
  - intros (l & Hx & Hl). apply list_elem_of_fmap in Hl as ([k l'] & -> & Hkl).
    apply elem_of_map_to_list in Hkl. by exists k, l'.
  - intros (k & l & Hkl & Hx). exists l. split; [done|].
    apply list_elem_of_fmap. exists (k, l). split; [done|].
    by apply elem_of_map_to_list.
Qed.

Lemma NoDup_ld_cols (m : gmap Z (list Z)) : NoDup (ld_cols m).
Proof. unfold ld_cols. rewrite merge_sort_Permutation. apply NoDup_elements. Qed.

(** ** The adjacency table and its graph *)

Lemma pos_of_Some `{EqDecision A} (l : list A) a i :
  pos_of l a = Some i → l !! i = Some a.
Proof.
  unfold pos_of. destruct (list_find _ l) as [[j x]|] eqn:Hf; [|done].
  intros [= <-]. apply list_find_Some in Hf as (Hl & -> & _). done.
Qed.

Lemma pos_of_elem `{EqDecision A} (l : list A) a :
  a ∈ l → ∃ i, pos_of l a = Some i.
Proof.
  intros Ha. unfold pos_of.
  destruct (list_find_elem_of (λ b, b = a) l a Ha eq_refl) as [[i x] ->].
  by exists i.
Qed.

Lemma frame_set_fold (m : gmap Z (list Z)) ks (t0 : frame Z Z) :
  let t := foldl (λ t k, frame_set t k (m !!! k) 1) t0 ks in
  f_index t = f_index t0 ∧ f_columns t = f_columns t0 ∧
  ∀ i j, f_cell t i j =
    match f_index t0 !! i, f_columns t0 !! j with
    | Some k, Some x =>
        if bool_decide (k ∈ ks ∧ x ∈ m !!! k) then 1 else f_cell t0 i j
    | _, _ => f_cell t0 i j
    end.
Proof.
  revert t0. induction ks as [|k ks IH]; intros t0; simpl.
  - split_and!; [done..|]. intros i j.
    destruct (f_index t0 !! i), (f_columns t0 !! j); done.
  - destruct (IH (frame_set t0 k (m !!! k) 1)) as (Hi & Hc & Hcell).
    split_and!; [done..|]. intros i j. rewrite Hcell. simpl.
    destruct (f_index t0 !! i) as [k'|], (f_columns t0 !! j) as [x|]; try done.
    rewrite (bool_decide_ext (k' ∈ k :: ks ∧ x ∈ m !!! k')
               ((k' ∈ ks ∧ x ∈ m !!! k') ∨ (k' = k ∧ x ∈ m !!! k)))
      by (rewrite elem_of_cons; naive_solver).
    repeat case_bool_decide; try done; exfalso; tauto.
Qed.

Lemma ld_table_index c m : f_index (ld_table c m) = label c <$> (map_to_list m).*1.
Proof. done. Qed.

Lemma ld_table_columns c m : f_columns (ld_table c m) = label c <$> ld_cols m.
Proof. done. Qed.

Lemma ld_table_cell c m i j :
  f_cell (ld_table c m) i j =
  match (map_to_list m).*1 !! i, ld_cols m !! j with
  | Some k, Some x => if bool_decide (x ∈ m !!! k) then 1 else 0
  | _, _ => 0
  end.
Proof.
  unfold ld_table, frame_relabel. cbn [f_cell].
  destruct (frame_set_fold m (map_to_list m).*1
              (frame_const 0 (map_to_list m).*1 (ld_cols m))) as (_ & _ & ->).
  cbn [frame_const f_index f_columns f_cell].
  destruct ((map_to_list m).*1 !! i) as [k|] eqn:Hk; [|done].
  destruct (ld_cols m !! j) as [x|]; [|done].
  apply list_elem_of_lookup_2 in Hk.
  repeat case_bool_decide; naive_solver.
Qed.

Lemma elem_of_ld_isolated c m l :
  l ∈ ld_isolated (ld_table c m) ↔
  ∃ k, l = label c k ∧ is_Some (m !! k) ∧ k ∉ ld_cols m.
Proof.
  unfold ld_isolated. rewrite elem_of_pyset. cbn [elems].
  rewrite elem_of_difference, !elem_of_list_to_set,
    ld_table_index, ld_table_columns, !list_elem_of_fmap. split.
  - intros [(k & -> & Hk) Hc]. exists k. split_and!; [done|by apply elem_of_ld_keys|].
    intros Hx. apply Hc. by exists k.
  - intros (k & -> & Hk & Hc). split; [exists k; split; [done|by apply elem_of_ld_keys]|].
    intros (x & Hx%(inj (label c)) & Hin). by subst.
Qed.

Lemma elem_of_ld_ind c m l :
  l ∈ ld_ind (ld_table c m) ↔
  ∃ k, l = label c k ∧ is_Some (m !! k) ∧ k ∈ ld_cols m.
Proof.
  unfold ld_ind. rewrite set_iter_perm, elem_of_elements. cbn [elems].
  rewrite elem_of_intersection,
    !elem_of_list_to_set, ld_table_index, ld_table_columns, !list_elem_of_fmap. split.
  - intros [(x & -> & Hx) (k & Hk%(inj (label c)) & Hin)]. subst.
    exists k. split_and!; [done|by apply elem_of_ld_keys|done].
  - intros (k & -> & Hk & Hc). split; exists k; split; try done.
    by apply elem_of_ld_keys.
Qed.

Lemma NoDup_ld_ind t : NoDup (ld_ind t).
Proof. unfold ld_ind. rewrite set_iter_perm. apply NoDup_elements. Qed.

Lemma ld_graph_order c m : order (ld_graph c m) = length (ld_ind (ld_table c m)).
Proof. done. Qed.

Local Arguments ld_table : simpl never.

Lemma frame_ix_cell {I C} `{EqDecision I, EqDecision C}
    (t : frame I C) rows cols i j :
  f_cell (frame_ix t rows cols) i j =
  match rows !! i ≫= pos_of (f_index t), cols !! j ≫= pos_of (f_columns t) with
  | Some i', Some j' => f_cell t i' j'
  | _, _ => 0
  end.
Proof. done. Qed.

Lemma nx_Graph_edge {I C} (t : frame I C) i j :
  edge (nx_Graph t) i j = bool_decide (f_cell t i j ≠ 0).
Proof. done. Qed.

(** An edge joins two vertices exactly when one position is in the
    partner list recorded for the other. *)
Lemma ld_graph_edge c m i j :
  edge (ld_graph c m) i j = true ↔
  ∃ a b, ld_ind (ld_table c m) !! i = Some (label c a) ∧
         ld_ind (ld_table c m) !! j = Some (label c b) ∧
         b ∈ m !!! a.
Proof.
  unfold ld_graph.
  rewrite nx_Graph_edge, bool_decide_eq_true, frame_ix_cell,
    ld_table_index, ld_table_columns.
  set (ind := ld_ind (ld_table c m)).
  split.
  - destruct (ind !! i) as [la|] eqn:Hi; cbn [mbind option_bind]; [|done].
    destruct (pos_of _ la) as [i'|] eqn:Hi'; [|done].
    destruct (ind !! j) as [lb|] eqn:Hj; cbn [mbind option_bind]; [|done].
    destruct (pos_of _ lb) as [j'|] eqn:Hj'; [|done].
    rewrite ld_table_cell.
    apply pos_of_Some, list_lookup_fmap_Some in Hi' as (a & Ha & ->).
    apply pos_of_Some, list_lookup_fmap_Some in Hj' as (b & Hb & ->).
    rewrite Ha, Hb. case_bool_decide; [|done]. intros _. by exists a, b.
  - intros (a & b & Hi & Hj & Hab). rewrite Hi, Hj. cbn [mbind option_bind].
    assert (is_Some (m !! a) ∧ b ∈ ld_cols m) as [Ha Hb].
    { apply list_elem_of_lookup_2, elem_of_ld_ind in Hi as (k & ->%(inj (label c)) & Hk & _).
      apply list_elem_of_lookup_2, elem_of_ld_ind in Hj as (k' & ->%(inj (label c)) & _ & Hk').
      done. }
    destruct (pos_of_elem (label c <$> (map_to_list m).*1) (label c a)) as [i' Hi'].
    { by apply list_elem_of_fmap_2, elem_of_ld_keys. }
    destruct (pos_of_elem (label c <$> ld_cols m) (label c b)) as [j' Hj'].
    { by apply list_elem_of_fmap_2. }
    rewrite Hi', Hj', ld_table_cell.
    apply pos_of_Some, list_lookup_fmap_Some in Hi' as (a' & ->%(inj (label c)) & ->).
    apply pos_of_Some, list_lookup_fmap_Some in Hj' as (b' & ->%(inj (label c)) & ->).
    by rewrite bool_decide_eq_true_2.
Qed.

(** ** What one chromosome and the whole call keep *)

Lemma for_each_cons {A S} (body : S → A → result S) acc x xs :
  for_each body acc (x :: xs) = (acc' ← body acc x; for_each body acc' xs).
Proof. done. Qed.

Lemma keep_components_spec tdf (t : frame string string) ccs keep keep' :
  for_each (keep_component tdf t) keep ccs = Ok keep' →
  ∀ l, l ∈ keep' ↔
       l ∈ keep ∨ ∃ sg, sg ∈ ccs ∧ most_sig (ix_rows tdf (index_at (f_index t) sg)) = Ok l.
Proof.
  revert keep. induction ccs as [|sg ccs IH]; intros keep Hrun l.
  - injection Hrun as <-. split; [by left|].
    intros [?|(sg & ?%not_elem_of_nil & _)]; done.
  - rewrite for_each_cons in Hrun.
    destruct (keep_component tdf t keep sg) as [keep1|e] eqn:Hkc; [|done].
    unfold keep_component in Hkc.
    destruct (most_sig (ix_rows tdf (index_at (f_index t) sg))) as [k|] eqn:Hk; [|done].
    injection Hkc as <-.
    rewrite (IH _ Hrun), elem_of_set_add. split.
    + intros [[Hl| ->]|(sg' & Hsg' & Hl)]; [by left| |].
      * right. exists sg. split; [by left|done].
      * right. exists sg'. split; [by right|done].
    + intros [Hl|(sg' & [->|Hsg']%elem_of_cons & Hl)]; [by left;left| |].
      * left. right. congruence.
      * right. by exists sg'.
Qed.

Lemma keep_components_total tdf (t : frame string string) ccs keep :
  (∀ sg, sg ∈ ccs → ix_rows tdf (index_at (f_index t) sg) ≠ []) →
  ∃ keep', for_each (keep_component tdf t) keep ccs = Ok keep'.
Proof.
  intros Hne. apply for_each_total. intros a sg Hsg. unfold keep_component.
  destruct (most_sig_total _ (Hne sg Hsg)) as [k ->]. by eexists.
Qed.

Lemma prune_chrom_spec df keep cf keep' :
  prune_chrom df keep cf = Ok keep' →
  ∀ l, l ∈ keep' ↔ l ∈ keep ∨ chrom_keeps df cf l.
Proof.
  unfold prune_chrom, chrom_keeps. intros Hrun l.
  destruct (tabix_open cf.2) as [f|] eqn:Ho; simpl in Hrun; [|done].
  apply tabix_open_Ok in Ho as [_ ->].
  destruct (build_ld_d cf.2 cf.1 (on_chrom cf.1 df)) as [m|] eqn:Hm;
    simpl in Hrun; [|done].
  rewrite (keep_components_spec _ _ _ _ _ Hrun), elem_of_set_ior. split.
  - intros [[Hl|Hl]|Hl]; [by left| |]; right; exists m; auto.
  - intros [Hl|(m' & [= <-] & [Hl|Hl])]; auto.
Qed.

Lemma prune_chrom_total df keep cf m :
  open_error cf.2 = None →
  build_ld_d cf.2 cf.1 (on_chrom cf.1 df) = Ok m →
  (∀ sg, sg ∈ connected_components (ld_graph cf.1 m) →
         component_rows (on_chrom cf.1 df) cf.1 m sg ≠ []) →
  ∃ keep', prune_chrom df keep cf = Ok keep'.
Proof.
  intros Ho Hm Hne. unfold prune_chrom.
  rewrite (tabix_open_opened _ Ho). cbn [mbind result_bind]. rewrite Hm. simpl.
  by apply keep_components_total.
Qed.

Lemma prune_chrom_ld_d df keep cf keep' :
  prune_chrom df keep cf = Ok keep' →
  open_error cf.2 = None ∧
  ∃ m, build_ld_d cf.2 cf.1 (on_chrom cf.1 df) = Ok m.
Proof.
  unfold prune_chrom.
  destruct (tabix_open cf.2) as [f|] eqn:Ho; simpl; [|done].
  apply tabix_open_Ok in Ho as [Ho ->]. split; [done|].
  destruct (build_ld_d _ _ _) as [m|]; simpl in *; [by eexists|done].
Qed.

Lemma prune_keep_from df L keep0 keep :
  for_each (prune_chrom df) keep0 L = Ok keep →
  (∀ l, l ∈ keep ↔ l ∈ keep0 ∨ ∃ cf, cf ∈ L ∧ chrom_keeps df cf l) ∧
  (∀ cf, cf ∈ L → open_error cf.2 = None ∧
                  ∃ m, build_ld_d cf.2 cf.1 (on_chrom cf.1 df) = Ok m).
Proof.
  revert keep0. induction L as [|cf L IH]; intros keep0 Hrun; simpl in Hrun.
  - injection Hrun as <-. split.
    + intros l. split; [by left|]. intros [?|(cf & ?%not_elem_of_nil & _)]; done.
    + by intros cf ?%not_elem_of_nil.
  - destruct (prune_chrom df keep0 cf) as [keep1|] eqn:Hc1; simpl in Hrun; [|done].
    destruct (IH _ Hrun) as [Hk Hm]. split.
    + intros l. rewrite Hk, (prune_chrom_spec _ _ _ _ Hc1). split.
      * intros [[Hl|Hl]|(cf' & Hcf' & Hl)]; [by left| |].
        -- right. exists cf. split; [by left|done].
        -- right. exists cf'. split; [by right|done].
      * intros [Hl|(cf' & [->|Hcf']%elem_of_cons & Hl)]; [by left;left|by left;right|].
        right. by exists cf'.
    + intros cf' [->|Hcf']%elem_of_cons; [by eapply prune_chrom_ld_d|by apply Hm].
Qed.

Lemma prune_keep_spec df L keep :
  prune_keep df L = Ok keep →
  ∀ l, l ∈ keep ↔ ∃ cf, cf ∈ L ∧ chrom_keeps df cf l.
Proof.
  intros Hrun l. destruct (prune_keep_from _ _ _ _ Hrun) as [-> _].
  pose proof (elem_of_set_new l). tauto.
Qed.

Lemma prune_keep_ld_d df L keep cf :
  prune_keep df L = Ok keep → cf ∈ L →
  ∃ m, build_ld_d cf.2 cf.1 (on_chrom cf.1 df) = Ok m.
Proof. intros Hrun Hcf. by apply (prune_keep_from _ _ _ _ Hrun). Qed.

(** When the call returns, every file of the dict was opened. *)
Lemma prune_keep_opened df L keep cf :
  prune_keep df L = Ok keep → cf ∈ L → open_error cf.2 = None.
Proof. intros Hrun Hcf. by apply (prune_keep_from _ _ _ _ Hrun). Qed.

Lemma prune_keep_total df L :
  (∀ cf keep, cf ∈ L → ∃ keep', prune_chrom df keep cf = Ok keep') →
  ∃ keep, prune_keep df L = Ok keep.
Proof. intros Hall. apply for_each_total. intros a cf Hcf. by apply Hall. Qed.

(** ** Well-formed tables *)

Lemma NoDup_fmap_filter {A B} (f : A → B) (P : A → Prop) `{∀ x, Decision (P x)}
    (l : list A) :
  NoDup (f <$> l) → NoDup (f <$> filter P l).
Proof.
  induction l as [|a l IH]; [done|]. rewrite fmap_cons, NoDup_cons.
  intros [Ha Hn]. destruct (decide (P a)).
  - rewrite filter_cons_True, fmap_cons by done. apply NoDup_cons. split; [|auto].
    intros (x & Hx & Hin%list_elem_of_filter)%list_elem_of_fmap.
    apply Ha. rewrite Hx. apply list_elem_of_fmap_2. tauto.
  - rewrite filter_cons_False by done. auto.
Qed.

Lemma wf_table_filter (P : row → Prop) `{∀ x, Decision (P x)} df :
  wf_table df → wf_table (filter P df).
Proof.
  intros [Hn Hl]. split; [by apply NoDup_fmap_filter|].
  intros r [_ Hr]%list_elem_of_filter. by apply Hl.
Qed.

Lemma wf_on_chrom c df : wf_table df → wf_table (on_chrom c df).
Proof. apply wf_table_filter. Qed.

Lemma wf_on_chrom_idx c df r :
  wf_table df → r ∈ on_chrom c df → idx r = label c (end_ r).
Proof.
  intros [_ Hl] Hr. apply elem_of_on_chrom in Hr as [Hr <-]. by apply Hl.
Qed.

(** Every key of the LD dict is the position of a row of the chromosome. *)
Lemma ld_d_key_row f c df m k :
  build_ld_d f c (on_chrom c df) = Ok m → is_Some (m !! k) →
  ∃ r, r ∈ on_chrom c df ∧ end_ r = k.
Proof.
  intros Hm Hk. apply (build_ld_d_key _ _ _ _ _ Hm) in Hk.
  apply list_elem_of_fmap in Hk as (r & -> & Hr). by exists r.
Qed.

Lemma elem_of_index_at {A} (index : list A) sg l :
  l ∈ index_at index sg ↔ ∃ i, i ∈ sg ∧ index !! i = Some l.
Proof. unfold index_at. by rewrite list_elem_of_omap. Qed.

Lemma ld_ind_row f c df m l :
  wf_table df → build_ld_d f c (on_chrom c df) = Ok m →
  l ∈ ld_ind (ld_table c m) →
  ∃ r, r ∈ on_chrom c df ∧ idx r = l ∧ end_ r ∈ ld_cols m.
Proof.
  intros Hwf Hm (k & -> & Hk & Hc)%elem_of_ld_ind.
  destruct (ld_d_key_row _ _ _ _ _ Hm Hk) as (r & Hr & <-).
  exists r. split_and!; [done| |done]. by eapply wf_on_chrom_idx.
Qed.

Lemma component_rows_idx f c df m sg :
  wf_table df → build_ld_d f c (on_chrom c df) = Ok m →
  idx <$> component_rows (on_chrom c df) c m sg
  = index_at (ld_ind (ld_table c m)) sg.
Proof.
  intros Hwf Hm. unfold component_rows.
  apply ix_rows_fmap_idx; [by apply wf_on_chrom|].
  intros l (i & _ & Hi)%elem_of_index_at.
  apply list_elem_of_lookup_2 in Hi.
  destruct (ld_ind_row _ _ _ _ _ Hwf Hm Hi) as (r & Hr & <- & _).
  by apply list_elem_of_fmap_2.
Qed.

Lemma cc_NoDup g : NoDup (concat (connected_components g)).
Proof. rewrite cc_partition. apply NoDup_seq. Qed.

Lemma cc_bound g sg i :
  sg ∈ connected_components g → i ∈ sg → (i < order g)%nat.
Proof.
  intros Hsg Hi. assert (i ∈ concat (connected_components g)) as Hc.
  { apply elem_of_concat. by exists sg. }
  rewrite cc_partition in Hc. apply elem_of_seq in Hc. lia.
Qed.

Lemma cc_cover g i :
  (i < order g)%nat → ∃ sg, sg ∈ connected_components g ∧ i ∈ sg.
Proof.
  intros Hi. assert (i ∈ concat (connected_components g)) as Hc.
  { rewrite cc_partition. apply elem_of_seq. lia. }
  apply elem_of_concat in Hc as (sg & ? & ?). by exists sg.
Qed.

Lemma cc_same g sg sg' i :
  sg ∈ connected_components g → sg' ∈ connected_components g →
  i ∈ sg → i ∈ sg' → sg = sg'.
Proof. intros. eapply concat_disjoint; eauto using cc_NoDup. Qed.

(** Every node of a component carries the label of a row. *)
Lemma component_node_row f c df m sg i :
  wf_table df → build_ld_d f c (on_chrom c df) = Ok m →
  sg ∈ connected_components (ld_graph c m) → i ∈ sg →
  ∃ r, r ∈ component_rows (on_chrom c df) c m sg ∧
       ld_ind (ld_table c m) !! i = Some (idx r).
Proof.
  intros Hwf Hm Hsg Hi.
  pose proof (cc_bound _ _ _ Hsg Hi) as Hlt. rewrite ld_graph_order in Hlt.
  apply lookup_lt_is_Some in Hlt as [l Hl].
  destruct (ld_ind_row _ _ _ _ l Hwf Hm) as (r & Hr & <- & _);
    [by eapply list_elem_of_lookup_2|].
  exists r. split; [|done]. apply elem_of_ix_rows. split; [done|].
  apply elem_of_index_at. by exists i.
Qed.

Lemma component_rows_nonempty f c df m sg :
  wf_table df → build_ld_d f c (on_chrom c df) = Ok m →
  sg ∈ connected_components (ld_graph c m) →
  component_rows (on_chrom c df) c m sg ≠ [].
Proof.
  intros Hwf Hm Hsg Hnil.
  destruct sg as [|i sg'] eqn:Hs; [by eapply cc_nonempty|].
  destruct (component_node_row _ _ _ _ _ i Hwf Hm Hsg) as (r & Hr & _); [by left|].
  rewrite Hnil in Hr. by apply not_elem_of_nil in Hr.
Qed.

(** Whatever a chromosome keeps is the label of one of its rows. *)
Lemma chrom_keeps_row df cf l :
  wf_table df → chrom_keeps df cf l →
  ∃ r, r ∈ on_chrom cf.1 df ∧ idx r = l.
Proof.
  intros Hwf (m & Hm & [Hl|(sg & Hsg & Hl)]).
  - apply elem_of_ld_isolated in Hl as (k & -> & Hk & _).
    destruct (ld_d_key_row _ _ _ _ _ Hm Hk) as (r & Hr & <-).
    exists r. split; [done|]. by eapply wf_on_chrom_idx.
  - apply most_sig_Ok in Hl as (s1 & r & s2 & Hs & -> & _).
    exists r. split; [|done].
    assert (r ∈ component_rows (on_chrom cf.1 df) cf.1 m sg) as Hr.
    { rewrite Hs. apply elem_of_app. right. by left. }
    by apply elem_of_ix_rows in Hr as [? _].
Qed.

Lemma prune_keep_rows df L keep l :
  wf_table df → prune_keep df L = Ok keep → l ∈ keep →
  ∃ r, r ∈ df ∧ idx r = l ∧ chrom r ∈ L.*1.
Proof.
  intros Hwf Hrun Hl. apply (prune_keep_spec _ _ _ Hrun) in Hl as (cf & Hcf & Hl).
  destruct (chrom_keeps_row _ _ _ Hwf Hl) as (r & [Hr Hc]%elem_of_on_chrom & <-).
  exists r. split_and!; [done..|]. rewrite Hc. by apply list_elem_of_fmap_2.
Qed.

(** On a well-formed table the call fails only through its LD queries. *)
Lemma prune_keep_wf_total df L :
  wf_table df →
  (∀ cf, cf ∈ L → open_error cf.2 = None) →
  (∀ cf r, cf ∈ L → r ∈ on_chrom cf.1 df → is_Some (partners_at cf.2 cf.1 (end_ r))) →
  ∃ keep, prune_keep df L = Ok keep.
Proof.
  intros Hwf Ho Hq. apply prune_keep_total. intros cf keep Hcf.
  destruct (build_ld_d_total cf.2 cf.1 (on_chrom cf.1 df)) as [m Hm];
    [intros r Hr; by apply Hq|].
  eapply prune_chrom_total; [by apply Ho|done|].
  intros sg Hsg. by eapply component_rows_nonempty.
Qed.

(** ** The output of ld_prune *)

Lemma ld_prune_unfold df L out :
  ld_prune df L = Ok out ↔
  ∃ keep, prune_keep df L = Ok keep ∧ out = ix_rows df (set_iter keep).
Proof.
  unfold ld_prune. destruct (prune_keep df L) as [keep|e]; simpl.
  - split; [intros [= <-]; by exists keep|by intros (? & [= <-] & ->)].
  - split; [done|by intros (? & ? & _)].
Qed.

Lemma set_iter_NoDup (X : pyset) : NoDup (set_iter X).
Proof. rewrite set_iter_perm. apply NoDup_elements. Qed.

Lemma elem_of_set_iter (X : pyset) l : l ∈ set_iter X ↔ l ∈ X.
Proof. by rewrite set_iter_perm, elem_of_elements. Qed.

(** C2: on a variant table in the documented format, every label that
    ld_prune looks up in the table at the end (the set [keep]) is an index
    label of the table, the output has exactly one row per such label, each
    of them a row of the input, and so the output has at most as many rows
    as the input. *)
Theorem ld_prune_keys_subset df L out :
  wf_table df → ld_prune df L = Ok out →
  ∃ keep, prune_keep df L = Ok keep ∧
    (∀ l, l ∈ keep → l ∈ idx <$> df) ∧
    idx <$> out = set_iter keep ∧
    (∀ r, r ∈ out → r ∈ df ∧ idx r ∈ idx <$> df) ∧
    (length out ≤ length df)%nat.
Proof.
  intros Hwf (keep & Hkeep & ->)%ld_prune_unfold. exists keep.
  assert (∀ l, l ∈ keep → l ∈ idx <$> df) as Hsub.
  { intros l Hl. destruct (prune_keep_rows _ _ _ _ Hwf Hkeep Hl) as (r & Hr & <- & _).
    by apply list_elem_of_fmap_2. }
  assert (idx <$> ix_rows df (set_iter keep) = set_iter keep) as Hidx.
  { apply ix_rows_fmap_idx; [apply Hwf|]. intros l Hl. by apply Hsub, elem_of_set_iter. }
  split_and!; [done..| |].
  - intros r [Hr _]%elem_of_ix_rows. split; [done|by apply list_elem_of_fmap_2].
  - rewrite <- (length_fmap idx), Hidx, <- (length_fmap idx df).
    apply submseteq_length, NoDup_submseteq; [apply set_iter_NoDup|].
    intros l Hl. by apply Hsub, elem_of_set_iter.
Qed.

(** ** One representative per component *)

Lemma ld_ind_not_isolated t l : l ∈ ld_ind t → l ∉ ld_isolated t.
Proof.
  unfold ld_ind, ld_isolated. rewrite elem_of_set_iter, !elem_of_pyset.
  cbn [elems]. set_solver.
Qed.

Lemma NoDup_fst_inj {A B} (l : list (A * B)) x y :
  NoDup l.*1 → x ∈ l → y ∈ l → x.1 = y.1 → x = y.
Proof.
  induction l as [|a l IH]; intros Hn Hx Hy He; [by apply not_elem_of_nil in Hx|].
  rewrite fmap_cons in Hn. apply NoDup_cons in Hn as [Ha Hn].
  apply elem_of_cons in Hx as [->|Hx]; apply elem_of_cons in Hy as [->|Hy];
    [done| | |by apply IH].
  - destruct Ha. rewrite He. by apply list_elem_of_fmap_2.
  - destruct Ha. rewrite <- He. by apply list_elem_of_fmap_2.
Qed.

Lemma elem_of_component_rows tdf c m sg r :
  r ∈ component_rows tdf c m sg ↔
  r ∈ tdf ∧ ∃ i, i ∈ sg ∧ ld_ind (ld_table c m) !! i = Some (idx r).
Proof. unfold component_rows. by rewrite elem_of_ix_rows, elem_of_index_at. Qed.

(** A kept row that belongs to a component is the row the component loop
    chose for that very component. *)
Lemma kept_in_component df L keep cf m sg r :
  wf_table df → NoDup L.*1 → prune_keep df L = Ok keep → cf ∈ L →
  build_ld_d cf.2 cf.1 (on_chrom cf.1 df) = Ok m →
  sg ∈ connected_components (ld_graph cf.1 m) →
  r ∈ component_rows (on_chrom cf.1 df) cf.1 m sg → idx r ∈ keep →
  most_sig (component_rows (on_chrom cf.1 df) cf.1 m sg) = Ok (idx r).
Proof.
  intros Hwf HL Hkeep Hcf Hm Hsg Hr Hk.
  apply elem_of_component_rows in Hr as (Hr & i & Hi & Hind).
  apply (prune_keep_spec _ _ _ Hkeep) in Hk as (cf' & Hcf' & Hk).
  destruct (chrom_keeps_row _ _ _ Hwf Hk) as (r' & Hr' & He).
  apply elem_of_on_chrom in Hr as [Hr Hc]. apply elem_of_on_chrom in Hr' as [Hr' Hc'].
  assert (r' = r) as -> by (eapply NoDup_idx_inj; [apply Hwf|done..]).
  assert (cf' = cf) as -> by (eapply NoDup_fst_inj; [done..|congruence]).
  destruct Hk as (m' & Hm' & [Hiso|(sg' & Hsg' & Hrep)]).
  - rewrite Hm in Hm'. injection Hm' as <-.
    destruct (ld_ind_not_isolated (ld_table cf.1 m) (idx r)); [|done].
    by eapply list_elem_of_lookup_2.
  - rewrite Hm in Hm'. injection Hm' as <-.
    pose proof Hrep as Hrep'.
    apply most_sig_Ok in Hrep' as (s1 & r0 & s2 & Hs & He0 & _).
    assert (r0 ∈ component_rows (on_chrom cf.1 df) cf.1 m sg') as Hr0.
    { rewrite Hs. apply elem_of_app. right. by left. }
    apply elem_of_component_rows in Hr0 as (_ & j & Hj & Hjnd).
    rewrite <- He0 in Hjnd.
    assert (i = j) as <- by (eapply NoDup_lookup; [apply NoDup_ld_ind|done..]).
    by rewrite (cc_same _ _ _ _ Hsg Hsg' Hi Hj).
Qed.

(** The general half of C4: for every component the resolver yields, the
    rows of the component split around one row [r] that is kept, has the
    least p-value of the component, comes before every other row of that
    p-value in the order in which the component is enumerated, and is the
    only kept row of the component. *)
Lemma component_representative df L keep cf m sg :
  wf_table df → NoDup L.*1 → prune_keep df L = Ok keep → cf ∈ L →
  build_ld_d cf.2 cf.1 (on_chrom cf.1 df) = Ok m →
  sg ∈ connected_components (ld_graph cf.1 m) →
  ∃ s1 r s2,
    component_rows (on_chrom cf.1 df) cf.1 m sg = s1 ++ r :: s2 ∧
    idx r ∈ keep ∧
    (∀ r', r' ∈ s1 ++ r :: s2 → (pvalue r ≤ pvalue r')%Qc) ∧
    (∀ r', r' ∈ s1 → (pvalue r < pvalue r')%Qc) ∧
    (∀ r', r' ∈ s1 ++ r :: s2 → idx r' ∈ keep → r' = r).
Proof.
  intros Hwf HL Hkeep Hcf Hm Hsg.
  destruct (most_sig_total (component_rows (on_chrom cf.1 df) cf.1 m sg))
    as [k Hk]; [by eapply component_rows_nonempty|].
  pose proof Hk as Hk'.
  apply most_sig_Ok in Hk' as (s1 & r & s2 & Hs & -> & Hmin & Hfirst).
  exists s1, r, s2. rewrite <- Hs. split_and!; [done| |done..|].
  - apply (prune_keep_spec _ _ _ Hkeep). exists cf. split; [done|].
    exists m. split; [done|]. right. by exists sg.
  - intros r' Hr' Hk'.
    pose proof (kept_in_component _ _ _ _ _ _ _ Hwf HL Hkeep Hcf Hm Hsg Hr' Hk') as He.
    rewrite Hk in He. injection He as He.
    assert (r ∈ component_rows (on_chrom cf.1 df) cf.1 m sg) as Hr.
    { rewrite Hs. apply elem_of_app. right. by left. }
    apply elem_of_component_rows in Hr as [Hr _].
    apply elem_of_component_rows in Hr' as [Hr' _].
    symmetry. eapply NoDup_idx_inj; [apply (wf_on_chrom cf.1 df Hwf)|done..].
Qed.

(** ** Rows, vertices and links *)

Lemma row_in_ind f c df m r :
  wf_table df → build_ld_d f c (on_chrom c df) = Ok m → r ∈ on_chrom c df →
  idx r ∈ ld_ind (ld_table c m) ↔ end_ r ∈ ld_cols m.
Proof.
  intros Hwf Hm Hr. rewrite (wf_on_chrom_idx _ _ _ Hwf Hr), elem_of_ld_ind. split.
  - by intros (k & ->%(inj (label c)) & _ & Hk).
  - intros Hc. exists (end_ r). split_and!; [done| |done].
    apply (build_ld_d_key _ _ _ _ _ Hm). by apply list_elem_of_fmap_2.
Qed.

Lemma ld_d_lookup_total f c tdf m r :
  build_ld_d f c tdf = Ok m → r ∈ tdf →
  m !! end_ r = Some (m !!! end_ r) ∧ partners_at f c (end_ r) = Some (m !!! end_ r).
Proof.
  intros Hm Hr. destruct (build_ld_d_spec _ _ _ _ Hm) as [Hall Hlk].
  specialize (Hlk (end_ r)). rewrite decide_True in Hlk by by apply list_elem_of_fmap_2.
  destruct (Hall r Hr) as [l Hl]. rewrite Hl in Hlk.
  by rewrite lookup_total_alt, Hlk, Hl.
Qed.

(** Two rows one of which lists the other, both of them vertices, lie in
    the same component. *)
Lemma linked_rows_same_component f c df m sg r1 r2 :
  wf_table df → build_ld_d f c (on_chrom c df) = Ok m →
  r1 ∈ on_chrom c df → r2 ∈ on_chrom c df →
  end_ r1 ∈ ld_cols m → end_ r2 ∈ ld_cols m →
  end_ r2 ∈ m !!! end_ r1 ∨ end_ r1 ∈ m !!! end_ r2 →
  sg ∈ connected_components (ld_graph c m) →
  r1 ∈ component_rows (on_chrom c df) c m sg →
  r2 ∈ component_rows (on_chrom c df) c m sg.
Proof.
  intros Hwf Hm Hr1 Hr2 Hc1 Hc2 Hlink Hsg Hin.
  apply elem_of_component_rows in Hin as (_ & i1 & Hi1 & Hl1).
  apply (row_in_ind _ _ _ _ _ Hwf Hm Hr2) in Hc2.
  apply list_elem_of_lookup_1 in Hc2 as [i2 Hl2].
  apply elem_of_component_rows. split; [done|]. exists i2. split; [|done].
  apply (cc_connected _ _ i1 i2 Hsg Hi1). apply rtc_once. split_and!.
  - rewrite ld_graph_order. by eapply lookup_lt_Some.
  - rewrite ld_graph_order. by eapply lookup_lt_Some.
  - rewrite (wf_on_chrom_idx _ _ _ Hwf Hr1) in Hl1.
    rewrite (wf_on_chrom_idx _ _ _ Hwf Hr2) in Hl2.
    destruct Hlink; [left|right]; apply ld_graph_edge; eauto.
Qed.

(** Conversely an edge of the graph joins the vertices of two rows one of
    which lists the other. *)
Lemma linked_rows f c df m i j :
  wf_table df → build_ld_d f c (on_chrom c df) = Ok m →
  linked (ld_graph c m) i j →
  ∃ r1 r2, r1 ∈ on_chrom c df ∧ r2 ∈ on_chrom c df ∧
    ld_ind (ld_table c m) !! i = Some (idx r1) ∧
    ld_ind (ld_table c m) !! j = Some (idx r2) ∧
    end_ r1 ∈ ld_cols m ∧ end_ r2 ∈ ld_cols m ∧
    (end_ r2 ∈ m !!! end_ r1 ∨ end_ r1 ∈ m !!! end_ r2).
Proof.
  intros Hwf Hm (_ & _ & He).
  assert (∀ i l, ld_ind (ld_table c m) !! i = Some l →
            ∃ r, r ∈ on_chrom c df ∧ idx r = l ∧ end_ r ∈ ld_cols m) as Hrow.
  { intros i' l Hl. eapply ld_ind_row; [done..|]. by eapply list_elem_of_lookup_2. }
  assert (∀ r a, r ∈ on_chrom c df → idx r = label c a → end_ r = a) as Hpos.
  { intros r a Hr Hi. rewrite (wf_on_chrom_idx _ _ _ Hwf Hr) in Hi.
    by apply (inj (label c)) in Hi. }
  destruct He as [He|He]; apply ld_graph_edge in He as (a & b & Ha & Hb & Hab).
  - destruct (Hrow _ _ Ha) as (r1 & Hr1 & Hi1 & Hc1).
    destruct (Hrow _ _ Hb) as (r2 & Hr2 & Hi2 & Hc2).
    exists r1, r2. rewrite Hi1, Hi2, (Hpos _ _ Hr1 Hi1), (Hpos _ _ Hr2 Hi2) in *.
    split_and!; auto.
  - destruct (Hrow _ _ Ha) as (r1 & Hr1 & Hi1 & Hc1).
    destruct (Hrow _ _ Hb) as (r2 & Hr2 & Hi2 & Hc2).
    exists r2, r1. rewrite Hi1, Hi2, (Hpos _ _ Hr1 Hi1), (Hpos _ _ Hr2 Hi2) in *.
    split_and!; auto.
Qed.

(** Two connected vertices are joined by a chain of such rows. *)
Lemma connected_rows f c df m i j :
  wf_table df → build_ld_d f c (on_chrom c df) = Ok m →
  connected (ld_graph c m) i j →
  ∀ r1 r2, r1 ∈ on_chrom c df → r2 ∈ on_chrom c df →
    ld_ind (ld_table c m) !! i = Some (idx r1) →
    ld_ind (ld_table c m) !! j = Some (idx r2) →
    rtc (listed_link (on_chrom c df) m) r1 r2.
Proof.
  intros Hwf Hm Hc.
  induction Hc as [i|i k j Hik Hkj IH]; intros r1 r2 Hr1 Hr2 Hi Hj.
  - rewrite Hi in Hj. injection Hj as He.
    assert (r1 = r2) as ->
      by (eapply NoDup_idx_inj; [apply (wf_on_chrom c df Hwf)|done..]).
    apply rtc_refl.
  - destruct (linked_rows _ _ _ _ _ _ Hwf Hm Hik)
      as (ra & rb & Hra & Hrb & Hia & Hkb & Hca & Hcb & Hl).
    rewrite Hi in Hia. injection Hia as He.
    assert (r1 = ra) as <-
      by (eapply NoDup_idx_inj; [apply (wf_on_chrom c df Hwf)|done..]).
    apply rtc_l with rb; [by split_and!|]. by apply IH.
Qed.

(** The rows of a component are the rows that such chains reach from any
    one of them. *)
Lemma same_component_iff f c df m sg r1 r2 :
  wf_table df → build_ld_d f c (on_chrom c df) = Ok m →
  sg ∈ connected_components (ld_graph c m) →
  r1 ∈ component_rows (on_chrom c df) c m sg →
  r2 ∈ component_rows (on_chrom c df) c m sg ↔
  rtc (listed_link (on_chrom c df) m) r1 r2.
Proof.
  intros Hwf Hm Hsg Hr1. split.
  - intros Hr2.
    apply elem_of_component_rows in Hr1 as (Hr1 & i & Hi & Hli).
    apply elem_of_component_rows in Hr2 as (Hr2 & j & Hj & Hlj).
    eapply connected_rows; [done..| |done|done|done|done].
    by apply (cc_connected _ _ i j Hsg Hi).
  - intros Hc.
    induction Hc as [r|r1 r' r2 (Hr1' & Hr' & Hc1 & Hc' & Hl) _ IH]; [done|].
    apply IH. by eapply (linked_rows_same_component _ _ _ _ _ r1 r').
Qed.

(** ** Pruning a pruned table *)

Lemma NoDup_all_eq {A} (l : list A) a :
  NoDup l → l ≠ [] → (∀ x, x ∈ l → x = a) → l = [a].
Proof.
  destruct l as [|x [|y l]]; intros Hn Hne Hall; [done| |].
  - f_equal. apply Hall. by left.
  - apply NoDup_cons in Hn as [Hx _]. destruct Hx.
    rewrite (Hall x), (Hall y); [by left|by right; left|by left].
Qed.

Lemma cc_component_NoDup g sg : sg ∈ connected_components g → NoDup sg.
Proof.
  intros Hsg. pose proof (cc_NoDup g) as Hn.
  induction (connected_components g) as [|c cs IH]; [by apply not_elem_of_nil in Hsg|].
  simpl in Hn. apply NoDup_app in Hn as (Hc & _ & Hcs).
  apply elem_of_cons in Hsg as [->|Hsg]; auto.
Qed.

Section Idempotence.
Variables (df : DataFrame) (L : ld_sources) (keep : pyset).
Hypothesis Hwf : wf_table df.
Hypothesis HL : NoDup L.*1.
Hypothesis Hkeep : prune_keep df L = Ok keep.

Let out : DataFrame := ix_rows df (set_iter keep).

Lemma pruned_rows r : r ∈ out ↔ r ∈ df ∧ idx r ∈ keep.
Proof. unfold out. by rewrite elem_of_ix_rows, elem_of_set_iter. Qed.

Lemma pruned_idx : idx <$> out = set_iter keep.
Proof.
  apply ix_rows_fmap_idx; [apply Hwf|]. intros l Hl%elem_of_set_iter.
  destruct (prune_keep_rows _ _ _ _ Hwf Hkeep Hl) as (r & Hr & <- & _).
  by apply list_elem_of_fmap_2.
Qed.

Lemma pruned_wf : wf_table out.
Proof.
  split; [rewrite pruned_idx; apply set_iter_NoDup|].
  intros r [Hr _]%pruned_rows. by apply Hwf.
Qed.

Lemma pruned_on_chrom c r :
  r ∈ on_chrom c out ↔ r ∈ on_chrom c df ∧ idx r ∈ keep.
Proof. rewrite !elem_of_on_chrom, pruned_rows. tauto. Qed.

Section Chrom.
Variables (cf : string * ld_file) (m m' : gmap Z (list Z)).
Hypothesis Hcf : cf ∈ L.
Hypothesis Hm : build_ld_d cf.2 cf.1 (on_chrom cf.1 df) = Ok m.
Hypothesis Hm' : build_ld_d cf.2 cf.1 (on_chrom cf.1 out) = Ok m'.

Lemma pruned_ld_d_sub p l : m' !! p = Some l → m !! p = Some l.
Proof.
  destruct (build_ld_d_spec _ _ _ _ Hm) as [_ Hlk].
  destruct (build_ld_d_spec _ _ _ _ Hm') as [_ Hlk'].
  rewrite Hlk, Hlk'. destruct (decide (p ∈ end_ <$> on_chrom cf.1 out)) as [Hp|]; [|done].
  rewrite decide_True; [done|].
  apply list_elem_of_fmap in Hp as (r & -> & [Hr _]%pruned_on_chrom).
  by apply list_elem_of_fmap_2.
Qed.

Lemma pruned_ld_cols x : x ∈ ld_cols m' → x ∈ ld_cols m.
Proof.
  rewrite !elem_of_ld_cols. intros (k & l & Hk & Hx).
  exists k, l. split; [by apply pruned_ld_d_sub|done].
Qed.

Lemma pruned_lookup_total r :
  r ∈ on_chrom cf.1 out → m' !!! end_ r = m !!! end_ r.
Proof.
  intros Hr. destruct (ld_d_lookup_total _ _ _ _ _ Hm' Hr) as [Hl _].
  apply pruned_ld_d_sub in Hl. by rewrite (lookup_total_alt m), Hl.
Qed.

(** After pruning no edge is left between two different vertices. *)
Lemma pruned_no_link i j : linked (ld_graph cf.1 m') i j → i = j.
Proof.
  intros Hl.
  destruct (linked_rows _ _ _ _ _ _ pruned_wf Hm' Hl)
    as (r1 & r2 & Hr1 & Hr2 & Hi & Hj & Hc1 & Hc2 & Hlink).
  rewrite (pruned_lookup_total _ Hr1), (pruned_lookup_total _ Hr2) in Hlink.
  apply pruned_ld_cols in Hc1, Hc2.
  apply pruned_on_chrom in Hr1 as [Hr1 Hk1], Hr2 as [Hr2 Hk2].
  assert (idx r1 ∈ ld_ind (ld_table cf.1 m)) as Hv by by eapply row_in_ind.
  apply list_elem_of_lookup_1 in Hv as [v Hv].
  destruct (cc_cover (ld_graph cf.1 m) v) as (sg & Hsg & Hvs).
  { rewrite ld_graph_order. by eapply lookup_lt_Some. }
  assert (r1 ∈ component_rows (on_chrom cf.1 df) cf.1 m sg) as Hin1.
  { apply elem_of_component_rows. split; [done|]. by exists v. }
  assert (r2 ∈ component_rows (on_chrom cf.1 df) cf.1 m sg) as Hin2
    by by eapply (linked_rows_same_component _ _ _ _ _ r1 r2).
  pose proof (kept_in_component _ _ _ _ _ _ _ Hwf HL Hkeep Hcf Hm Hsg Hin1 Hk1) as H1'.
  pose proof (kept_in_component _ _ _ _ _ _ _ Hwf HL Hkeep Hcf Hm Hsg Hin2 Hk2) as H2'.
  rewrite H1' in H2'. injection H2' as He. rewrite He in Hi.
  eapply NoDup_lookup; [apply NoDup_ld_ind|done..].
Qed.

Lemma pruned_connected i j : connected (ld_graph cf.1 m') i j → i = j.
Proof.
  induction 1 as [|i k j Hik _ IH]; [done|].
  by rewrite (pruned_no_link _ _ Hik).
Qed.

(** Every row that survived is kept again. *)
Lemma pruned_row_kept r :
  r ∈ on_chrom cf.1 out → chrom_keeps out cf (idx r).
Proof.
  intros Hr. exists m'. split; [done|].
  destruct (decide (end_ r ∈ ld_cols m')) as [Hc|Hc].
  - right.
    assert (idx r ∈ ld_ind (ld_table cf.1 m')) as Hv
      by by eapply (row_in_ind _ _ out); [apply pruned_wf|..].
    apply list_elem_of_lookup_1 in Hv as [v Hv].
    destruct (cc_cover (ld_graph cf.1 m') v) as (sg & Hsg & Hvs).
    { rewrite ld_graph_order. by eapply lookup_lt_Some. }
    exists sg. split; [done|].
    assert (sg = [v]) as ->.
    { apply NoDup_all_eq; [by eapply cc_component_NoDup|by eapply cc_nonempty|].
      intros x Hx. symmetry. apply pruned_connected.
      by apply (cc_connected _ _ v x Hsg Hvs). }
    unfold component_rows, index_at. simpl. rewrite Hv. simpl.
    unfold ix_rows. simpl. rewrite app_nil_r.
    rewrite filter_idx_single; [apply most_sig_singleton| |done].
    apply (wf_on_chrom _ _ pruned_wf).
  - left. apply elem_of_ld_isolated. exists (end_ r). split_and!; [|  |done].
    + by eapply wf_on_chrom_idx; [apply pruned_wf|].
    + apply (build_ld_d_key _ _ _ _ _ Hm'). by apply list_elem_of_fmap_2.
Qed.

End Chrom.

Lemma pruned_queries cf r :
  cf ∈ L → r ∈ on_chrom cf.1 out → is_Some (partners_at cf.2 cf.1 (end_ r)).
Proof.
  intros Hcf [Hr _]%pruned_on_chrom.
  destruct (prune_keep_ld_d _ _ _ _ Hkeep Hcf) as [m Hm].
  by apply (build_ld_d_spec _ _ _ _ Hm).
Qed.

(** Pruning the pruned table fills [keep] with the same labels, in general
    through other insertions. *)
Lemma pruned_keep :
  ∃ keep2, prune_keep out L = Ok keep2 ∧ ∀ l, l ∈ keep2 ↔ l ∈ keep.
Proof.
  destruct (prune_keep_wf_total out L pruned_wf) as [keep2 Hkeep2].
  { intros cf. by apply (prune_keep_opened _ _ _ _ Hkeep). }
  { intros cf r. apply pruned_queries. }
  exists keep2. split; [done|]. intros l.
  rewrite (prune_keep_spec _ _ _ Hkeep2). split.
  - intros (cf & Hcf & Hl).
    destruct (chrom_keeps_row _ _ _ pruned_wf Hl) as (r & Hr & <-).
    by apply pruned_on_chrom in Hr as [_ ?].
  - intros Hl.
    destruct (prune_keep_rows _ _ _ _ Hwf Hkeep Hl) as (r & Hr & <- & Hc).
    apply list_elem_of_fmap in Hc as (cf & Hc & Hcf).
    destruct (prune_keep_ld_d _ _ _ _ Hkeep Hcf) as [m Hm].
    destruct (prune_keep_ld_d _ _ _ _ Hkeep2 Hcf) as [m' Hm'].
    exists cf. split; [done|]. eapply pruned_row_kept; [done..|].
    apply pruned_on_chrom. split; [|done]. by apply elem_of_on_chrom.
Qed.

(** Pruning the pruned table returns its rows again, in the order in
    which the second [keep] is iterated. *)
Lemma pruned_again : ∃ out', ld_prune out L = Ok out' ∧ out' ≡ₚ out.
Proof.
  destruct pruned_keep as (keep2 & Hkeep2 & Hsame).
  exists (ix_rows out (set_iter keep2)). split.
  { apply ld_prune_unfold. by exists keep2. }
  assert (set_iter keep2 ≡ₚ idx <$> out) as Hp.
  { rewrite pruned_idx.
    apply NoDup_Permutation; [apply set_iter_NoDup..|].
    intros l. by rewrite !elem_of_set_iter. }
  unfold ix_rows at 1. rewrite Hp.
  change (ix_rows out (idx <$> out) ≡ₚ out).
  by rewrite ix_rows_idx; [|apply pruned_wf|].
Qed.

End Idempotence.


(** ** Isolated variants and graph vertices *)

Lemma isolated_iff_unlisted f c df m r :
  wf_table df → build_ld_d f c (on_chrom c df) = Ok m → r ∈ on_chrom c df →
  idx r ∈ ld_isolated (ld_table c m) ↔
  ∀ r', r' ∈ on_chrom c df → end_ r ∉ m !!! end_ r'.
Proof.
  intros Hwf Hm Hr.
  rewrite (wf_on_chrom_idx _ _ _ Hwf Hr), elem_of_ld_isolated. split.
  - intros (k & ->%(inj (label c)) & _ & Hk) r' Hr' Hin. apply Hk.
    apply elem_of_ld_cols. exists (end_ r'), (m !!! end_ r'). split; [|done].
    by destruct (ld_d_lookup_total _ _ _ _ _ Hm Hr') as [? _].
  - intros Hun. exists (end_ r). split_and!; [done| |].
    + apply (build_ld_d_key _ _ _ _ _ Hm). by apply list_elem_of_fmap_2.
    + intros (k & l & Hk & Hin)%elem_of_ld_cols.
      destruct (ld_d_key_row _ _ _ _ _ Hm (mk_is_Some _ _ Hk)) as (r' & Hr' & <-).
      apply (Hun r' Hr'). by rewrite lookup_total_alt, Hk.
Qed.

(** A variant on a chromosome of the dict is a vertex of the component
    graph exactly when it is not kept as isolated. *)
Lemma listed_is_vertex df cf m r :
  wf_table df → build_ld_d cf.2 cf.1 (on_chrom cf.1 df) = Ok m →
  r ∈ on_chrom cf.1 df → idx r ∉ ld_isolated (ld_table cf.1 m) →
  idx r ∈ ld_ind (ld_table cf.1 m).
Proof.
  intros Hwf Hm Hr Hiso.
  destruct (decide (end_ r ∈ ld_cols m)) as [Hc|Hc]; [by eapply row_in_ind|].
  destruct Hiso. apply elem_of_ld_isolated. exists (end_ r). split_and!; [| |done].
  - by eapply wf_on_chrom_idx.
  - apply (build_ld_d_key _ _ _ _ _ Hm). by apply list_elem_of_fmap_2.
Qed.

(** A kept label of chromosome [cf.1] is the label of a row of the output. *)
Lemma chrom_keeps_out df L keep cf l :
  wf_table df → prune_keep df L = Ok keep → cf ∈ L → chrom_keeps df cf l →
  ∃ r, r ∈ ix_rows df (set_iter keep) ∧ r ∈ on_chrom cf.1 df ∧ idx r = l.
Proof.
  intros Hwf Hkeep Hcf Hl.
  destruct (chrom_keeps_row _ _ _ Hwf Hl) as (r & Hr & <-).
  exists r. split_and!; [|done..]. apply pruned_rows. split.
  - by apply elem_of_on_chrom in Hr as [? _].
  - apply (prune_keep_spec _ _ _ Hkeep). by exists cf.
Qed.

(** A vertex of the component graph gives way to any variant of its
    component that is more significant. *)
Lemma vertex_dominated df L keep cf m sg r r' :
  wf_table df → NoDup L.*1 → prune_keep df L = Ok keep → cf ∈ L →
  build_ld_d cf.2 cf.1 (on_chrom cf.1 df) = Ok m →
  sg ∈ connected_components (ld_graph cf.1 m) →
  r ∈ component_rows (on_chrom cf.1 df) cf.1 m sg →
  r' ∈ component_rows (on_chrom cf.1 df) cf.1 m sg →
  (pvalue r' < pvalue r)%Qc → idx r ∉ keep.
Proof.
  intros Hwf HL Hkeep Hcf Hm Hsg Hr Hr' Hlt Hk.
  pose proof (kept_in_component _ _ _ _ _ _ _ Hwf HL Hkeep Hcf Hm Hsg Hr Hk) as Hrep.
  apply most_sig_Ok in Hrep as (s1 & r0 & s2 & Hs & He & Hmin & _).
  assert (r0 = r) as ->.
  { assert (r0 ∈ component_rows (on_chrom cf.1 df) cf.1 m sg) as Hr0.
    { rewrite Hs. apply elem_of_app. right. by left. }
    apply elem_of_component_rows in Hr0 as [Hr0 _].
    apply elem_of_component_rows in Hr as [Hr _].
    eapply NoDup_idx_inj; [apply (wf_on_chrom cf.1 df Hwf)|done..]. }
  by apply (Qclt_not_le _ _ Hlt), Hmin.
Qed.

(** C10, as the code has it: an input variant is kept by the statement
    that keeps the isolated variants, without being a vertex of the
    component graph, exactly when its position is in no partner list
    recorded for an input variant of its chromosome (its own list
    included); such a variant is a row of the output whatever its own list
    names. A variant that some input variant lists is a vertex: it goes
    through the component resolution, and is not in the output when its
    component holds a more significant variant, also when every partner
    that its own list names lies outside the input. *)
Theorem isolated_kept_automatically df L out cf m r :
  wf_table df → NoDup L.*1 → ld_prune df L = Ok out → cf ∈ L →
  build_ld_d cf.2 cf.1 (on_chrom cf.1 df) = Ok m → r ∈ on_chrom cf.1 df →
  (idx r ∈ ld_isolated (ld_table cf.1 m) ↔
     ∀ r', r' ∈ on_chrom cf.1 df → end_ r ∉ m !!! end_ r') ∧
  (idx r ∈ ld_isolated (ld_table cf.1 m) →
     (idx r ∉ ld_ind (ld_table cf.1 m)) ∧ r ∈ out) ∧
  (idx r ∉ ld_isolated (ld_table cf.1 m) →
     idx r ∈ ld_ind (ld_table cf.1 m) ∧
     ∃ sg, sg ∈ connected_components (ld_graph cf.1 m) ∧
       r ∈ component_rows (on_chrom cf.1 df) cf.1 m sg ∧
       ∀ r', r' ∈ component_rows (on_chrom cf.1 df) cf.1 m sg →
             (pvalue r' < pvalue r)%Qc → r ∉ out).
Proof.
  intros Hwf HL (keep & Hkeep & ->)%ld_prune_unfold Hcf Hm Hr.
  split_and!.
  - by eapply isolated_iff_unlisted.
  - intros Hi. split; [intros Hv; by apply ld_ind_not_isolated in Hv|].
    apply pruned_rows. split; [by apply elem_of_on_chrom in Hr as [? _]|].
    apply (prune_keep_spec _ _ _ Hkeep). exists cf. split; [done|].
    exists m. auto.
  - intros Hiso.
    pose proof (listed_is_vertex _ _ _ _ Hwf Hm Hr Hiso) as Hv.
    split; [done|].
    apply list_elem_of_lookup_1 in Hv as [v Hv].
    destruct (cc_cover (ld_graph cf.1 m) v) as (sg & Hsg & Hvs).
    { rewrite ld_graph_order. by eapply lookup_lt_Some. }
    assert (r ∈ component_rows (on_chrom cf.1 df) cf.1 m sg) as Hin.
    { apply elem_of_component_rows. split; [done|]. by exists v. }
    exists sg. split_and!; [done..|].
    intros r' Hr' Hlt [_ Hk]%pruned_rows.
    by eapply (vertex_dominated df L keep cf m sg r r').
Qed.

(** C5, as the code has it: the vertices of the component graph are the
    labels of the input variants that occur in a recorded partner list; a
    partner position that is not an input variant is not a vertex and
    labels no row of the output; there is an edge from one vertex to
    another exactly when the list recorded for the first names the
    position of the second; what a component yields as its representative
    is the label of an input variant, never that of a partner-only
    position, and labels a row of the output; and an input variant that
    occurs in no recorded partner list is not a vertex and is a row of the
    output. *)
Theorem graph_vertices_are_listed_inputs df L out cf m :
  wf_table df → ld_prune df L = Ok out → cf ∈ L →
  build_ld_d cf.2 cf.1 (on_chrom cf.1 df) = Ok m →
  (∀ l, l ∈ ld_ind (ld_table cf.1 m) ↔
        ∃ r, r ∈ on_chrom cf.1 df ∧ idx r = l ∧ end_ r ∈ ld_cols m) ∧
  (∀ x, x ∈ ld_cols m → x ∉ end_ <$> on_chrom cf.1 df →
        (label cf.1 x ∉ ld_ind (ld_table cf.1 m)) ∧
        (label cf.1 x ∉ idx <$> on_chrom cf.1 df) ∧
        (label cf.1 x ∉ idx <$> out)) ∧
  (∀ i j, edge (ld_graph cf.1 m) i j = true ↔
        ∃ r1 r2, r1 ∈ on_chrom cf.1 df ∧ r2 ∈ on_chrom cf.1 df ∧
          ld_ind (ld_table cf.1 m) !! i = Some (idx r1) ∧
          ld_ind (ld_table cf.1 m) !! j = Some (idx r2) ∧
          end_ r2 ∈ m !!! end_ r1) ∧
  (∀ sg l, sg ∈ connected_components (ld_graph cf.1 m) →
        most_sig (component_rows (on_chrom cf.1 df) cf.1 m sg) = Ok l →
        l ∈ idx <$> on_chrom cf.1 df ∧ l ∈ idx <$> out) ∧
  (∀ r, r ∈ on_chrom cf.1 df → end_ r ∉ ld_cols m →
        (idx r ∉ ld_ind (ld_table cf.1 m)) ∧ r ∈ out).
Proof.
  intros Hwf (keep & Hkeep & ->)%ld_prune_unfold Hcf Hm.
  assert (∀ x, x ∉ end_ <$> on_chrom cf.1 df →
               label cf.1 x ∉ idx <$> on_chrom cf.1 df) as Hno.
  { intros x Hx (r & He & Hr)%list_elem_of_fmap. apply Hx.
    rewrite (wf_on_chrom_idx _ _ _ Hwf Hr) in He.
    apply (inj (label cf.1)) in He as ->. by apply list_elem_of_fmap_2. }
  split_and!.
  - intros l. split; [by eapply ld_ind_row|].
    intros (r & Hr & <- & Hc). by eapply row_in_ind.
  - intros x Hc Hx. split_and!; [|by apply Hno|].
    + intros (r & Hr & He & _)%(ld_ind_row _ _ _ _ _ Hwf Hm).
      apply (Hno x Hx). rewrite <- He. by apply list_elem_of_fmap_2.
    + intros (r & He & [Hr _]%pruned_rows)%list_elem_of_fmap.
      rewrite (proj2 Hwf r Hr) in He. apply label_pair_inj in He as [Hc' ->].
      apply Hx, list_elem_of_fmap_2. by apply elem_of_on_chrom.
  - intros i j. rewrite ld_graph_edge. split.
    + intros (a & b & Hi & Hj & Hab).
      destruct (ld_ind_row _ _ _ _ _ Hwf Hm (list_elem_of_lookup_2 _ _ _ Hi))
        as (r1 & Hr1 & He1 & _).
      destruct (ld_ind_row _ _ _ _ _ Hwf Hm (list_elem_of_lookup_2 _ _ _ Hj))
        as (r2 & Hr2 & He2 & _).
      exists r1, r2. rewrite He1, He2. split_and!; [done..|].
      rewrite (wf_on_chrom_idx _ _ _ Hwf Hr1) in He1.
      rewrite (wf_on_chrom_idx _ _ _ Hwf Hr2) in He2.
      apply (inj (label cf.1)) in He1 as ->. by apply (inj (label cf.1)) in He2 as ->.
    + intros (r1 & r2 & Hr1 & Hr2 & Hi & Hj & Hl).
      exists (end_ r1), (end_ r2).
      by rewrite <- (wf_on_chrom_idx _ _ _ Hwf Hr1), <- (wf_on_chrom_idx _ _ _ Hwf Hr2).
  - intros sg l Hsg Hl.
    destruct (chrom_keeps_out df L keep cf l Hwf Hkeep Hcf) as (r & Ho & Hr & <-).
    { exists m. split; [done|]. right. by exists sg. }
    split; by apply list_elem_of_fmap_2.
  - intros r Hr Hc.
    assert (idx r ∈ ld_isolated (ld_table cf.1 m)) as Hi.
    { apply elem_of_ld_isolated. exists (end_ r). split_and!; [| |done].
      - by eapply wf_on_chrom_idx.
      - apply (build_ld_d_key _ _ _ _ _ Hm). by apply list_elem_of_fmap_2. }
    split; [intros Hv; by apply ld_ind_not_isolated in Hv|].
    apply pruned_rows. split; [by apply elem_of_on_chrom in Hr as [? _]|].
    apply (prune_keep_spec _ _ _ Hkeep). exists cf. split; [done|].
    exists m. auto.
Qed.

(** ** Chromosomes without an LD source *)

Lemma for_each_ext {A S} (body body' : S → A → result S) xs acc :
  (∀ a x, x ∈ xs → body a x = body' a x) →
  for_each body acc xs = for_each body' acc xs.
Proof.
  revert acc. induction xs as [|x xs IH]; intros acc Hext; simpl; [done|].
  rewrite Hext by by left. destruct (body' acc x) as [acc'|e]; simpl; [|done].
  apply IH. intros a y Hy. apply Hext. by right.
Qed.

Lemma on_chrom_on_sources (L : ld_sources) c df :
  c ∈ L.*1 → on_chrom c (on_sources L df) = on_chrom c df.
Proof.
  intros Hc. unfold on_chrom, on_sources. rewrite list_filter_filter.
  apply list_filter_iff. intros r. split; [tauto|]. intros <-. done.
Qed.

Lemma prune_keep_on_sources df L :
  prune_keep (on_sources L df) L = prune_keep df L.
Proof.
  unfold prune_keep. apply for_each_ext. intros keep cf Hcf.
  unfold prune_chrom. rewrite on_chrom_on_sources; [done|].
  by apply list_elem_of_fmap_2.
Qed.

Lemma expand_on_sources df L :
  ld_expand (on_sources L df) L = ld_expand df L.
Proof.
  unfold ld_expand, expand_snps. f_equal. apply for_each_ext. intros out cf Hcf.
  unfold expand_chrom. rewrite on_chrom_on_sources; [done|].
  by apply list_elem_of_fmap_2.
Qed.

Lemma prune_on_sources df L :
  wf_table df → ld_prune (on_sources L df) L = ld_prune df L.
Proof.
  intros Hwf. unfold ld_prune. rewrite prune_keep_on_sources.
  destruct (prune_keep df L) as [keep|e] eqn:Hkeep; simpl; [|done].
  f_equal. unfold ix_rows.
  assert (∀ l, l ∈ set_iter keep →
    filter (λ r, idx r = l) (on_sources L df) = filter (λ r, idx r = l) df) as Hl.
  { intros l Hl%elem_of_set_iter.
    destruct (prune_keep_rows _ _ _ _ Hwf Hkeep Hl) as (r & Hr & <- & Hc).
    rewrite !filter_idx_single; [done|apply Hwf|done| |].
    - by apply wf_table_filter.
    - by apply list_elem_of_filter. }
  induction (set_iter keep) as [|l ls IH]; [done|].
  rewrite !bind_cons, Hl by by left. f_equal. apply IH.
  intros l' Hl'. apply Hl. by right.
Qed.

(** C1, as the code has it: only the chromosomes that are keys of the
    LD-source dict are visited. A variant on any other chromosome is never
    in the output of ld_prune, and both functions return exactly what they
    return on the table without those variants: such a variant is dropped by
    ld_prune, gets no interval from ld_expand, and causes no error. *)
Theorem absent_chromosomes_skipped df L :
  wf_table df →
  (∀ out r, ld_prune df L = Ok out → r ∈ out → chrom r ∈ L.*1) ∧
  ld_prune df L = ld_prune (on_sources L df) L ∧
  ld_expand df L = ld_expand (on_sources L df) L.
Proof.
  intros Hwf. split_and!.
  - intros out r (keep & Hkeep & ->)%ld_prune_unfold [Hr Hl]%elem_of_ix_rows.
    apply elem_of_set_iter in Hl.
    destruct (prune_keep_rows _ _ _ _ Hwf Hkeep Hl) as (r' & Hr' & He & Hc).
    by rewrite (NoDup_idx_inj df r r' (proj1 Hwf) Hr Hr' (eq_sym He)).
  - by rewrite prune_on_sources.
  - by rewrite expand_on_sources.
Qed.

(** ** Records: what is parsed, what raises *)

Lemma raises_bind {A B} (m : result A) (k : A → result B) :
  raises m → raises (m ≫= k).
Proof. intros [e ->]. by exists e. Qed.

Lemma not_raises_Ok {A} (a : A) : ¬ raises (Ok a).
Proof. by intros [e ?]. Qed.

(** A record qualifies exactly when its last field splits into three,
    the third parses as a float of at least 0.8 and the second as an
    integer; the first is not looked at. *)
Lemma ld_partner_Some n x :
  ld_partner n = Ok (Some x) ↔
  ∃ f p1 p2 r2 q, last n = Some f ∧ split ":" f = [p1; p2; r2] ∧
    py_float r2 = Some q ∧ (tau ≤ q)%Qc ∧ py_int p2 = Some x.
Proof.
  unfold ld_partner, last_field, unpack3, float, int. split.
  - destruct (last n) as [f|] eqn:Hf; simpl; [|done].
    destruct (split ":" f) as [|p1 [|p2 [|r2 [|? ?]]]] eqn:Hs; simpl; try done.
    destruct (py_float r2) as [q|] eqn:Hq; simpl; [|done].
    case_bool_decide; [|done].
    destruct (py_int p2) as [z|] eqn:Hz; simpl; [|done].
    intros [= <-]. by exists f, p1, p2, r2, q.
  - intros (f & p1 & p2 & r2 & q & Hf & Hs & Hq & Hle & Hz).
    rewrite Hf. simpl. rewrite Hs. simpl.
    rewrite Hq. simpl. rewrite bool_decide_eq_true_2 by done. by rewrite Hz.
Qed.

Lemma ld_partner_raises n :
  raises (ld_partner n) ↔
  last n = None ∨
  ∃ f, last n = Some f ∧
    (length (split ":" f) ≠ 3%nat ∨
     ∃ p1 p2 r2, split ":" f = [p1; p2; r2] ∧
       (py_float r2 = None ∨
        ∃ q, py_float r2 = Some q ∧ (tau ≤ q)%Qc ∧ py_int p2 = None)).
Proof.
  unfold ld_partner, last_field, unpack3, float, int.
  destruct (last n) as [f|]; simpl; [|split; [by left|by exists IndexError]].
  split.
  - intros Hr. right. exists f. split; [done|]. revert Hr.
    destruct (split ":" f) as [|p1 [|p2 [|r2 [|? ?]]]] eqn:Hs; simpl; try (by left).
    intros Hr. right. exists p1, p2, r2. split; [done|]. revert Hr.
    destruct (py_float r2) as [q|] eqn:Hq; simpl; [|by left].
    case_bool_decide; [|by intros ?%not_raises_Ok].
    destruct (py_int p2) as [z|] eqn:Hz; simpl; [by intros ?%not_raises_Ok|].
    intros _. right. by exists q.
  - intros [|(f' & [= <-] & [Hlen|(p1 & p2 & r2 & Hs & Hbad)])]; [done| |].
    + destruct (split ":" f) as [|? [|? [|? [|? ?]]]]; simpl in *;
        try done; by exists ValueError.
    + rewrite Hs. simpl. destruct Hbad as [->|(q & -> & Hle & ->)]; simpl.
      * by exists ValueError.
      * rewrite bool_decide_eq_true_2 by done. by exists ValueError.
Qed.

(** A record below the threshold is skipped without its positions being
    converted. *)
Lemma ld_partner_below n f p1 p2 r2 q :
  last n = Some f → split ":" f = [p1; p2; r2] → py_float r2 = Some q →
  ¬ (tau ≤ q)%Qc → ld_partner n = Ok None.
Proof.
  intros Hl Hs Hq Hlt. unfold ld_partner, last_field, float. rewrite Hl. simpl.
  rewrite Hs. simpl. rewrite Hq. simpl. by rewrite bool_decide_eq_false_2.
Qed.

Lemma partners_from recs acc l :
  for_each (λ acc n, o ← ld_partner n;
              Ok (match o with Some p2 => acc ++ [p2] | None => acc end)) acc recs
  = Ok l →
  ∀ x, x ∈ l ↔ x ∈ acc ∨ ∃ n, n ∈ recs ∧ ld_partner n = Ok (Some x).
Proof.
  revert acc. induction recs as [|n recs IH]; intros acc Hrun x; simpl in Hrun.
  - injection Hrun as <-. split; [by left|].
    intros [?|(n & ?%not_elem_of_nil & _)]; done.
  - destruct (ld_partner n) as [o|e] eqn:Hn; simpl in Hrun; [|done].
    rewrite (IH _ Hrun). destruct o as [p2|].
    + rewrite elem_of_app, list_elem_of_singleton. split.
      * intros [[Hx| ->]|(n' & Hn' & Hx)]; [by left| |].
        -- right. exists n. split; [by left|done].
        -- right. exists n'. split; [by right|done].
      * intros [Hx|(n' & [->|Hn']%elem_of_cons & Hx)]; [by left; left| |].
        -- left. right. congruence.
        -- right. by exists n'.
    + split.
      * intros [Hx|(n' & Hn' & Hx)]; [by left|].
        right. exists n'. split; [by right|done].
      * intros [Hx|(n' & [->|Hn']%elem_of_cons & Hx)]; [by left|congruence|].
        right. by exists n'.
Qed.

Lemma partners_spec recs l x :
  partners recs = Ok l →
  x ∈ l ↔ ∃ n, n ∈ recs ∧ ld_partner n = Ok (Some x).
Proof.
  intros Hrun. rewrite (partners_from _ _ _ Hrun). split; [|by right].
  by intros [?%not_elem_of_nil|].
Qed.

Lemma partners_raises recs n :
  n ∈ recs → raises (ld_partner n) → raises (partners recs).
Proof.
  intros Hn Hr. unfold partners. eapply for_each_raises; [done|].
  intros acc. by apply raises_bind.
Qed.

(** C6, as the code has it: no record is filtered on the position it
    names. The partner list that ld_prune records for a queried position
    holds exactly the positions named by the qualifying records of that
    query, the queried position itself included when a record names it; and
    ld_expand emits an interval for every qualifying record likewise. *)
Theorem partner_lists_unfiltered f c df m r recs :
  build_ld_d f c (on_chrom c df) = Ok m → r ∈ on_chrom c df →
  f c (end_ r - 1) (end_ r) = Some recs →
  (∀ x, x ∈ m !!! end_ r ↔ ∃ n, n ∈ recs ∧ ld_partner n = Ok (Some x)) ∧
  (end_ r ∈ m !!! end_ r ↔ ∃ n, n ∈ recs ∧ ld_partner n = Ok (Some (end_ r))) ∧
  (∀ out_snps n c0, n ∈ recs → ld_partner n = Ok (Some (end_ r)) →
     first_field n = Ok c0 →
     expand_record out_snps n =
       Ok (out_snps ++ [Interval c0 (end_ r - 1) (end_ r) (label c0 (end_ r))])).
Proof.
  intros Hm Hr Hq.
  assert (∀ x, x ∈ m !!! end_ r ↔ ∃ n, n ∈ recs ∧ ld_partner n = Ok (Some x)) as Hl.
  { intros x. destruct (ld_d_lookup_total _ _ _ _ _ Hm Hr) as [_ Hp].
    unfold partners_at in Hp. rewrite Hq in Hp. simpl in Hp.
    destruct (partners recs) as [l|e] eqn:Hrecs; [|done].
    injection Hp as <-. by apply partners_spec. }
  split_and!; [done|apply Hl|].
  intros out_snps n c0 _ Hn Hc. unfold expand_record. rewrite Hn. simpl.
  by rewrite Hc.
Qed.

(** ** The intervals of ld_expand *)

(** A loop that only ever appends: its result is the start followed by
    one block per element. *)
Lemma for_each_appends {A B} (Q : A → list B → Prop)
    (body : list B → A → result (list B)) xs acc out :
  (∀ a x a', x ∈ xs → body a x = Ok a' → ∃ e, a' = a ++ e ∧ Q x e) →
  for_each body acc xs = Ok out →
  ∃ es, out = acc ++ concat es ∧ Forall2 Q xs es.
Proof.
  revert acc. induction xs as [|x xs IH]; intros acc Hstep Hrun; simpl in Hrun.
  - injection Hrun as <-. exists []. simpl. by rewrite app_nil_r.
  - destruct (body acc x) as [acc'|e] eqn:Hb; simpl in Hrun; [|done].
    destruct (Hstep acc x acc') as (e & -> & Hq); [by left|done|].
    destruct (IH (acc ++ e)) as (es & -> & Hes); [|done|].
    { intros a y a' Hy. apply Hstep. by right. }
    exists (e :: es). simpl. split; [by rewrite app_assoc|by constructor].
Qed.

Lemma expand_row_appends t c out r out' :
  expand_row t c out r = Ok out' →
  ∃ e, out' = out ++ e ∧ ∃ extra, e = self_interval c r :: extra.
Proof.
  unfold expand_row. destruct (t c (end_ r - 1) (end_ r)) as [recs|].
  - intros Hrun.
    assert (∀ a n a', n ∈ recs → expand_record a n = Ok a' →
              ∃ e, a' = a ++ e ∧ True) as Hstep.
    { intros a n a' _. unfold expand_record.
      destruct (ld_partner n) as [[p2|]|]; simpl;
        [|by intros [= <-]; exists []; rewrite app_nil_r|done].
      destruct (first_field n); simpl; [|done]. intros [= <-]. by eexists. }
    destruct (for_each_appends _ _ _ _ _ Hstep Hrun) as (es & -> & _).
    eexists. rewrite <- app_assoc. split; [done|]. by eexists.
  - intros [= <-]. eexists. split; [done|]. by eexists.
Qed.

Lemma self_blocks c (rows : list row) (es : list (list interval)) :
  Forall2 (λ r e, ∃ extra, e = self_interval c r :: extra) rows es →
  (length rows ≤ length (concat es))%nat ∧
  ∀ r, r ∈ rows → self_interval c r ∈ concat es.
Proof.
  induction 1 as [|r e rows es (extra & ->) _ [IHl IHm]]; simpl.
  - split; [done|]. by intros r ?%not_elem_of_nil.
  - split; [rewrite length_app; lia|].
    intros r' [->|Hr']%elem_of_cons; [by left|].
    right. apply elem_of_app. right. by apply IHm.
Qed.

Lemma expand_chrom_Ok df out cf out' :
  expand_chrom df out cf = Ok out' ↔
  open_error cf.2 = None ∧
  for_each (expand_row cf.2 cf.1) out (on_chrom cf.1 df) = Ok out'.
Proof.
  unfold expand_chrom, tabix_open.
  destruct (open_error cf.2) as [e|]; simpl; [split; [done|by intros [? _]]|].
  split; [done|by intros [_ ?]].
Qed.

Lemma expand_chrom_Raise df out cf e :
  expand_chrom df out cf = Raise e ↔
  open_error cf.2 = Some e ∨
  (open_error cf.2 = None ∧
   for_each (expand_row cf.2 cf.1) out (on_chrom cf.1 df) = Raise e).
Proof.
  unfold expand_chrom, tabix_open.
  destruct (open_error cf.2) as [e'|]; simpl.
  - split; [intros [= ->]; by left|by intros [[= ->]|[? _]]].
  - split; [by right|by intros [?|[_ ?]]].
Qed.

Lemma prune_chrom_open_error df keep cf e :
  open_error cf.2 = Some e → prune_chrom df keep cf = Raise e.
Proof. intros Ho. unfold prune_chrom, tabix_open. by rewrite Ho. Qed.

Lemma expand_chrom_appends df out cf out' :
  expand_chrom df out cf = Ok out' →
  ∃ e, out' = out ++ e ∧
    ((length (on_chrom cf.1 df) ≤ length e)%nat ∧
     ∀ r, r ∈ on_chrom cf.1 df → self_interval cf.1 r ∈ e).
Proof.
  intros [_ Hrun]%expand_chrom_Ok.
  assert (∀ a r a', r ∈ on_chrom cf.1 df → expand_row cf.2 cf.1 a r = Ok a' →
            ∃ e, a' = a ++ e ∧ ∃ extra, e = self_interval cf.1 r :: extra) as Hstep.
  { intros a r a' _. apply expand_row_appends. }
  destruct (for_each_appends _ _ _ _ _ Hstep Hrun) as (es & -> & Hes).
  eexists. split; [done|]. by apply self_blocks.
Qed.

Lemma length_on_sources_cons cf L df :
  (length (on_sources (cf :: L) df)
   ≤ length (on_chrom cf.1 df) + length (on_sources L df))%nat.
Proof.
  unfold on_sources, on_chrom. rewrite fmap_cons.
  induction df as [|r df IH]; [done|].
  destruct (decide (chrom r = cf.1)) as [Hc|Hc].
  - rewrite (filter_cons_True (λ r, chrom r = cf.1)) by done.
    rewrite (filter_cons_True (λ r, chrom r ∈ cf.1 :: L.*1)) by (rewrite Hc; by left).
    destruct (decide (chrom r ∈ L.*1)).
    + rewrite (filter_cons_True (λ r, chrom r ∈ L.*1)) by done. simpl. lia.
    + rewrite (filter_cons_False (λ r, chrom r ∈ L.*1)) by done. simpl. lia.
  - rewrite (filter_cons_False (λ r, chrom r = cf.1)) by done.
    destruct (decide (chrom r ∈ L.*1)).
    + rewrite (filter_cons_True (λ r, chrom r ∈ L.*1)) by done.
      rewrite (filter_cons_True (λ r, chrom r ∈ cf.1 :: L.*1)) by by right.
      simpl. lia.
    + rewrite (filter_cons_False (λ r, chrom r ∈ L.*1)) by done.
      rewrite (filter_cons_False (λ r, chrom r ∈ cf.1 :: L.*1));
        [done|by intros [?|?]%elem_of_cons].
Qed.

Lemma chrom_blocks df (L : ld_sources) (es : list (list interval)) :
  Forall2 (λ cf e, (length (on_chrom cf.1 df) ≤ length e)%nat ∧
                   ∀ r, r ∈ on_chrom cf.1 df → self_interval cf.1 r ∈ e) L es →
  (length (on_sources L df) ≤ length (concat es))%nat ∧
  ∀ r, r ∈ df → chrom r ∈ L.*1 → self_interval (chrom r) r ∈ concat es.
Proof.
  induction 1 as [|cf e L es [Hlen Hmem] _ [IHl IHm]]; simpl.
  - split; [|by intros r _ ?%not_elem_of_nil].
    unfold on_sources. rewrite filter_none; [done|].
    intros x _ Hx. by apply not_elem_of_nil in Hx.
  - split.
    + pose proof (length_on_sources_cons cf L df). rewrite length_app. lia.
    + intros r Hr [Hc|Hc]%elem_of_cons; apply elem_of_app.
      * left. rewrite Hc. apply Hmem. by apply elem_of_on_chrom.
      * right. by apply IHm.
Qed.

Lemma expand_snps_spec df L out_snps :
  expand_snps df L = Ok out_snps →
  (length (on_sources L df) ≤ length out_snps)%nat ∧
  ∀ r, r ∈ df → chrom r ∈ L.*1 → self_interval (chrom r) r ∈ out_snps.
Proof.
  unfold expand_snps. intros Hrun.
  assert (∀ a cf a', cf ∈ L → expand_chrom df a cf = Ok a' →
            ∃ e, a' = a ++ e ∧
              ((length (on_chrom cf.1 df) ≤ length e)%nat ∧
               ∀ r, r ∈ on_chrom cf.1 df → self_interval cf.1 r ∈ e)) as Hstep.
  { intros a cf a' _. apply expand_chrom_appends. }
  destruct (for_each_appends _ _ _ _ _ Hstep Hrun) as (es & -> & Hes).
  by apply chrom_blocks.
Qed.

Global Instance bed_le_total : Total bed_le.
Proof.
  intros a b. unfold bed_le.
  rewrite (String.compare_antisym (ichrom b) (ichrom a)).
  destruct (String.compare (ichrom a) (ichrom b)); simpl; auto. lia.
Qed.

(** C3, as the code has it: ld_expand emits the variant's own interval
    for every input variant on a chromosome that is a key of the LD-source
    dict, so its size is at least the number of those variants (the other
    variants get nothing), and what it returns is sorted by chromosome
    name, then start. *)
Theorem ld_expand_size_sorted df L out :
  ld_expand df L = Ok out →
  (length (on_sources L df) ≤ length out)%nat ∧
  (∀ r, r ∈ df → chrom r ∈ L.*1 → self_interval (chrom r) r ∈ out) ∧
  Sorted bed_le out.
Proof.
  unfold ld_expand. destruct (expand_snps df L) as [out_snps|] eqn:Hs; simpl; [|done].
  intros [= <-]. destruct (expand_snps_spec _ _ _ Hs) as [Hlen Hmem].
  unfold bed_sort. split_and!.
  - by rewrite merge_sort_Permutation.
  - intros r Hr Hc. rewrite merge_sort_Permutation. by apply Hmem.
  - apply (Sorted_merge_sort bed_le).
Qed.

(** ** Exceptions leave the whole call *)

Lemma prune_query_not_found f c m r :
  f c (end_ r - 1) (end_ r) = None → prune_query f c m r = Raise NameError.
Proof. intros Hq. unfold prune_query. by rewrite Hq. Qed.

Lemma prune_query_raises f c m r recs n :
  f c (end_ r - 1) (end_ r) = Some recs → n ∈ recs → raises (ld_partner n) →
  prune_query f c m r = Raise NameError.
Proof.
  intros Hq Hn Hr. unfold prune_query. rewrite Hq.
  by destruct (partners_raises _ _ Hn Hr) as [e ->].
Qed.

Lemma ld_prune_raises df L cf r :
  cf ∈ L → r ∈ on_chrom cf.1 df →
  (∀ m, prune_query cf.2 cf.1 m r = Raise NameError) →
  raises (ld_prune df L).
Proof.
  intros Hcf Hr Hq. unfold ld_prune, prune_keep. apply raises_bind.
  eapply for_each_raises; [done|]. intros keep. unfold prune_chrom, build_ld_d.
  destruct (tabix_open cf.2) as [f|e] eqn:Ho; [|by exists e].
  apply tabix_open_Ok in Ho as [_ ->]. cbn [mbind result_bind].
  apply raises_bind. eapply for_each_raises; [done|].
  intros m. rewrite Hq. by exists NameError.
Qed.

Lemma expand_row_not_found t c out r :
  t c (end_ r - 1) (end_ r) = None →
  expand_row t c out r = Ok (out ++ [self_interval c r]).
Proof. intros Hq. unfold expand_row. by rewrite Hq. Qed.

Lemma ld_expand_raises df L cf r recs n :
  cf ∈ L → r ∈ on_chrom cf.1 df →
  cf.2 cf.1 (end_ r - 1) (end_ r) = Some recs → n ∈ recs → raises (ld_partner n) →
  raises (ld_expand df L).
Proof.
  intros Hcf Hr Hq Hn Hraise. unfold ld_expand, expand_snps. apply raises_bind.
  eapply for_each_raises; [done|]. intros out. unfold expand_chrom.
  destruct (tabix_open cf.2) as [f|e] eqn:Ho; [|by exists e].
  apply tabix_open_Ok in Ho as [_ ->]. cbn [mbind result_bind].
  eapply for_each_raises; [done|]. intros out'. unfold expand_row. cbv zeta. rewrite Hq.
  eapply for_each_raises; [done|]. intros out''. unfold expand_record.
  by apply raises_bind.
Qed.

(** C8, as the code has it: a record returned to a query of the call
    makes ld_prune and ld_expand raise, with no result for any chromosome,
    when its last field does not split into three parts at the colons, or
    the third part is not a float, or that float is at least 0.8 and the
    second part is not an integer. A record whose r2 is below 0.8 is
    skipped without error whatever its two position parts are. *)
Theorem malformed_record_aborts df L cf r recs n :
  cf ∈ L → r ∈ on_chrom cf.1 df →
  cf.2 cf.1 (end_ r - 1) (end_ r) = Some recs → n ∈ recs →
  (fatal_record n → raises (ld_prune df L) ∧ raises (ld_expand df L)) ∧
  (∀ f p1 p2 r2 q, last n = Some f → split ":" f = [p1; p2; r2] →
     py_float r2 = Some q → ¬ (tau ≤ q)%Qc → ld_partner n = Ok None).
Proof.
  intros Hcf Hr Hq Hn. split; [|apply ld_partner_below].
  intros Hfatal%ld_partner_raises. split.
  - eapply ld_prune_raises; [done..|]. intros m. by eapply prune_query_raises.
  - by eapply ld_expand_raises.
Qed.

(** C7: on a query that raises TabixError, ld_expand goes on with the
    variant's own interval, while ld_prune leaves with NameError, its
    handler naming a TabixError that the function never bound. *)
Theorem not_found_fatal_in_prune :
  ld_prune lone_variant [("chr1", unindexed)] = Raise NameError ∧
  ld_expand lone_variant [("chr1", unindexed)]
    = Ok [Interval "chr1" 99 100 "chr1:100"].
Proof. split; reflexivity. Qed.

End PruneFacts.

(** * The tie-break scenario *)

Lemma trio_wf : wf_table trio.
Proof.
  split; [compute_done|]. intros r Hr. unfold trio in Hr.
  repeat (apply elem_of_cons in Hr as [->|Hr]; [reflexivity|]).
  by apply not_elem_of_nil in Hr.
Qed.

Lemma trio_build :
  @build_ld_d dec_builtins trio_file "chr1" (on_chrom "chr1" trio) = Ok trio_ld_d.
Proof. vm_compute. reflexivity. Qed.

Section Trio.
Context `{PySet, GraphLib}.
#[local] Existing Instance dec_builtins.

Let v100 := variant "chr1" 100 (1 # 100).
Let v105 := variant "chr1" 105 (1 # 1000).
Let v110 := variant "chr1" 110 (1 # 100).
Let cf : string * ld_file := ("chr1", trio_file).

Lemma trio_rows r : r ∈ on_chrom "chr1" trio ↔ r = v100 ∨ r = v105 ∨ r = v110.
Proof.
  change (on_chrom "chr1" trio) with [v100; v105; v110].
  rewrite !elem_of_cons, elem_of_nil. tauto.
Qed.

Lemma trio_keep_exists : ∃ keep, prune_keep trio trio_sources = Ok keep.
Proof.
  apply prune_keep_wf_total; [apply trio_wf| |].
  { by intros cf' ->%list_elem_of_singleton. }
  intros cf' r ->%list_elem_of_singleton Hr.
  by apply (build_ld_d_spec _ _ _ _ trio_build).
Qed.

Lemma trio_keep keep :
  prune_keep trio trio_sources = Ok keep → ∀ l, l ∈ keep ↔ l = idx v105.
Proof.
  intros Hkeep.
  assert (cf ∈ trio_sources) as Hcf by by left.
  assert (NoDup trio_sources.*1) as HL by compute_done.
  pose proof trio_build as Hm.
  assert (idx v105 ∈ ld_ind (ld_table "chr1" trio_ld_d)) as Hv.
  { eapply (row_in_ind _ _ trio); [apply trio_wf|done|by apply trio_rows; auto|].
    apply elem_of_ld_cols. exists 100, [105; 110]. split; [done|by left]. }
  apply list_elem_of_lookup_1 in Hv as [v Hv].
  destruct (cc_cover (ld_graph "chr1" trio_ld_d) v) as (sg & Hsg & Hvs).
  { rewrite ld_graph_order. by eapply lookup_lt_Some. }
  assert (v105 ∈ component_rows (on_chrom "chr1" trio) "chr1" trio_ld_d sg) as H105.
  { apply elem_of_component_rows. split; [by apply trio_rows; auto|]. by exists v. }
  assert (∀ x, x ∈ [100; 105; 110] → x ∈ ld_cols trio_ld_d) as Hcols.
  { intros x Hx. apply elem_of_ld_cols.
    repeat (apply elem_of_cons in Hx as [->|Hx]);
      [exists 105, [100; 110]|exists 100, [105; 110]|exists 100, [105; 110]|
       by apply not_elem_of_nil in Hx]; split; try done; compute_done. }
  assert (v100 ∈ component_rows (on_chrom "chr1" trio) "chr1" trio_ld_d sg) as H100.
  { eapply (linked_rows_same_component _ _ trio _ _ v105 v100);
      try done; try (apply trio_rows; auto); try (apply Hcols; compute_done).
    apply trio_wf. left. compute_done. }
  assert (v110 ∈ component_rows (on_chrom "chr1" trio) "chr1" trio_ld_d sg) as H110.
  { eapply (linked_rows_same_component _ _ trio _ _ v105 v110);
      try done; try (apply trio_rows; auto); try (apply Hcols; compute_done).
    apply trio_wf. left. compute_done. }
  destruct (component_representative trio trio_sources keep cf trio_ld_d sg
              trio_wf HL Hkeep Hcf Hm Hsg) as (s1 & r & s2 & Hs & Hk & Hmin & _ & Huniq).
  change cf.1 with "chr1" in Hs. rewrite <- Hs in Hmin, Huniq.
  assert (r = v105) as ->.
  { assert (r ∈ component_rows (on_chrom "chr1" trio) "chr1" trio_ld_d sg) as Hr.
    { rewrite Hs. apply elem_of_app. right. by left. }
    apply elem_of_component_rows in Hr as [Hr _].
    pose proof (Hmin v105 H105) as Hle.
    apply trio_rows in Hr as [-> | [-> | ->]]; [|done|]; by destruct Hle. }
  intros l. split; [|by intros ->].
  intros Hl.
  destruct (prune_keep_rows _ _ _ _ trio_wf Hkeep Hl) as (r & Hr & <- & _).
  assert (r ∈ on_chrom "chr1" trio) as Hr' by done.
  apply trio_rows in Hr' as [-> | [-> | ->]]; [|done|].
  - by rewrite (Huniq v100 H100 Hl).
  - by rewrite (Huniq v110 H110 Hl).
Qed.

Lemma set_iter_singleton (s : pyset) (x : string) :
  (∀ l, l ∈ s ↔ l = x) → set_iter s = [x].
Proof.
  intros Hs. apply Permutation_singleton_r.
  assert (elems s = {[ x ]}) as He.
  { apply set_eq. intros l. rewrite elem_of_singleton. apply Hs. }
  by rewrite set_iter_perm, He, elements_singleton.
Qed.

(** The tie-break scenario of C4, whatever the enumeration orders of sets
    and components: exactly the variant at 105 is kept. *)
Lemma trio_pruned : ld_prune trio trio_sources = Ok [v105].
Proof.
  destruct trio_keep_exists as [keep Hkeep].
  apply ld_prune_unfold. exists keep. split; [done|].
  by rewrite (set_iter_singleton _ _ (trio_keep _ Hkeep)).
Qed.

End Trio.

(** C4, as the code has it: for every component that the resolver yields
    for the graph of a chromosome, ld_prune returns exactly one variant of
    the component: one of least p-value, and among those of least p-value
    the first in the order in which the component's rows are enumerated.
    The variants in a component are the input variants that occur in a
    recorded partner list, and two of them are in one component exactly
    when a chain of such variants, each in the list of the next or
    listing it, leads from one to the other. An input variant that occurs
    in no recorded list is in no component and is returned, so two such
    variants are both returned even when their own lists name a common
    partner outside the input. In the scenario of three variants at 100,
    105, 110 pairwise linked at r2 = 0.9 with p-values 0.01, 0.001, 0.01 it
    returns exactly the variant at 105. *)
Theorem prune_component_representative `{Builtins, PySet, GraphLib}
    df L out cf m :
  wf_table df → NoDup L.*1 → ld_prune df L = Ok out → cf ∈ L →
  build_ld_d cf.2 cf.1 (on_chrom cf.1 df) = Ok m →
  (∀ sg, sg ∈ connected_components (ld_graph cf.1 m) →
    ∃ s1 r s2,
      component_rows (on_chrom cf.1 df) cf.1 m sg = s1 ++ r :: s2 ∧
      r ∈ out ∧
      (∀ r', r' ∈ s1 ++ r :: s2 → (pvalue r ≤ pvalue r')%Qc) ∧
      (∀ r', r' ∈ s1 → (pvalue r < pvalue r')%Qc) ∧
      (∀ r', r' ∈ s1 ++ r :: s2 → r' ∈ out → r' = r)) ∧
  (∀ r, r ∈ on_chrom cf.1 df →
    (∃ sg, sg ∈ connected_components (ld_graph cf.1 m) ∧
           r ∈ component_rows (on_chrom cf.1 df) cf.1 m sg) ↔
    ∃ r', r' ∈ on_chrom cf.1 df ∧ end_ r ∈ m !!! end_ r') ∧
  (∀ sg r1 r2, sg ∈ connected_components (ld_graph cf.1 m) →
    r1 ∈ component_rows (on_chrom cf.1 df) cf.1 m sg →
    (r2 ∈ component_rows (on_chrom cf.1 df) cf.1 m sg ↔
     rtc (listed_link (on_chrom cf.1 df) m) r1 r2)) ∧
  (∀ r, r ∈ on_chrom cf.1 df →
    (∀ r', r' ∈ on_chrom cf.1 df → end_ r ∉ m !!! end_ r') → r ∈ out) ∧
  @ld_prune dec_builtins _ _ trio trio_sources
    = Ok [variant "chr1" 105 (1 # 1000)].
Proof.
  intros Hwf HL (keep & Hkeep & ->)%ld_prune_unfold Hcf Hm. split_and!.
  - intros sg Hsg.
    destruct (component_representative df L keep cf m sg Hwf HL Hkeep Hcf Hm Hsg)
      as (s1 & r & s2 & Hs & Hk & Hmin & Hfirst & Huniq).
    assert (r ∈ component_rows (on_chrom cf.1 df) cf.1 m sg) as Hr.
    { rewrite Hs. apply elem_of_app. right. by left. }
    apply elem_of_component_rows in Hr as [[Hr _]%elem_of_on_chrom _].
    exists s1, r, s2. split_and!; [done| |done..|].
    + by apply pruned_rows.
    + intros r' Hr' [_ Hk']%pruned_rows. by apply Huniq.
  - intros r Hr. split.
    + intros (sg & Hsg & (_ & i & _ & Hi)%elem_of_component_rows).
      apply list_elem_of_lookup_2 in Hi.
      apply (ld_ind_row _ _ _ _ _ Hwf Hm) in Hi as (r0 & Hr0 & He & Hc).
      assert (r0 = r) as ->
        by (eapply NoDup_idx_inj; [apply (wf_on_chrom cf.1 df Hwf)|done..]).
      apply elem_of_ld_cols in Hc as (k & l & Hk & Hin).
      destruct (ld_d_key_row _ _ _ _ _ Hm (mk_is_Some _ _ Hk)) as (r' & Hr' & <-).
      exists r'. split; [done|]. by rewrite lookup_total_alt, Hk.
    + intros (r' & Hr' & Hin).
      assert (idx r ∈ ld_ind (ld_table cf.1 m)) as Hv.
      { eapply row_in_ind; [done..|]. apply elem_of_ld_cols.
        exists (end_ r'), (m !!! end_ r'). split; [|done].
        by destruct (ld_d_lookup_total _ _ _ _ _ Hm Hr') as [? _]. }
      apply list_elem_of_lookup_1 in Hv as [v Hv].
      destruct (cc_cover (ld_graph cf.1 m) v) as (sg & Hsg & Hvs).
      { rewrite ld_graph_order. by eapply lookup_lt_Some. }
      exists sg. split; [done|]. apply elem_of_component_rows.
      split; [done|]. by exists v.
  - intros sg r1 r2 Hsg Hr1. by eapply same_component_iff.
  - intros r Hr Hun. apply pruned_rows.
    split; [by apply elem_of_on_chrom in Hr as [? _]|].
    apply (prune_keep_spec _ _ _ Hkeep). exists cf. split; [done|].
    exists m. split; [done|]. left.
    by apply (isolated_iff_unlisted _ _ _ _ _ Hwf Hm Hr).
  - apply trio_pruned.
Qed.

(** * The claims on concrete inputs *)

(** The functions under the reference instances. *)
Definition ref_keep := @prune_keep dec_builtins elements_order bfs_graphlib.
Definition ref_prune := @ld_prune dec_builtins elements_order bfs_graphlib.
Definition ref_expand := @ld_expand dec_builtins.
Definition ref_build := @build_ld_d dec_builtins.

Ltac wf_by_cases tbl :=
  split; [compute_done|];
  let r := fresh "r" in let Hr := fresh "Hr" in
  intros r Hr; unfold tbl in Hr;
  repeat (apply elem_of_cons in Hr as [->|Hr]; [reflexivity|]);
  by apply not_elem_of_nil in Hr.

Lemma bridged_wf : wf_table bridged.
Proof. wf_by_cases bridged. Qed.

Lemma bridged'_wf : wf_table bridged'.
Proof. wf_by_cases bridged'. Qed.

Lemma two_chroms_wf : wf_table two_chroms.
Proof. wf_by_cases two_chroms. Qed.

(** Under the reference instances the tie between 100 and 110 goes to 110,
    the first in the enumeration of the label set, not to 100, the first in
    the table. *)
Lemma tie_break_follows_enumeration :
  ref_prune tied tied_sources = Ok [variant "chr1" 110 (1 # 100)].
Proof. vm_compute. reflexivity. Qed.

Lemma ld_prune_keys_subset_witness :
  wf_table trio ∧
  ref_prune trio trio_sources = Ok [variant "chr1" 105 (1 # 1000)] ∧
  ∃ keep, ref_keep trio trio_sources = Ok keep ∧
    (∀ l, l ∈ keep → l ∈ idx <$> trio) ∧
    idx <$> [variant "chr1" 105 (1 # 1000)] = @set_iter elements_order keep ∧
    (∀ r, r ∈ [variant "chr1" 105 (1 # 1000)] → r ∈ trio ∧ idx r ∈ idx <$> trio) ∧
    (length [variant "chr1" 105 (1 # 1000)] ≤ length trio)%nat.
Proof.
  assert (ref_prune trio trio_sources = Ok [variant "chr1" 105 (1 # 1000)]) as Hrun
    by (vm_compute; reflexivity).
  split_and!; [apply trio_wf|exact Hrun|].
  exact (@ld_prune_keys_subset dec_builtins elements_order bfs_graphlib
           trio trio_sources _ trio_wf Hrun).
Defined.

Lemma mixed_wf : wf_table mixed.
Proof. wf_by_cases mixed. Qed.


(** ld_prune under sets that iterate in insertion order. *)
Definition ins_prune := @ld_prune dec_builtins insertion_order bfs_graphlib.


Lemma prune_component_representative_witness :
  wf_table mixed ∧ NoDup [("chr1", mixed_file)].*1 ∧
  ref_prune mixed [("chr1", mixed_file)] = Ok mixed_out ∧
  ("chr1", mixed_file) ∈ [("chr1", mixed_file)] ∧
  ref_build mixed_file "chr1" (on_chrom "chr1" mixed) = Ok mixed_ld_d ∧
  (∀ sg, sg ∈ @connected_components bfs_graphlib
                 (@ld_graph elements_order "chr1" mixed_ld_d) →
    ∃ s1 r s2,
      @component_rows elements_order (on_chrom "chr1" mixed) "chr1" mixed_ld_d sg
        = s1 ++ r :: s2 ∧
      r ∈ mixed_out ∧
      (∀ r', r' ∈ s1 ++ r :: s2 → (pvalue r ≤ pvalue r')%Qc) ∧
      (∀ r', r' ∈ s1 → (pvalue r < pvalue r')%Qc) ∧
      (∀ r', r' ∈ s1 ++ r :: s2 → r' ∈ mixed_out → r' = r)) ∧
  (∀ r, r ∈ on_chrom "chr1" mixed →
    (∃ sg, sg ∈ @connected_components bfs_graphlib
                   (@ld_graph elements_order "chr1" mixed_ld_d) ∧
           r ∈ @component_rows elements_order (on_chrom "chr1" mixed)
                 "chr1" mixed_ld_d sg) ↔
    ∃ r', r' ∈ on_chrom "chr1" mixed ∧ end_ r ∈ mixed_ld_d !!! end_ r') ∧
  (∀ sg r1 r2, sg ∈ @connected_components bfs_graphlib
                       (@ld_graph elements_order "chr1" mixed_ld_d) →
    r1 ∈ @component_rows elements_order (on_chrom "chr1" mixed)
           "chr1" mixed_ld_d sg →
    (r2 ∈ @component_rows elements_order (on_chrom "chr1" mixed)
            "chr1" mixed_ld_d sg ↔
     rtc (listed_link (on_chrom "chr1" mixed) mixed_ld_d) r1 r2)) ∧
  (∀ r, r ∈ on_chrom "chr1" mixed →
    (∀ r', r' ∈ on_chrom "chr1" mixed → end_ r ∉ mixed_ld_d !!! end_ r') →
    r ∈ mixed_out) ∧
  ref_prune trio trio_sources = Ok [variant "chr1" 105 (1 # 1000)].
Proof.
  assert (NoDup [("chr1", mixed_file)].*1) as HL by compute_done.
  assert (ref_prune mixed [("chr1", mixed_file)] = Ok mixed_out) as Hrun
    by (vm_compute; reflexivity).
  assert (("chr1", mixed_file) ∈ [("chr1", mixed_file)]) as Hcf by by left.
  assert (ref_build mixed_file "chr1" (on_chrom "chr1" mixed) = Ok mixed_ld_d)
    as Hm by (vm_compute; reflexivity).
  split_and!; [apply mixed_wf|exact HL|exact Hrun|exact Hcf|exact Hm|..];
    apply (@prune_component_representative dec_builtins elements_order bfs_graphlib
             mixed [("chr1", mixed_file)] mixed_out ("chr1", mixed_file) mixed_ld_d
             mixed_wf HL Hrun Hcf Hm).
Defined.

Lemma isolated_kept_automatically_witness :
  wf_table mixed ∧ NoDup [("chr1", mixed_file)].*1 ∧
  ref_prune mixed [("chr1", mixed_file)] = Ok mixed_out ∧
  ("chr1", mixed_file) ∈ [("chr1", mixed_file)] ∧
  ref_build mixed_file "chr1" (on_chrom "chr1" mixed) = Ok mixed_ld_d ∧
  variant "chr1" 105 (1 # 1000) ∈ on_chrom "chr1" mixed ∧
  ("chr1:105" ∈ ld_isolated (ld_table "chr1" mixed_ld_d) ↔
     ∀ r', r' ∈ on_chrom "chr1" mixed → 105 ∉ mixed_ld_d !!! end_ r') ∧
  ("chr1:105" ∈ ld_isolated (ld_table "chr1" mixed_ld_d) →
     ("chr1:105" ∉ @ld_ind elements_order (ld_table "chr1" mixed_ld_d)) ∧
     variant "chr1" 105 (1 # 1000) ∈ mixed_out) ∧
  ("chr1:105" ∉ ld_isolated (ld_table "chr1" mixed_ld_d) →
     "chr1:105" ∈ @ld_ind elements_order (ld_table "chr1" mixed_ld_d) ∧
     ∃ sg, sg ∈ @connected_components bfs_graphlib
                   (@ld_graph elements_order "chr1" mixed_ld_d) ∧
       variant "chr1" 105 (1 # 1000)
         ∈ @component_rows elements_order (on_chrom "chr1" mixed)
             "chr1" mixed_ld_d sg ∧
       ∀ r', r' ∈ @component_rows elements_order (on_chrom "chr1" mixed)
                    "chr1" mixed_ld_d sg →
             (pvalue r' < pvalue (variant "chr1" 105 (1 # 1000)))%Qc →
             variant "chr1" 105 (1 # 1000) ∉ mixed_out) ∧
  variant "chr1" 100 (1 # 100) ∈ on_chrom "chr1" mixed ∧
  ("chr1:100" ∉ ld_isolated (ld_table "chr1" mixed_ld_d) →
     "chr1:100" ∈ @ld_ind elements_order (ld_table "chr1" mixed_ld_d) ∧
     ∃ sg, sg ∈ @connected_components bfs_graphlib
                   (@ld_graph elements_order "chr1" mixed_ld_d) ∧
       variant "chr1" 100 (1 # 100)
         ∈ @component_rows elements_order (on_chrom "chr1" mixed)
             "chr1" mixed_ld_d sg ∧
       ∀ r', r' ∈ @component_rows elements_order (on_chrom "chr1" mixed)
                    "chr1" mixed_ld_d sg →
             (pvalue r' < pvalue (variant "chr1" 100 (1 # 100)))%Qc →
             variant "chr1" 100 (1 # 100) ∉ mixed_out).
Proof.
  assert (NoDup [("chr1", mixed_file)].*1) as HL by compute_done.
  assert (ref_prune mixed [("chr1", mixed_file)] = Ok mixed_out) as Hrun
    by (vm_compute; reflexivity).
  assert (("chr1", mixed_file) ∈ [("chr1", mixed_file)]) as Hcf by by left.
  assert (ref_build mixed_file "chr1" (on_chrom "chr1" mixed) = Ok mixed_ld_d)
    as Hm by (vm_compute; reflexivity).
  assert (variant "chr1" 105 (1 # 1000) ∈ on_chrom "chr1" mixed) as Hr
    by (vm_compute; right; by left).
  assert (variant "chr1" 100 (1 # 100) ∈ on_chrom "chr1" mixed) as Hr'
    by (vm_compute; by left).
  split_and!; [apply mixed_wf|exact HL|exact Hrun|exact Hcf|exact Hm|exact Hr| | |
               |exact Hr'|];
    [apply (@isolated_kept_automatically dec_builtins elements_order bfs_graphlib
              mixed [("chr1", mixed_file)] mixed_out ("chr1", mixed_file) mixed_ld_d
              (variant "chr1" 105 (1 # 1000)) mixed_wf HL Hrun Hcf Hm Hr)..|
     apply (@isolated_kept_automatically dec_builtins elements_order bfs_graphlib
              mixed [("chr1", mixed_file)] mixed_out ("chr1", mixed_file) mixed_ld_d
              (variant "chr1" 100 (1 # 100)) mixed_wf HL Hrun Hcf Hm Hr')].
Defined.

Lemma graph_vertices_are_listed_inputs_witness :
  wf_table mixed ∧
  ref_prune mixed [("chr1", mixed_file)] = Ok mixed_out ∧
  ("chr1", mixed_file) ∈ [("chr1", mixed_file)] ∧
  ref_build mixed_file "chr1" (on_chrom "chr1" mixed) = Ok mixed_ld_d ∧
  (∀ l, l ∈ @ld_ind elements_order (ld_table "chr1" mixed_ld_d) ↔
        ∃ r, r ∈ on_chrom "chr1" mixed ∧ idx r = l ∧ end_ r ∈ ld_cols mixed_ld_d) ∧
  (∀ x, x ∈ ld_cols mixed_ld_d → x ∉ end_ <$> on_chrom "chr1" mixed →
        (label "chr1" x ∉ @ld_ind elements_order (ld_table "chr1" mixed_ld_d)) ∧
        (label "chr1" x ∉ idx <$> on_chrom "chr1" mixed) ∧
        (label "chr1" x ∉ idx <$> mixed_out)) ∧
  (∀ i j, edge (@ld_graph elements_order "chr1" mixed_ld_d) i j = true ↔
        ∃ r1 r2, r1 ∈ on_chrom "chr1" mixed ∧ r2 ∈ on_chrom "chr1" mixed ∧
          @ld_ind elements_order (ld_table "chr1" mixed_ld_d) !! i = Some (idx r1) ∧
          @ld_ind elements_order (ld_table "chr1" mixed_ld_d) !! j = Some (idx r2) ∧
          end_ r2 ∈ mixed_ld_d !!! end_ r1) ∧
  (∀ sg l, sg ∈ @connected_components bfs_graphlib
                  (@ld_graph elements_order "chr1" mixed_ld_d) →
        most_sig (@component_rows elements_order (on_chrom "chr1" mixed)
                    "chr1" mixed_ld_d sg) = Ok l →
        l ∈ idx <$> on_chrom "chr1" mixed ∧ l ∈ idx <$> mixed_out) ∧
  (∀ r, r ∈ on_chrom "chr1" mixed → end_ r ∉ ld_cols mixed_ld_d →
        (idx r ∉ @ld_ind elements_order (ld_table "chr1" mixed_ld_d)) ∧
        r ∈ mixed_out).
Proof.
  assert (ref_prune mixed [("chr1", mixed_file)] = Ok mixed_out) as Hrun
    by (vm_compute; reflexivity).
  assert (("chr1", mixed_file) ∈ [("chr1", mixed_file)]) as Hcf by by left.
  assert (ref_build mixed_file "chr1" (on_chrom "chr1" mixed) = Ok mixed_ld_d)
    as Hm by (vm_compute; reflexivity).
  split_and!; [apply mixed_wf|exact Hrun|exact Hcf|exact Hm|..];
    apply (@graph_vertices_are_listed_inputs dec_builtins elements_order bfs_graphlib
             mixed [("chr1", mixed_file)] mixed_out ("chr1", mixed_file) mixed_ld_d
             mixed_wf Hrun Hcf Hm).
Defined.

Lemma absent_chromosomes_skipped_witness :
  wf_table two_chroms ∧
  (∀ out r, ref_prune two_chroms chr1_only = Ok out → r ∈ out →
            chrom r ∈ chr1_only.*1) ∧
  ref_prune two_chroms chr1_only = ref_prune (on_sources chr1_only two_chroms) chr1_only ∧
  ref_expand two_chroms chr1_only = ref_expand (on_sources chr1_only two_chroms) chr1_only.
Proof.
  split; [apply two_chroms_wf|].
  exact (@absent_chromosomes_skipped dec_builtins elements_order bfs_graphlib
           two_chroms chr1_only two_chroms_wf).
Defined.

Lemma ld_expand_size_sorted_witness :
  ref_expand two_chroms chr1_only = Ok [Interval "chr1" 99 100 "chr1:100"] ∧
  (length (on_sources chr1_only two_chroms)
     ≤ length [Interval "chr1" 99 100 "chr1:100"])%nat ∧
  (∀ r, r ∈ two_chroms → chrom r ∈ chr1_only.*1 →
        self_interval (chrom r) r ∈ [Interval "chr1" 99 100 "chr1:100"]) ∧
  Sorted bed_le [Interval "chr1" 99 100 "chr1:100"].
Proof.
  assert (ref_expand two_chroms chr1_only = Ok [Interval "chr1" 99 100 "chr1:100"])
    as Hrun by (vm_compute; reflexivity).
  split; [exact Hrun|].
  exact (@ld_expand_size_sorted dec_builtins two_chroms chr1_only _ Hrun).
Defined.

Lemma partner_lists_unfiltered_witness :
  ref_build self_file "chr1" (on_chrom "chr1" self_linked) = Ok self_ld_d ∧
  variant "chr1" 100 (1 # 100) ∈ on_chrom "chr1" self_linked ∧
  self_file "chr1" (100 - 1) 100
    = Some [["chr1"; "99"; "100"; "100:100:0.9"]; ["chr1"; "99"; "100"; "100:120:0.95"]] ∧
  (100 ∈ self_ld_d !!! 100 ↔
   ∃ n, n ∈ [["chr1"; "99"; "100"; "100:100:0.9"]; ["chr1"; "99"; "100"; "100:120:0.95"]] ∧
        @ld_partner dec_builtins n = Ok (Some 100)).
Proof.
  assert (ref_build self_file "chr1" (on_chrom "chr1" self_linked) = Ok self_ld_d)
    as Hm by (vm_compute; reflexivity).
  assert (variant "chr1" 100 (1 # 100) ∈ on_chrom "chr1" self_linked) as Hr
    by (vm_compute; by left).
  assert (self_file "chr1" (100 - 1) 100
    = Some [["chr1"; "99"; "100"; "100:100:0.9"]; ["chr1"; "99"; "100"; "100:120:0.95"]])
    as Hq by (vm_compute; reflexivity).
  split_and!; [exact Hm|exact Hr|exact Hq|].
  apply (@partner_lists_unfiltered dec_builtins self_file "chr1" self_linked self_ld_d
           (variant "chr1" 100 (1 # 100)) _ Hm Hr Hq).
Defined.

Lemma malformed_record_aborts_witness :
  ("chr1", tabix_of "chr1" [(100, "100:abc:0.9")]) ∈ odd_high ∧
  variant "chr1" 100 (1 # 100) ∈ on_chrom "chr1" two_chroms ∧
  tabix_of "chr1" [(100, "100:abc:0.9")] "chr1" (100 - 1) 100
    = Some [["chr1"; "99"; "100"; "100:abc:0.9"]] ∧
  ["chr1"; "99"; "100"; "100:abc:0.9"] ∈ [["chr1"; "99"; "100"; "100:abc:0.9"]] ∧
  @fatal_record dec_builtins ["chr1"; "99"; "100"; "100:abc:0.9"] ∧
  raises (ref_prune two_chroms odd_high) ∧ raises (ref_expand two_chroms odd_high).
Proof.
  assert (("chr1", tabix_of "chr1" [(100, "100:abc:0.9")]) ∈ odd_high) as Hcf
    by (unfold odd_high; by left).
  assert (variant "chr1" 100 (1 # 100) ∈ on_chrom "chr1" two_chroms) as Hr
    by (vm_compute; by left).
  assert (tabix_of "chr1" [(100, "100:abc:0.9")] "chr1" (100 - 1) 100
    = Some [["chr1"; "99"; "100"; "100:abc:0.9"]]) as Hq by (vm_compute; reflexivity).
  assert (["chr1"; "99"; "100"; "100:abc:0.9"] ∈ [["chr1"; "99"; "100"; "100:abc:0.9"]])
    as Hn by by left.
  assert (@fatal_record dec_builtins ["chr1"; "99"; "100"; "100:abc:0.9"]) as Hf.
  { right. exists "100:abc:0.9". split; [reflexivity|]. right.
    exists "100", "abc", "0.9". split; [reflexivity|]. right.
    exists (Q2Qc (9 # 10)). split_and!; [reflexivity|compute_done|reflexivity]. }
  split_and!; [exact Hcf|exact Hr|exact Hq|exact Hn|exact Hf|..];
    apply (@malformed_record_aborts dec_builtins elements_order bfs_graphlib
             two_chroms odd_high _ (variant "chr1" 100 (1 # 100)) _ _ Hcf Hr Hq Hn);
    exact Hf.
Defined.

(** * Where the code departs from the claims *)

(** C1: the variant on chr2, a chromosome without an LD source, is not
    kept by ld_prune and gets no interval from ld_expand. *)
Lemma passthrough_refuted :
  variant "chr2" 50 (1 # 100) ∈ two_chroms ∧ ("chr2" ∉ chr1_only.*1) ∧
  ref_prune two_chroms chr1_only = Ok [variant "chr1" 100 (1 # 100)] ∧
  ref_expand two_chroms chr1_only = Ok [Interval "chr1" 99 100 "chr1:100"].
Proof.
  split_and!; [compute_done|compute_done|vm_compute; reflexivity..].
Qed.

(** C3: two input variants, one interval. *)
Lemma expand_smaller_than_input :
  ∃ out, ref_expand two_chroms chr1_only = Ok out ∧
         (length out < length two_chroms)%nat.
Proof.
  exists [Interval "chr1" 99 100 "chr1:100"].
  split; [vm_compute; reflexivity|simpl; lia].
Qed.

(** C4: 100 and 105 are in one connected component of the LD graph,
    joined through their common partner 200, and both are kept. *)
Lemma two_kept_in_one_component :
  ref_build (tabix_of "chr1" [(100, "100:200:0.9"); (105, "105:200:0.9")])
    "chr1" (on_chrom "chr1" bridged) = Ok bridged_ld_d ∧
  spec_connected bridged_ld_d 100 105 ∧
  ref_prune bridged bridged_sources
    = Ok [variant "chr1" 105 (1 # 1000); variant "chr1" 100 (1 # 100)].
Proof.
  split_and!; [vm_compute; reflexivity| |vm_compute; reflexivity].
  apply rtc_l with 200; [left; compute_done|].
  apply rtc_once. right. compute_done.
Qed.

(** C5: 300 and 310 are linked only through 305, which is not an input
    variant; the component graph has no vertex at all, so no component
    holds the two, and both come out of ld_prune. *)
Lemma bridge_partner_not_a_vertex :
  ref_build bridged'_file "chr1" (on_chrom "chr1" bridged') = Ok bridged'_ld_d ∧
  bridged'_ld_d !!! 300 = [305] ∧ bridged'_ld_d !!! 310 = [305] ∧
  (305 ∉ end_ <$> bridged') ∧
  @ld_ind elements_order (ld_table "chr1" bridged'_ld_d) = [] ∧
  ¬ (∃ sg, sg ∈ @connected_components bfs_graphlib
                   (@ld_graph elements_order "chr1" bridged'_ld_d) ∧
           variant "chr1" 300 (1 # 100)
             ∈ @component_rows elements_order (on_chrom "chr1" bridged')
                 "chr1" bridged'_ld_d sg ∧
           variant "chr1" 310 (1 # 100)
             ∈ @component_rows elements_order (on_chrom "chr1" bridged')
                 "chr1" bridged'_ld_d sg) ∧
  ref_prune bridged' [("chr1", bridged'_file)]
    = Ok [variant "chr1" 310 (1 # 100); variant "chr1" 300 (1 # 100)].
Proof.
  split_and!; [vm_compute; reflexivity|vm_compute; reflexivity|
               vm_compute; reflexivity|compute_done|vm_compute; reflexivity| |
               vm_compute; reflexivity].
  intros (sg & Hsg & _).
  assert (@connected_components bfs_graphlib
            (@ld_graph elements_order "chr1" bridged'_ld_d) = []) as Hcc
    by (vm_compute; reflexivity).
  rewrite Hcc in Hsg. by apply not_elem_of_nil in Hsg.
Qed.


(** C10: every partner that the list of 100 names (200 only) lies
    outside the input and 100 does not name itself, yet 100 is not kept:
    105 names it, so it is a vertex of the component graph, in one
    component with the more significant 105. *)
Lemma listed_variant_dropped :
  ref_build directed_file "chr1" (on_chrom "chr1" directed) = Ok directed_ld_d ∧
  directed_ld_d !!! 100 = [200] ∧ (200 ∉ end_ <$> directed) ∧
  100 ∈ directed_ld_d !!! 105 ∧
  "chr1:100" ∈ @ld_ind elements_order (ld_table "chr1" directed_ld_d) ∧
  ref_prune directed [("chr1", directed_file)] = Ok directed_out ∧
  variant "chr1" 100 (1 # 100) ∉ directed_out.
Proof.
  split_and!; [vm_compute; reflexivity|vm_compute; reflexivity|compute_done|
               compute_done|compute_done|vm_compute; reflexivity|compute_done].
Qed.

(** C6: the record 100:100:0.9 puts 100 into its own partner list, and a
    second interval for 100 into the output of ld_expand. *)
Lemma self_link_recorded :
  ref_build self_file "chr1" (on_chrom "chr1" self_linked) = Ok self_ld_d ∧
  100 ∈ self_ld_d !!! 100 ∧
  ref_expand self_linked [("chr1", self_file)]
    = Ok [Interval "chr1" 99 100 "chr1:100"; Interval "chr1" 99 100 "chr1:100";
          Interval "chr1" 119 120 "chr1:120"].
Proof.
  split_and!; [vm_compute; reflexivity|compute_done|vm_compute; reflexivity].
Qed.

(** C8: the record 100:abc:0.5 is skipped without any error by both
    functions; the record 100:abc:0.9 on chr1 makes both raise, and then
    nothing is returned for chr2 either. *)
Lemma malformed_record_not_contained :
  ref_prune self_linked odd_low = Ok [variant "chr1" 100 (1 # 100)] ∧
  ref_expand self_linked odd_low = Ok [Interval "chr1" 99 100 "chr1:100"] ∧
  ref_prune two_chroms odd_high = Raise NameError ∧
  ref_expand two_chroms odd_high = Raise ValueError.
Proof. split_and!; vm_compute; reflexivity. Qed.

(** * Further properties of ld_prune *)

Section MorePrune.
Context `{Builtins, PySet, GraphLib}.

Lemma for_each_raises_inv {A S} (body : S → A → result S) xs acc e :
  for_each body acc xs = Raise e → ∃ x a, x ∈ xs ∧ body a x = Raise e.
Proof.
  revert acc. induction xs as [|x xs IH]; intros acc Hrun; [done|].
  rewrite for_each_cons in Hrun.
  destruct (body acc x) as [acc'|e'] eqn:Hb; simpl in Hrun.
  - destruct (IH _ Hrun) as (y & a & Hy & Hya). exists y, a. split; [by right|done].
  - injection Hrun as ->. exists x, acc. split; [by left|done].
Qed.

(** X1: the table ld_prune returns is again in the documented format, and its
    rows are distinct rows of the input. *)
Theorem ld_prune_output_wf df L out :
  wf_table df → ld_prune df L = Ok out →
  wf_table out ∧ NoDup out ∧ ∀ r, r ∈ out → r ∈ df.
Proof.
  intros Hwf (keep & Hkeep & ->)%ld_prune_unfold.
  pose proof (pruned_wf _ _ _ Hwf Hkeep) as Hout.
  split_and!; [done| |].
  - eapply NoDup_fmap_1, Hout.
  - by intros r [Hr _]%pruned_rows.
Qed.


(** X3: two kept variants that are both vertices of the graph are never
    linked: if one is in the recorded partner list of the other they are the
    same variant. In particular two variants that list each other are never
    both kept. *)
Theorem kept_variants_not_linked df L keep cf m r1 r2 :
  wf_table df → NoDup L.*1 → prune_keep df L = Ok keep → cf ∈ L →
  build_ld_d cf.2 cf.1 (on_chrom cf.1 df) = Ok m →
  r1 ∈ on_chrom cf.1 df → r2 ∈ on_chrom cf.1 df →
  idx r1 ∈ keep → idx r2 ∈ keep →
  (end_ r1 ∈ ld_cols m → end_ r2 ∈ m !!! end_ r1 → r1 = r2) ∧
  (end_ r2 ∈ m !!! end_ r1 → end_ r1 ∈ m !!! end_ r2 → r1 = r2).
Proof.
  intros Hwf HL Hkeep Hcf Hm Hr1 Hr2 Hk1 Hk2.
  assert (end_ r1 ∈ ld_cols m → end_ r2 ∈ m !!! end_ r1 → r1 = r2) as Hgen.
  { intros Hc1 Hlink.
    assert (end_ r2 ∈ ld_cols m) as Hc2.
    { apply elem_of_ld_cols. exists (end_ r1), (m !!! end_ r1). split; [|done].
      by destruct (ld_d_lookup_total _ _ _ _ _ Hm Hr1) as [? _]. }
    pose proof Hc1 as Hv. apply (row_in_ind _ _ _ _ _ Hwf Hm Hr1) in Hv.
    apply list_elem_of_lookup_1 in Hv as [v Hv].
    destruct (cc_cover (ld_graph cf.1 m) v) as (sg & Hsg & Hvs).
    { rewrite ld_graph_order. by eapply lookup_lt_Some. }
    assert (r1 ∈ component_rows (on_chrom cf.1 df) cf.1 m sg) as Hin1.
    { apply elem_of_component_rows. split; [done|]. by exists v. }
    assert (r2 ∈ component_rows (on_chrom cf.1 df) cf.1 m sg) as Hin2
      by (eapply (linked_rows_same_component _ _ _ _ _ r1 r2); eauto).
    pose proof (kept_in_component _ _ _ _ _ _ _ Hwf HL Hkeep Hcf Hm Hsg Hin1 Hk1) as E1.
    pose proof (kept_in_component _ _ _ _ _ _ _ Hwf HL Hkeep Hcf Hm Hsg Hin2 Hk2) as E2.
    rewrite E1 in E2. injection E2 as E.
    eapply NoDup_idx_inj; [apply (wf_on_chrom cf.1 df Hwf)|done..]. }
  split; [done|]. intros H12 H21. apply Hgen; [|done].
  apply elem_of_ld_cols. exists (end_ r2), (m !!! end_ r2). split; [|done].
  by destruct (ld_d_lookup_total _ _ _ _ _ Hm Hr2) as [? _].
Qed.

(** X4: when no input variant is in the partner list recorded for an input
    variant, nothing is pruned: the output holds exactly the variants on the
    chromosomes that have an LD source. *)
Theorem unlinked_variants_all_kept df L out :
  wf_table df → ld_prune df L = Ok out →
  (∀ cf m r r', cf ∈ L → build_ld_d cf.2 cf.1 (on_chrom cf.1 df) = Ok m →
     r ∈ on_chrom cf.1 df → r' ∈ on_chrom cf.1 df → end_ r ∉ m !!! end_ r') →
  out ≡ₚ on_sources L df.
Proof.
  intros Hwf (keep & Hkeep & ->)%ld_prune_unfold Hfree.
  apply NoDup_Permutation.
  { eapply NoDup_fmap_1, (pruned_wf _ _ _ Hwf Hkeep). }
  { apply NoDup_filter. eapply NoDup_fmap_1, Hwf. }
  intros r. rewrite pruned_rows. unfold on_sources. rewrite list_elem_of_filter. split.
  - intros [Hr Hk]. split; [|done].
    destruct (prune_keep_rows _ _ _ _ Hwf Hkeep Hk) as (r' & Hr' & He & Hc).
    by rewrite (NoDup_idx_inj df r r' (proj1 Hwf) Hr Hr' (eq_sym He)).
  - intros [Hc Hr]. split; [done|].
    apply list_elem_of_fmap in Hc as (cf & Hc & Hcf).
    destruct (prune_keep_ld_d _ _ _ _ Hkeep Hcf) as [m Hm].
    assert (r ∈ on_chrom cf.1 df) as Hr' by by apply elem_of_on_chrom.
    apply (prune_keep_spec _ _ _ Hkeep). exists cf. split; [done|].
    exists m. split; [done|]. left.
    apply (isolated_iff_unlisted _ _ _ _ _ Hwf Hm Hr').
    intros r' Hr''. by eapply Hfree.
Qed.


(** ** The order of the LD-source dict, and failures *)

Lemma for_each_Ok_inv {A S} (body : S → A → result S) xs acc out :
  for_each body acc xs = Ok out → ∀ x, x ∈ xs → ∃ a a', body a x = Ok a'.
Proof.
  revert acc. induction xs as [|y xs IH]; intros acc Hrun x Hx;
    [by apply not_elem_of_nil in Hx|].
  rewrite for_each_cons in Hrun.
  destruct (body acc y) as [acc'|e] eqn:Hb; simpl in Hrun; [|done].
  apply elem_of_cons in Hx as [->|Hx]; [by exists acc, acc'|by eapply IH].
Qed.

Lemma keep_component_indep tdf (t : frame string string) a a2 sg a' :
  keep_component tdf t a sg = Ok a' → ∃ a2', keep_component tdf t a2 sg = Ok a2'.
Proof.
  unfold keep_component. destruct (most_sig _) as [k|e]; simpl; [by eexists|done].
Qed.

Lemma prune_chrom_indep df a a2 cf a' :
  prune_chrom df a cf = Ok a' → ∃ a2', prune_chrom df a2 cf = Ok a2'.
Proof.
  unfold prune_chrom.
  destruct (tabix_open cf.2) as [f|e]; simpl; [|done].
  destruct (build_ld_d f cf.1 (on_chrom cf.1 df)) as [m|e]; simpl; [|done].
  intros Hrun. apply for_each_total. intros k sg Hsg.
  destruct (for_each_Ok_inv _ _ _ _ Hrun sg Hsg) as (b & b' & Hb).
  by eapply keep_component_indep.
Qed.

(** The labels that are kept do not depend on the order in which the keys
    of the LD-source dict are enumerated; the insertions that fill [keep]
    come in another sequence. *)
Lemma prune_keep_Permutation df L L' keep :
  L ≡ₚ L' → prune_keep df L = Ok keep →
  ∃ keep', prune_keep df L' = Ok keep' ∧ ∀ l, l ∈ keep' ↔ l ∈ keep.
Proof.
  intros HL Hkeep.
  destruct (prune_keep_total df L') as [keep' Hkeep'].
  { intros cf k Hcf. rewrite <- HL in Hcf.
    destruct (for_each_Ok_inv _ _ _ _ Hkeep cf Hcf) as (b & b' & Hb).
    by eapply prune_chrom_indep. }
  exists keep'. split; [done|]. intros l.
  rewrite (prune_keep_spec _ _ _ Hkeep), (prune_keep_spec _ _ _ Hkeep').
  by setoid_rewrite HL.
Qed.

(** Two sets with the same elements select the same rows, in the order
    in which each is iterated. *)
Lemma ix_rows_same_elements df (keep keep' : pyset) :
  (∀ l, l ∈ keep' ↔ l ∈ keep) →
  ix_rows df (set_iter keep') ≡ₚ ix_rows df (set_iter keep).
Proof.
  intros Hsame.
  assert (set_iter keep' ≡ₚ set_iter keep) as Hp.
  { apply NoDup_Permutation; [apply set_iter_NoDup..|].
    intros l. by rewrite !elem_of_set_iter. }
  unfold ix_rows. by rewrite Hp.
Qed.

(** X5: whatever the order in which [ld_beds.keys()] yields the
    chromosomes, ld_prune returns the same rows; the order of the rows
    follows the iteration of [keep], which another key order fills in
    another sequence. *)
Theorem ld_prune_key_order df L L' out :
  L ≡ₚ L' → ld_prune df L = Ok out →
  ∃ out', ld_prune df L' = Ok out' ∧ out' ≡ₚ out.
Proof.
  intros HL (keep & Hkeep & ->)%ld_prune_unfold.
  destruct (prune_keep_Permutation _ _ _ _ HL Hkeep) as (keep' & Hkeep' & Hsame).
  exists (ix_rows df (set_iter keep')). split.
  - apply ld_prune_unfold. by exists keep'.
  - by apply ix_rows_same_elements.
Qed.

Lemma partners_at_None f c p :
  partners_at f c p = None ↔
  f c (p - 1) p = None ∨
  ∃ recs n, f c (p - 1) p = Some recs ∧ n ∈ recs ∧ fatal_record n.
Proof.
  unfold partners_at. destruct (f c (p - 1) p) as [recs|]; simpl.
  - split.
    + destruct (partners recs) as [l|e] eqn:Hp; [done|]. intros _. right.
      apply for_each_raises_inv in Hp as (n & a & Hn & Hna).
      exists recs, n. split_and!; [done..|]. apply ld_partner_raises.
      destruct (ld_partner n) as [o|e']; [done|by exists e'].
    + intros [|(recs' & n & [= <-] & Hn & Hf%ld_partner_raises)]; [done|].
      by destruct (partners_raises _ _ Hn Hf) as [e ->].
  - split; [by left|done].
Qed.

(** A file of the dict that cannot be opened makes ld_prune raise. *)
Lemma ld_prune_open_raises df L cf :
  cf ∈ L → is_Some (open_error cf.2) → raises (ld_prune df L).
Proof.
  intros Hcf [e He]. unfold ld_prune, prune_keep. apply raises_bind.
  eapply for_each_raises; [done|]. intros keep.
  exists e. by apply prune_chrom_open_error.
Qed.

(** X6: on a table in the documented format ld_prune fails in two ways
    only. It passes on what [tabix.open] raises on a file of the dict
    (the file of every key is opened, with or without variants on its
    chromosome); and it raises NameError when a query issued for a variant
    on a chromosome of the dict raises TabixError or returns a record on
    which the parsing raises. It fails in no other case. *)
Theorem ld_prune_failure df L :
  wf_table df →
  (∀ e, ld_prune df L = Raise e →
        e = NameError ∨ ∃ cf, cf ∈ L ∧ open_error cf.2 = Some e) ∧
  (raises (ld_prune df L) ↔
   ∃ cf, cf ∈ L ∧
     (is_Some (open_error cf.2) ∨
      ∃ r, r ∈ on_chrom cf.1 df ∧
        (cf.2 cf.1 (end_ r - 1) (end_ r) = None ∨
         ∃ recs n, cf.2 cf.1 (end_ r - 1) (end_ r) = Some recs ∧ n ∈ recs ∧
                   fatal_record n))).
Proof.
  intros Hwf.
  assert (∀ e, ld_prune df L = Raise e →
    ∃ cf, cf ∈ L ∧
      (open_error cf.2 = Some e ∨
       (e = NameError ∧ ∃ r, r ∈ on_chrom cf.1 df ∧
          partners_at cf.2 cf.1 (end_ r) = None))) as Hinv.
  { intros e. unfold ld_prune.
    destruct (prune_keep df L) as [keep|e'] eqn:Hkeep; simpl; [done|].
    intros [= ->]. apply for_each_raises_inv in Hkeep as (cf & a & Hcf & Hc).
    exists cf. split; [done|]. unfold prune_chrom in Hc.
    destruct (tabix_open cf.2) as [f|e'] eqn:Ho; simpl in Hc.
    2:{ injection Hc as ->. left. by apply tabix_open_Raise. }
    apply tabix_open_Ok in Ho as [_ ->]. right.
    destruct (build_ld_d cf.2 cf.1 (on_chrom cf.1 df)) as [m|e'] eqn:Hm;
      simpl in Hc.
    - apply for_each_raises_inv in Hc as (sg & k & Hsg & Hk).
      destruct (most_sig_total (component_rows (on_chrom cf.1 df) cf.1 m sg))
        as [l Hl]; [by eapply component_rows_nonempty|].
      unfold keep_component in Hk. unfold component_rows in Hl.
      cbn [f_index frame_ix] in Hk. by rewrite Hl in Hk.
    - injection Hc as ->. apply for_each_raises_inv in Hm as (r & a' & Hr & Hq).
      rewrite prune_query_spec in Hq.
      destruct (partners_at cf.2 cf.1 (end_ r)) as [l|] eqn:Hp; [done|].
      injection Hq as <-. split; [done|]. by exists r. }
  split.
  { intros e (cf & Hcf & [Ho|[-> _]])%Hinv; [right; by exists cf|by left]. }
  split.
  - intros [e (cf & Hcf & [Ho|(_ & r & Hr & Hp)])%Hinv]; exists cf; (split; [done|]).
    + left. by rewrite Ho.
    + right. exists r. split; [done|]. by apply partners_at_None.
  - intros (cf & Hcf & [Ho|(r & Hr & Hp%partners_at_None)]).
    + by eapply ld_prune_open_raises.
    + eapply ld_prune_raises; [done..|]. intros m.
      by rewrite prune_query_spec, Hp.
Qed.

End MorePrune.

(** * Further properties of ld_expand *)

Section MoreExpand.
Context `{Builtins}.

Lemma for_each_blocks {A B} (blk : A → list B)
    (body : list B → A → result (list B)) xs acc out :
  (∀ a x a', x ∈ xs → body a x = Ok a' → a' = a ++ blk x) →
  for_each body acc xs = Ok out → out = acc ++ (xs ≫= blk).
Proof.
  revert acc. induction xs as [|x xs IH]; intros acc Hstep Hrun.
  - injection Hrun as <-. by rewrite app_nil_r.
  - rewrite for_each_cons in Hrun.
    destruct (body acc x) as [acc'|e] eqn:Hb; simpl in Hrun; [|done].
    rewrite (Hstep _ _ _ ltac:(by left) Hb) in Hrun.
    rewrite (IH _ ltac:(intros a y a' Hy; apply Hstep; by right) Hrun).
    by rewrite bind_cons, app_assoc.
Qed.

Lemma first_field_of_last n f : last n = Some f → ∃ c, first_field n = Ok c.
Proof. destruct n as [|c n]; [done|]. intros _. by exists c. Qed.

Lemma ld_partner_Ok_last n o : ld_partner n = Ok o → ∃ f, last n = Some f.
Proof.
  unfold ld_partner, last_field. destruct (last n) as [f|]; [by eexists|done].
Qed.

Lemma expand_record_Ok out n out' :
  expand_record out n = Ok out' → out' = out ++ option_list (partner_interval n).
Proof.
  unfold expand_record, partner_interval.
  destruct (ld_partner n) as [[p2|]|e] eqn:Hn; simpl; [| |done].
  - destruct (first_field n) as [c|e]; simpl; [|done]. by intros [= <-].
  - intros [= <-]. by rewrite app_nil_r.
Qed.

Lemma expand_record_Raise out n e :
  expand_record out n = Raise e → raises (ld_partner n).
Proof.
  unfold expand_record. destruct (ld_partner n) as [[p2|]|e'] eqn:Hn; simpl;
    [|done|by exists e'].
  destruct (ld_partner_Ok_last _ _ Hn) as [f Hf].
  by destruct (first_field_of_last _ _ Hf) as [c ->].
Qed.

Lemma list_bind_option_list {A B} (f : A → option B) (l : list A) :
  l ≫= (λ x, option_list (f x)) = omap f l.
Proof.
  induction l as [|x l IH]; [done|]. rewrite bind_cons, IH. simpl.
  by destruct (f x).
Qed.

Lemma expand_row_Ok t c out r out' :
  expand_row t c out r = Ok out' → out' = out ++ row_block t c r.
Proof.
  unfold expand_row, row_block. cbv zeta.
  destruct (t c (end_ r - 1) (end_ r)) as [recs|].
  - intros Hrun.
    apply (for_each_blocks (λ n, option_list (partner_interval n))) in Hrun as ->.
    + by rewrite list_bind_option_list, <- app_assoc.
    + intros a n a' _. apply expand_record_Ok.
  - by intros [= <-].
Qed.

Lemma expand_snps_Ok df L out_snps :
  expand_snps df L = Ok out_snps → out_snps = expand_all df L.
Proof.
  unfold expand_snps, expand_all. intros Hrun.
  apply (for_each_blocks (λ cf, on_chrom cf.1 df ≫= row_block cf.2 cf.1)) in Hrun
    as ->; [done|].
  intros a cf a' _. intros [_ Hc]%expand_chrom_Ok.
  apply (for_each_blocks (row_block cf.2 cf.1)) in Hc as ->; [done|].
  intros b r b' _. apply expand_row_Ok.
Qed.

Lemma expand_snps_Raise df L e :
  expand_snps df L = Raise e →
  ∃ cf, cf ∈ L ∧
    (open_error cf.2 = Some e ∨
     ∃ r recs n, r ∈ on_chrom cf.1 df ∧
       cf.2 cf.1 (end_ r - 1) (end_ r) = Some recs ∧ n ∈ recs ∧
       ld_partner n = Raise e ∧ fatal_record n).
Proof.
  unfold expand_snps. intros (cf & a & Hcf & Hc)%for_each_raises_inv.
  exists cf. split; [done|].
  apply expand_chrom_Raise in Hc as [Ho|[_ Hc]]; [by left|right].
  apply for_each_raises_inv in Hc as (r & b & Hr & Hrow).
  unfold expand_row in Hrow. cbv zeta in Hrow.
  destruct (cf.2 cf.1 (end_ r - 1) (end_ r)) as [recs|] eqn:Hq; [|done].
  apply for_each_raises_inv in Hrow as (n & k & Hn & Hrec).
  assert (ld_partner n = Raise e) as Hp.
  { unfold expand_record in Hrec.
    destruct (ld_partner n) as [[p2|]|e'] eqn:Hn'; simpl in Hrec;
      [|done|by injection Hrec as ->].
    destruct (ld_partner_Ok_last _ _ Hn') as [f Hf].
    by destruct (first_field_of_last _ _ Hf) as [c Hc]; rewrite Hc in Hrec. }
  exists r, recs, n. split_and!; [done..|].
  apply ld_partner_raises. by exists e.
Qed.

(** A file of the dict that cannot be opened makes ld_expand raise. *)
Lemma ld_expand_open_raises df L cf :
  cf ∈ L → is_Some (open_error cf.2) → raises (ld_expand df L).
Proof.
  intros Hcf [e He]. unfold ld_expand, expand_snps. apply raises_bind.
  eapply for_each_raises; [done|]. intros out.
  exists e. apply expand_chrom_Raise. by left.
Qed.

Lemma elem_of_expand_all df L i :
  i ∈ expand_all df L ↔
  ∃ cf r, cf ∈ L ∧ r ∈ on_chrom cf.1 df ∧
    (i = self_interval cf.1 r ∨
     ∃ recs n x c, cf.2 cf.1 (end_ r - 1) (end_ r) = Some recs ∧ n ∈ recs ∧
       ld_partner n = Ok (Some x) ∧ first_field n = Ok c ∧
       i = Interval c (x - 1) x (label c x)).
Proof.
  unfold expand_all. rewrite list_elem_of_bind.
  assert (∀ n, partner_interval n = Some i ↔
            ∃ x c, ld_partner n = Ok (Some x) ∧ first_field n = Ok c ∧
                   i = Interval c (x - 1) x (label c x)) as Hpi.
  { intros n. unfold partner_interval.
    destruct (ld_partner n) as [[x|]|]; [|naive_solver..].
    destruct (first_field n) as [c|]; naive_solver. }
  split.
  - intros (cf & (r & Hi & Hr)%list_elem_of_bind & Hcf).
    exists cf, r. split_and!; [done..|]. unfold row_block in Hi.
    apply elem_of_cons in Hi as [->|Hi]; [by left|right].
    destruct (cf.2 cf.1 (end_ r - 1) (end_ r)) as [recs|];
      [|by apply not_elem_of_nil in Hi].
    apply list_elem_of_omap in Hi as (n & Hn & (x & c & ? & ? & ?)%Hpi).
    by exists recs, n, x, c.
  - intros (cf & r & Hcf & Hr & Hi). exists cf. split; [|done].
    apply list_elem_of_bind. exists r. split; [|done]. unfold row_block.
    destruct Hi as [->|(recs & n & x & c & -> & Hn & Hx & Hc & ->)]; [by left|].
    right. apply list_elem_of_omap. exists n. split; [done|].
    apply Hpi. by exists x, c.
Qed.

(** X8: what ld_expand returns is a rearrangement of one block per variant on
    a chromosome of the dict: the variant's own interval and one interval
    per qualifying record of its query (none if the query fails), nothing
    else and nothing removed, duplicates included; and every interval is one
    base long. *)
Theorem ld_expand_intervals df L out :
  ld_expand df L = Ok out →
  out ≡ₚ expand_all df L ∧
  (∀ i, i ∈ out ↔
     ∃ cf r, cf ∈ L ∧ r ∈ on_chrom cf.1 df ∧
       (i = self_interval cf.1 r ∨
        ∃ recs n x c, cf.2 cf.1 (end_ r - 1) (end_ r) = Some recs ∧ n ∈ recs ∧
          ld_partner n = Ok (Some x) ∧ first_field n = Ok c ∧
          i = Interval c (x - 1) x (label c x))) ∧
  (∀ i, i ∈ out → iend i = istart i + 1).
Proof.
  unfold ld_expand. destruct (expand_snps df L) as [o|] eqn:Hs; simpl; [|done].
  intros [= <-]. apply expand_snps_Ok in Hs as ->.
  assert (bed_sort (expand_all df L) ≡ₚ expand_all df L) as Hp
    by apply merge_sort_Permutation.
  split_and!; [done| |].
  - intros i. by rewrite Hp, elem_of_expand_all.
  - intros i. rewrite Hp, elem_of_expand_all.
    intros (cf & r & _ & _ & [->|(? & ? & x & c & _ & _ & _ & _ & ->)]); simpl; lia.
Qed.

(** X9: on a table in the documented format ld_expand fails in two
    ways only. It passes on what [tabix.open] raises on a file of the
    dict (the file of every key is opened, with or without variants on
    its chromosome); and it passes on what the parsing raises on a record
    returned to a query issued for a variant on a chromosome of the dict.
    A query that raises TabixError is never a cause. *)
Theorem ld_expand_failure df L :
  wf_table df →
  (∀ e, ld_expand df L = Raise e →
     ∃ cf, cf ∈ L ∧
       (open_error cf.2 = Some e ∨
        ∃ r recs n, r ∈ on_chrom cf.1 df ∧
          cf.2 cf.1 (end_ r - 1) (end_ r) = Some recs ∧ n ∈ recs ∧
          ld_partner n = Raise e)) ∧
  (raises (ld_expand df L) ↔
   ∃ cf, cf ∈ L ∧
     (is_Some (open_error cf.2) ∨
      ∃ r recs n, r ∈ on_chrom cf.1 df ∧
        cf.2 cf.1 (end_ r - 1) (end_ r) = Some recs ∧ n ∈ recs ∧
        fatal_record n)).
Proof.
  intros _.
  assert (∀ e, ld_expand df L = Raise e → expand_snps df L = Raise e) as Hsn.
  { intros e. unfold ld_expand.
    destruct (expand_snps df L) as [o|e']; simpl; [done|by intros [= ->]]. }
  split_and!.
  - intros e (cf & Hcf & [Ho|(r & recs & n & ? & ? & ? & ? & _)])%Hsn%expand_snps_Raise;
      exists cf; (split; [done|]); [by left|right]. by exists r, recs, n.
  - split.
    + intros [e (cf & Hcf & [Ho|(r & recs & n & ? & ? & ? & _ & ?)])%Hsn%expand_snps_Raise];
        exists cf; (split; [done|]); [left; by rewrite Ho|right].
      by exists r, recs, n.
    + intros (cf & Hcf & [Ho|(r & recs & n & Hr & Hq & Hn & Hf%ld_partner_raises)]).
      * by eapply ld_expand_open_raises.
      * by eapply ld_expand_raises.
Qed.

(** X10: the order in which [ld_beds.keys()] yields the chromosomes changes the
    output of ld_expand by a rearrangement at most. *)
Theorem ld_expand_key_order df L L' out :
  L ≡ₚ L' → ld_expand df L = Ok out →
  ∃ out', ld_expand df L' = Ok out' ∧ out' ≡ₚ out.
Proof.
  intros HL Hrun.
  destruct (ld_expand df L') as [out'|e] eqn:Hrun'.
  - exists out'. split; [done|].
    unfold ld_expand in Hrun, Hrun'.
    destruct (expand_snps df L) as [o|] eqn:Hs; simpl in Hrun; [|done].
    destruct (expand_snps df L') as [o'|] eqn:Hs'; simpl in Hrun'; [|done].
    injection Hrun as <-. injection Hrun' as <-.
    apply expand_snps_Ok in Hs as ->. apply expand_snps_Ok in Hs' as ->.
    unfold bed_sort. rewrite !merge_sort_Permutation. unfold expand_all.
    by rewrite HL.
  - unfold ld_expand in Hrun'.
    destruct (expand_snps df L') as [o'|e'] eqn:Hs'; simpl in Hrun'; [done|].
    apply expand_snps_Raise in Hs' as (cf & Hcf & Hwhy).
    rewrite <- HL in Hcf.
    assert (raises (ld_expand df L)) as [e'' He''].
    { destruct Hwhy as [Ho|(r & recs & n & Hr & Hq & Hn & _ & Hf%ld_partner_raises)].
      - eapply ld_expand_open_raises; [done|]. by rewrite Ho.
      - by eapply ld_expand_raises. }
    by rewrite He'' in Hrun.
Qed.

End MoreExpand.

(** * The GWAS tables *)

(** ** Dropping duplicates *)

Section DropDuplicates.
Context {A K : Type} `{EqDecision K} (key : A → K).

Lemma drop_duplicates_from_spec seen l :
  NoDup (key <$> drop_duplicates_from key seen l) ∧
  ∀ x, x ∈ drop_duplicates_from key seen l → x ∈ l ∧ key x ∉ seen.
Proof.
  revert seen. induction l as [|a l IH]; intros seen; simpl.
  - split; [constructor|]. by intros x ?%not_elem_of_nil.
  - destruct (decide (key a ∈ seen)) as [Ha|Ha].
    + destruct (IH seen) as [Hn Hin]. split; [done|].
      intros x Hx. destruct (Hin x Hx). split; [by right|done].
    + destruct (IH (key a :: seen)) as [Hn Hin]. split.
      * rewrite fmap_cons. apply NoDup_cons. split; [|done].
        intros (x & Hk & Hx)%list_elem_of_fmap.
        destruct (Hin x Hx) as [_ Hs]. apply Hs. rewrite Hk. by left.
      * intros x [->|Hx]%elem_of_cons; [split; [by left|done]|].
        destruct (Hin x Hx) as [? Hs]. split; [by right|].
        intros ?. apply Hs. by right.
Qed.

(** Of the rows that share a key, one that stands before all others is
    kept: on a list sorted by [R] it is [R]-below each of them. *)
Lemma drop_duplicates_from_first (R : relation A) `{!Reflexive R} seen l x :
  StronglySorted R l → x ∈ l → key x ∉ seen →
  ∃ y, y ∈ drop_duplicates_from key seen l ∧ key y = key x ∧ R y x.
Proof.
  revert seen. induction l as [|a l IH]; intros seen Hs Hx Hk;
    [by apply not_elem_of_nil in Hx|].
  apply StronglySorted_inv in Hs as [Hs Ha]. rewrite Forall_forall in Ha. simpl.
  destruct (decide (key a ∈ seen)) as [Hin|Hin].
  - apply elem_of_cons in Hx as [->|Hx]; [done|]. by apply IH.
  - destruct (decide (key x = key a)) as [He|Hne].
    + exists a. split_and!; [by left|done|].
      apply elem_of_cons in Hx as [->|Hx]; [done|by apply Ha].
    + apply elem_of_cons in Hx as [->|Hx]; [done|].
      destruct (IH (key a :: seen) Hs Hx) as (y & Hy & ? & ?).
      { by intros [?|?]%elem_of_cons. }
      exists y. split; [by right|done].
Qed.

Lemma drop_duplicates_NoDup l : NoDup (key <$> drop_duplicates key l).
Proof. apply drop_duplicates_from_spec. Qed.

Lemma drop_duplicates_elem l x : x ∈ drop_duplicates key l → x ∈ l.
Proof. intros Hx. by apply drop_duplicates_from_spec in Hx as [? _]. Qed.

Lemma drop_duplicates_first (R : relation A) `{!Reflexive R} l x :
  StronglySorted R l → x ∈ l →
  ∃ y, y ∈ drop_duplicates key l ∧ key y = key x ∧ R y x.
Proof.
  intros Hs Hx. apply drop_duplicates_from_first; [done..|apply not_elem_of_nil].
Qed.

End DropDuplicates.

(** ** Sorting on three columns and keeping the first of each group *)

Lemma NoDup_fmap_through {A K B} (key : A → K) (f : A → B) (l : list A) :
  (∀ x y, f x = f y → key x = key y) →
  NoDup (key <$> l) → NoDup (f <$> l).
Proof.
  intros Hf. induction l as [|a l IH]; [constructor|].
  rewrite !fmap_cons, !NoDup_cons. intros [Ha Hl]. split; [|by apply IH].
  intros (y & Hy & Hin)%list_elem_of_fmap. apply Ha.
  apply list_elem_of_fmap. exists y. split; [by apply Hf|done].
Qed.

Section ColumnsLe.
Context {A : Type} (chr_le : relation string) `{!RelDecision chr_le}.
Context `{!PartialOrder chr_le, !Total chr_le}.
Context (c : A → string) (p : A → Z) (v : A → Qc).

Local Instance columns_le_refl : Reflexive (columns_le chr_le c p v).
Proof.
  intros a. split; [done|]. intros _. right. split; [done|]. apply Qcle_refl.
Qed.

Local Instance columns_le_trans : Transitive (columns_le chr_le c p v).
Proof.
  intros x y z [Hxy Hxy'] [Hyz Hyz']. split; [by etrans|].
  intros Hxz. rewrite <-Hxz in Hyz.
  assert (c x = c y) as He by by apply (anti_symm chr_le).
  destruct (Hxy' He) as [?|[? ?]]; (destruct Hyz' as [?|[? ?]]; [congruence|..]);
    [left; lia|left; lia|left; lia|].
  right. split; [lia|]. by eapply Qcle_trans.
Qed.

Local Instance columns_le_total : Total (columns_le chr_le c p v).
Proof.
  intros x y. unfold columns_le.
  destruct (decide (c x = c y)) as [He|Hne].
  - rewrite He.
    destruct (Z.lt_trichotomy (p x) (p y)) as [?|[?|?]].
    + left. split; [done|]. intros _. by left.
    + destruct (Qclt_le_dec (v y) (v x)) as [?%Qclt_le_weak|?].
      * right. split; [done|]. intros _. by right.
      * left. split; [done|]. intros _. by right.
    + right. split; [done|]. intros _. by left.
  - destruct (total chr_le (c x) (c y)); [left|right];
      (split; [done|congruence]).
Qed.

(** After the sort, [drop_duplicates] on the first two columns keeps, for
    every row, a row of the same group whose third column is no larger. *)
Lemma sorted_group_minimum (l : list A) (x : A) :
  x ∈ l →
  ∃ y, y ∈ drop_duplicates (λ a, (c a, p a))
             (merge_sort (columns_le chr_le c p v) l) ∧
       y ∈ l ∧ c y = c x ∧ p y = p x ∧ (v y ≤ v x)%Qc.
Proof.
  intros Hx.
  destruct (drop_duplicates_first (λ a, (c a, p a))
              (columns_le chr_le c p v)
              (merge_sort (columns_le chr_le c p v) l) x)
    as (y & Hy & Hk & [_ Hle]);
    [apply StronglySorted_merge_sort; apply _
    |by rewrite merge_sort_Permutation|].
  injection Hk as Hc Hp. exists y. split_and!; [done| |done|done|].
  - apply drop_duplicates_elem in Hy. by rewrite merge_sort_Permutation in Hy.
  - destruct (Hle Hc) as [?|[_ ?]]; [lia|done].
Qed.

End ColumnsLe.

(** ** parse_grasp_gwas *)

Section GraspFacts.
Context (chr_le : relation string) `{!RelDecision chr_le}.

Lemma grasp_variant_key_inj g1 g2 :
  idx (grasp_variant g1) = idx (grasp_variant g2) →
  (chr_hg19 g1, pos_hg19 g1) = (chr_hg19 g2, pos_hg19 g2).
Proof.
  unfold grasp_variant. cbn [idx].
  intros [Hc ->]%label_pair_inj. by apply (inj (String.app "chr")) in Hc as ->.
Qed.

Lemma elem_of_parse_grasp_gwas table r :
  r ∈ parse_grasp_gwas chr_le table →
  ∃ g, r = grasp_variant g ∧ g ∈ table ∧ (Pvalue g < sig_cutoff)%Qc ∧
       chr_hg19 g ≠ "Y".
Proof.
  unfold parse_grasp_gwas. cbv zeta.
  intros (g & -> & [Hy Hg%drop_duplicates_elem]%list_elem_of_filter)%list_elem_of_fmap.
  rewrite merge_sort_Permutation in Hg.
  apply list_elem_of_filter in Hg as [? ?]. by exists g.
Qed.

Lemma parse_grasp_gwas_NoDup table :
  NoDup (idx <$> parse_grasp_gwas chr_le table).
Proof.
  unfold parse_grasp_gwas. cbv zeta. rewrite <-list_fmap_compose.
  apply (NoDup_fmap_through (λ g, (chr_hg19 g, pos_hg19 g))).
  - intros g1 g2. apply grasp_variant_key_inj.
  - apply NoDup_fmap_filter, drop_duplicates_NoDup.
Qed.

Lemma parse_grasp_gwas_wf table : wf_table (parse_grasp_gwas chr_le table).
Proof.
  split; [apply parse_grasp_gwas_NoDup|].
  by intros r (g & -> & _)%elem_of_parse_grasp_gwas.
Qed.

(** X11: whatever the table read from the file and whatever the order of
    its chromosome column, parse_grasp_gwas returns a table in the format
    that ld_prune and ld_expand document: the index is unique and reads
    chrom:end. Each row is the one-base interval from end - 1 to end of a
    record of the file with p-value below 1e-5, and none is on chrY. *)
Theorem parse_grasp_gwas_format table :
  wf_table (parse_grasp_gwas chr_le table) ∧
  ∀ r, r ∈ parse_grasp_gwas chr_le table →
    start r = end_ r - 1 ∧ (pvalue r < sig_cutoff)%Qc ∧ chrom r ≠ "chrY" ∧
    ∃ g, g ∈ table ∧ r = grasp_variant g.
Proof.
  split; [apply parse_grasp_gwas_wf|].
  intros r (g & -> & Hg & Hp & Hy)%elem_of_parse_grasp_gwas.
  split_and!; [done|done| |by exists g].
  cbn [chrom grasp_variant]. intros He.
  by apply (inj (String.app "chr") _ "Y") in He.
Qed.

(** X12: of the records of the file that report one position with a
    p-value below 1e-5, parse_grasp_gwas keeps the most significant: a
    record that is significant and not on Y has its position in the index
    of the result, in exactly one row, whose p-value is no larger than the
    record's. The chromosome column may be ordered by any total order. *)
Theorem parse_grasp_gwas_most_significant
    `{!PartialOrder chr_le, !Total chr_le} table g :
  g ∈ table → (Pvalue g < sig_cutoff)%Qc → chr_hg19 g ≠ "Y" →
  ∃ r, r ∈ parse_grasp_gwas chr_le table ∧
       idx r = label ("chr" +:+ chr_hg19 g) (pos_hg19 g) ∧
       chrom r = "chr" +:+ chr_hg19 g ∧ end_ r = pos_hg19 g ∧
       (pvalue r ≤ Pvalue g)%Qc ∧
       ∀ r', r' ∈ parse_grasp_gwas chr_le table → idx r' = idx r → r' = r.
Proof.
  intros Hg Hp Hy.
  destruct (sorted_group_minimum chr_le chr_hg19 pos_hg19 Pvalue
              (filter (λ g, (Pvalue g < sig_cutoff)%Qc) table) g)
    as (y & Hy' & _ & Hc & Hpos & Hle); [by apply list_elem_of_filter|].
  assert (grasp_variant y ∈ parse_grasp_gwas chr_le table) as Hin.
  { unfold parse_grasp_gwas. cbv zeta. apply list_elem_of_fmap. exists y.
    split; [done|]. apply list_elem_of_filter. split; [congruence|done]. }
  exists (grasp_variant y). split_and!; [done|..].
  - cbn [idx grasp_variant]. by rewrite Hc, Hpos.
  - cbn [chrom grasp_variant]. by rewrite Hc.
  - done.
  - done.
  - intros r' Hr' Hi.
    by eapply NoDup_idx_inj; [apply parse_grasp_gwas_NoDup|..].
Qed.

End GraspFacts.

(** ** parse_roadmap_gwas *)

Lemma elem_of_parse_roadmap_gwas table r :
  r ∈ parse_roadmap_gwas table →
  ∃ g, r = roadmap_variant g ∧ g ∈ table ∧ (rm_pvalue g < sig_cutoff)%Qc ∧
       rm_chrom g ≠ "chrY".
Proof.
  unfold parse_roadmap_gwas. cbv zeta.
  intros (g & -> & [Hy Hg%drop_duplicates_elem]%list_elem_of_filter)%list_elem_of_fmap.
  rewrite merge_sort_Permutation in Hg.
  apply list_elem_of_filter in Hg as [? ?]. by exists g.
Qed.

Lemma parse_roadmap_gwas_kept table g :
  g ∈ table → (rm_pvalue g < sig_cutoff)%Qc → rm_chrom g ≠ "chrY" →
  ∃ y, roadmap_variant y ∈ parse_roadmap_gwas table ∧ y ∈ table ∧
       rm_chrom y = rm_chrom g ∧ rm_start y = rm_start g ∧
       (rm_pvalue y ≤ rm_pvalue g)%Qc.
Proof.
  intros Hg Hp Hy.
  destruct (sorted_group_minimum String.le rm_chrom rm_start rm_pvalue
              (filter (λ g, (rm_pvalue g < sig_cutoff)%Qc) table) g)
    as (y & Hy' & [_ Hyt]%list_elem_of_filter & Hc & Hpos & Hle);
    [by apply list_elem_of_filter|].
  exists y. split_and!; [|done..].
  unfold parse_roadmap_gwas. cbv zeta. apply list_elem_of_fmap. exists y.
  split; [done|]. apply list_elem_of_filter. split; [congruence|done].
Qed.

Lemma parse_roadmap_gwas_keys table :
  NoDup ((λ r, (chrom r, start r)) <$> parse_roadmap_gwas table).
Proof.
  unfold parse_roadmap_gwas. cbv zeta. rewrite <-list_fmap_compose.
  apply (NoDup_fmap_filter (λ g, (rm_chrom g, rm_start g))),
    drop_duplicates_NoDup.
Qed.

(** X13: parse_roadmap_gwas keeps one row for each pair (chrom, start) of
    a significant record off chrY, a row of the file that is a most
    significant one of the pair; every row it returns is a row of the
    file, unchanged, with p-value below 1e-5, not on chrY, under the label
    chrom:end. *)
Theorem parse_roadmap_gwas_rows table :
  NoDup ((λ r, (chrom r, start r)) <$> parse_roadmap_gwas table) ∧
  (∀ r, r ∈ parse_roadmap_gwas table →
     idx r = label (chrom r) (end_ r) ∧ (pvalue r < sig_cutoff)%Qc ∧
     chrom r ≠ "chrY" ∧ ∃ g, g ∈ table ∧ r = roadmap_variant g) ∧
  (∀ g, g ∈ table → (rm_pvalue g < sig_cutoff)%Qc → rm_chrom g ≠ "chrY" →
     ∃ r, r ∈ parse_roadmap_gwas table ∧ chrom r = rm_chrom g ∧
          start r = rm_start g ∧ (pvalue r ≤ rm_pvalue g)%Qc).
Proof.
  split_and!.
  - apply parse_roadmap_gwas_keys.
  - intros r (g & -> & Hg & Hp & Hy)%elem_of_parse_roadmap_gwas.
    split_and!; [done..|by exists g].
  - intros g Hg Hp Hy.
    destruct (parse_roadmap_gwas_kept table g) as (y & ? & ? & ? & ? & ?);
      [done..|].
    by exists (roadmap_variant y).
Qed.

(** X14: the index of the table that parse_roadmap_gwas returns is built
    from the end column while duplicates are dropped on the start column.
    When no two records of one chromosome share their end without sharing
    their start (as when every record is a one-base interval), the result
    is in the format that ld_prune and ld_expand document. *)
Theorem parse_roadmap_gwas_format table :
  (∀ g1 g2, g1 ∈ table → g2 ∈ table → rm_chrom g1 = rm_chrom g2 →
            rm_end g1 = rm_end g2 → rm_start g1 = rm_start g2) →
  wf_table (parse_roadmap_gwas table).
Proof.
  intros Hend. split.
  - assert (∀ x y,
      x ∈ parse_roadmap_gwas table → y ∈ parse_roadmap_gwas table →
      idx x = idx y → x = y) as Hinj.
    { intros x y Hx Hy Hi.
      pose proof (parse_roadmap_gwas_keys table) as Hn.
      destruct (elem_of_parse_roadmap_gwas _ _ Hx) as (g1 & -> & Hg1 & _).
      destruct (elem_of_parse_roadmap_gwas _ _ Hy) as (g2 & -> & Hg2 & _).
      cbn [idx roadmap_variant] in Hi.
      apply label_pair_inj in Hi as [Hc He].
      pose proof (Hend g1 g2 Hg1 Hg2 Hc He) as Hs.
      apply list_elem_of_lookup in Hx as [i Hi], Hy as [j Hj].
      assert (i = j) as ->; [|congruence].
      eapply NoDup_lookup; [exact Hn|..];
        rewrite list_lookup_fmap; [rewrite Hi|rewrite Hj]; simpl; [done|].
      by rewrite Hc, Hs. }
    apply NoDup_fmap_2_strong; [done|].
    eapply NoDup_fmap_1, parse_roadmap_gwas_keys.
  - by intros r (g & -> & _)%elem_of_parse_roadmap_gwas.
Qed.

(** X15: parse_roadmap_gwas can return an index with a repeated label.
    Two significant records off chrY of one chromosome that end at the
    same position and start at different ones, each the only record of
    its (chrom, start) pair, are both kept, under the same label. *)
Theorem parse_roadmap_gwas_index_collision table g1 g2 :
  g1 ∈ table → g2 ∈ table →
  (rm_pvalue g1 < sig_cutoff)%Qc → (rm_pvalue g2 < sig_cutoff)%Qc →
  rm_chrom g1 ≠ "chrY" → rm_chrom g1 = rm_chrom g2 →
  rm_end g1 = rm_end g2 → rm_start g1 ≠ rm_start g2 →
  (∀ g, g ∈ table → rm_chrom g = rm_chrom g1 →
        rm_start g = rm_start g1 ∨ rm_start g = rm_start g2 →
        g = g1 ∨ g = g2) →
  roadmap_variant g1 ∈ parse_roadmap_gwas table ∧
  roadmap_variant g2 ∈ parse_roadmap_gwas table ∧
  idx (roadmap_variant g1) = idx (roadmap_variant g2) ∧
  ¬ wf_table (parse_roadmap_gwas table).
Proof.
  intros Hg1 Hg2 Hp1 Hp2 Hy Hc He Hs Hsole.
  assert (roadmap_variant g1 ∈ parse_roadmap_gwas table) as H1.
  { destruct (parse_roadmap_gwas_kept table g1) as (y & Hin & Hyt & Hyc & Hys & _);
      [done..|].
    destruct (Hsole y Hyt Hyc) as [->| ->]; [by left|done|congruence]. }
  assert (roadmap_variant g2 ∈ parse_roadmap_gwas table) as H2.
  { destruct (parse_roadmap_gwas_kept table g2) as (y & Hin & Hyt & Hyc & Hys & _);
      [done|done|congruence|].
    destruct (Hsole y Hyt) as [->| ->]; [congruence|by right|congruence|done]. }
  assert (idx (roadmap_variant g1) = idx (roadmap_variant g2)) as Hi.
  { cbn [idx roadmap_variant]. by rewrite Hc, He. }
  split_and!; [done..|].
  intros [Hn _]. apply Hs.
  exact (f_equal start (NoDup_idx_inj _ _ _ Hn H1 H2 Hi)).
Qed.

(** ** The command of make_grasp_phenotype_file *)

Lemma quotes_app (s t : string) : quotes (s +:+ t) = (quotes s + quotes t)%nat.
Proof.
  induction s as [|a s IH]; [done|]. rewrite append_cons. simpl.
  rewrite IH. lia.
Qed.

Lemma append_assoc (s t u : string) : s +:+ t +:+ u = (s +:+ t) +:+ u.
Proof.
  induction s as [|a s IH]; [done|]. by rewrite !append_cons, IH.
Qed.

Lemma replace_quote_app new (s t : string) :
  replace_quote new (s +:+ t) = replace_quote new s +:+ replace_quote new t.
Proof.
  induction s as [|a s IH]; [done|]. rewrite append_cons. simpl.
  destruct (decide _); rewrite IH; [|done]. apply append_assoc.
Qed.

Lemma replace_quote_quotes new (s : string) :
  quotes new = 0%nat → quotes (replace_quote new s) = 0%nat.
Proof.
  intros Hnew. induction s as [|a s IH]; [done|]. simpl.
  destruct (decide _) as [?|?]; [rewrite quotes_app; lia|].
  simpl. by rewrite decide_False.
Qed.

Lemma replace_quote_id new (s : string) :
  quotes s = 0%nat → replace_quote new s = s.
Proof.
  induction s as [|a s IH]; [done|]. simpl.
  destruct (decide _); [done|]. intros Hs. by rewrite IH.
Qed.

(** X18: the phenotype never puts a single quote into the command: the
    escaped phenotype has none, so the command has the two quotes of the
    awk program and those of the two file names, whatever the phenotype;
    a phenotype without a single quote goes in unchanged. *)
Theorem phenotype_never_closes_quote fn pheno out :
  quotes (replace_quote "\x27" pheno) = 0%nat ∧
  quotes (make_grasp_phenotype_file fn pheno out)
    = (2 + quotes fn + quotes out)%nat ∧
  (quotes pheno = 0%nat →
   make_grasp_phenotype_file fn pheno out =
     "awk -F " +:+ dquote +:+ "\t" +:+ dquote +:+ " 'NR == 1 || $12 == " +:+
     dquote +:+ pheno +:+ dquote +:+ " ' " +:+ fn +:+ " > " +:+ out).
Proof.
  assert (quotes (replace_quote "\x27" pheno) = 0%nat) as Hq
    by by apply replace_quote_quotes.
  split_and!; [done| |].
  - unfold make_grasp_phenotype_file. rewrite !quotes_app, Hq.
    change (quotes "awk -F ") with 0%nat. change (quotes dquote) with 0%nat.
    change (quotes "\t") with 0%nat.
    change (quotes " 'NR == 1 || $12 == ") with 1%nat.
    change (quotes " ' ") with 1%nat. change (quotes " > ") with 0%nat. lia.
  - intros Hp. unfold make_grasp_phenotype_file. by rewrite replace_quote_id.
Qed.

(** X19: the escaping loses information: a phenotype with a single quote
    and the phenotype that has the four characters \x27 in its place are
    different and give the same command. *)
Theorem phenotype_escape_collision fn out (s t : string) :
  s +:+ "'" +:+ t ≠ s +:+ "\x27" +:+ t ∧
  make_grasp_phenotype_file fn (s +:+ "'" +:+ t) out
    = make_grasp_phenotype_file fn (s +:+ "\x27" +:+ t) out.
Proof.
  split.
  - intros He. apply (inj (String.app s)) in He. by rewrite !append_cons in He.
  - unfold make_grasp_phenotype_file. by rewrite !replace_quote_app.
Qed.

(** ** A parsed GRASP table as the input of ld_prune and ld_expand *)

Section GwasThenLd.
Context `{Builtins, PySet, GraphLib}.
Context (chr_le : relation string) `{!RelDecision chr_le}.

(** X16: the table that parse_grasp_gwas returns can be handed to ld_prune
    as it is: whatever the file held, when the pruning returns, its
    output is in the documented format, its rows are significant variants
    of the file, and pruning it again returns the same rows, possibly in
    another order. *)
Theorem prune_of_parsed_grasp table L out :
  NoDup L.*1 →
  ld_prune (parse_grasp_gwas chr_le table) L = Ok out →
  wf_table out ∧
  (∀ r, r ∈ out →
     r ∈ parse_grasp_gwas chr_le table ∧ (pvalue r < sig_cutoff)%Qc ∧
     ∃ g, g ∈ table ∧ r = grasp_variant g) ∧
  ∃ out', ld_prune out L = Ok out' ∧ out' ≡ₚ out.
Proof.
  intros HL (keep & Hkeep & ->)%ld_prune_unfold.
  pose proof (parse_grasp_gwas_wf chr_le table) as Hwf.
  split_and!.
  - by eapply pruned_wf.
  - intros r [Hr _]%pruned_rows. split; [done|].
    destruct (elem_of_parse_grasp_gwas _ _ _ Hr) as (g & -> & ? & ? & _).
    split; [done|by exists g].
  - by apply pruned_again.
Qed.

(** X17: ld_expand on the table that parse_grasp_gwas returns: when it
    returns, the output holds, for every parsed variant on a chromosome of
    the dict, the BED line made of the variant's own columns chrom, start
    and end under its index label. *)
Theorem expand_of_parsed_grasp table L out r :
  ld_expand (parse_grasp_gwas chr_le table) L = Ok out →
  r ∈ parse_grasp_gwas chr_le table → chrom r ∈ L.*1 →
  Interval (chrom r) (start r) (end_ r) (idx r) ∈ out.
Proof.
  intros Hrun Hr (cf & Hc & Hcf)%list_elem_of_fmap.
  unfold ld_expand in Hrun.
  destruct (expand_snps _ L) as [o|] eqn:Hs; simpl in Hrun; [|done].
  injection Hrun as <-. apply expand_snps_Ok in Hs as ->.
  unfold bed_sort. rewrite merge_sort_Permutation.
  apply elem_of_expand_all. exists cf, r. split_and!; [done| |left].
  - by apply elem_of_on_chrom.
  - destruct (elem_of_parse_grasp_gwas _ _ _ Hr) as (g & -> & _).
    unfold self_interval. rewrite <-Hc. cbn. done.
Qed.

End GwasThenLd.

(** ** Expanding what ld_prune returns *)

Section PruneThenExpand.
Context `{Builtins, PySet, GraphLib}.

Lemma prune_Ok_expand_Ok df L out :
  ld_prune df L = Ok out → ∃ e, ld_expand df L = Ok e.
Proof.
  intros Hrun. destruct (ld_expand df L) as [e|x] eqn:He; [by exists e|].
  unfold ld_expand in He.
  destruct (expand_snps df L) as [o|x'] eqn:Hs; simpl in He; [done|].
  apply expand_snps_Raise in Hs
    as (cf & Hcf & [Ho|(r & recs & n & Hr & Hq & Hn & _ & Hf)]).
  { apply ld_prune_unfold in Hrun as (keep & Hkeep & _).
    by rewrite (prune_keep_opened _ _ _ _ Hkeep Hcf) in Ho. }
  assert (raises (ld_prune df L)) as [x'' Hx].
  { eapply ld_prune_raises; [done..|]. intros m.
    rewrite prune_query_spec.
    assert (partners_at cf.2 cf.1 (end_ r) = None) as ->; [|by eexists].
    apply partners_at_None. right. by exists recs, n. }
  by rewrite Hx in Hrun.
Qed.

(** X20: when ld_prune returns on a table in the documented format,
    ld_expand returns for the same table and for the pruned one, and every
    interval of the expansion of the pruned table is an interval of the
    expansion of the whole table. *)
Theorem expand_of_pruned df L out :
  wf_table df → NoDup L.*1 → ld_prune df L = Ok out →
  ∃ e e', ld_expand df L = Ok e ∧ ld_expand out L = Ok e' ∧
          ∀ i, i ∈ e' → i ∈ e.
Proof.
  intros Hwf HL Hrun.
  destruct (prune_Ok_expand_Ok _ _ _ Hrun) as [e He].
  pose proof Hrun as (keep & Hkeep & ->)%ld_prune_unfold.
  destruct (pruned_again _ _ _ Hwf HL Hkeep) as (out' & Hagain & _).
  destruct (prune_Ok_expand_Ok _ L _ Hagain) as [e' He'].
  exists e, e'. split_and!; [done..|]. intros i.
  unfold ld_expand in He, He'.
  destruct (expand_snps df L) as [o|] eqn:Hs; simpl in He; [|done].
  destruct (expand_snps (ix_rows _ _) L) as [o'|] eqn:Hs'; simpl in He'; [|done].
  injection He as <-. injection He' as <-.
  apply expand_snps_Ok in Hs as ->. apply expand_snps_Ok in Hs' as ->.
  unfold bed_sort. rewrite !merge_sort_Permutation, !elem_of_expand_all.
  intros (cf & r & Hcf & [[Hr _]%pruned_rows Hc]%elem_of_on_chrom & Hi).
  exists cf, r. split_and!; [done| |done]. by apply elem_of_on_chrom.
Qed.

End PruneThenExpand.

(** ** liftover_bed never returns *)

Section LiftoverFacts.
Context {E B V F : Type}.
Context (tmp_mapped tmp_unmapped : E + string).
Context (BedTool : string → E + B) (bt_sort : B → E + B) (bt_fn : B → string).

Local Abbreviation lift rest :=
  (liftover_bed tmp_mapped tmp_unmapped BedTool bt_sort bt_fn rest).

(** X21: liftover_bed returns for no arguments, whatever the libraries
    and the statements after the command do: the module never binds the
    name subprocess, which the function reads to run the command, so the
    command is never run. When the library calls before that point
    return, the call ends in UnboundLocalError if [bed] is not a str, its
    variable bt never having been assigned, and in NameError if it is. *)
Theorem liftover_bed_always_raises
    (rest : string → B → string → string → lift_result E F)
    (bed : string + V) chain liftOver mapped unmapped :
  (∃ e, lift rest bed chain liftOver mapped unmapped = Raised e) ∧
  (∀ rest', lift rest' bed chain liftOver mapped unmapped
            = lift rest bed chain liftOver mapped unmapped) ∧
  (∀ mname uname,
     chosen_name mapped tmp_mapped = inr mname →
     chosen_name unmapped tmp_unmapped = inr uname →
     (∀ v, bed = inr v →
        lift rest bed chain liftOver mapped unmapped = Raised UnboundLocalError) ∧
     (∀ path b b', bed = inl path → BedTool path = inr b → bt_sort b = inr b' →
        lift rest bed chain liftOver mapped unmapped = Raised GlobalNameError)).
Proof.
  assert (∀ k : unit → lift_result E F,
            lift_bind (global_name "subprocess") k = Raised GlobalNameError)
    as Hname.
  { intros k. unfold global_name. by rewrite decide_False by compute_done. }
  assert (∀ rest' : string → B → string → string → lift_result E F,
            ∃ e, lift rest' bed chain liftOver mapped unmapped = Raised e ∧
            lift rest bed chain liftOver mapped unmapped = Raised e) as Hall.
  { intros rest'. unfold liftover_bed. cbv zeta.
    destruct mapped as [m|]; [|destruct tmp_mapped as [e|m]]; cbn [lift_bind lib_call];
      [|by eexists|];
      (destruct unmapped as [u|]; [|destruct tmp_unmapped as [e'|u]]; cbn [lift_bind lib_call];
        [|by eexists|]);
      (destruct bed as [path|v]; cbn [lift_bind lib_call]; [|by eexists]);
      (destruct (BedTool path) as [e''|b]; cbn [lift_bind lib_call]; [by eexists|]);
      (destruct (bt_sort b) as [e3|b']; cbn [lift_bind lib_call]; [by eexists|]);
      rewrite !Hname; by eexists. }
  split_and!.
  - destruct (Hall rest) as (e & _ & He). by exists e.
  - intros rest'. destruct (Hall rest') as (e & -> & ->). done.
  - intros mname uname Hm Hu. unfold liftover_bed. cbv zeta.
    assert (∀ A (k : string → lift_result E A),
      lift_bind (match mapped with
                 | None => lib_call tmp_mapped | Some m => Returned m end) k
      = k mname) as ->.
    { intros A k. destruct mapped; simpl in Hm; [by injection Hm as ->|].
      by rewrite Hm. }
    assert (∀ A (k : string → lift_result E A),
      lift_bind (match unmapped with
                 | None => lib_call tmp_unmapped | Some u => Returned u end) k
      = k uname) as ->.
    { intros A k. destruct unmapped; simpl in Hu; [by injection Hu as ->|].
      by rewrite Hu. }
    split.
    + by intros v ->.
    + intros path b b' -> Hb Hb'. cbn [lift_bind lib_call]. rewrite Hb.
      cbn [lift_bind lib_call]. rewrite Hb'. cbn [lift_bind lib_call].
      apply Hname.
Qed.

End LiftoverFacts.

(** * The further properties on concrete inputs *)

Lemma lone_variant_wf : wf_table lone_variant.
Proof. wf_by_cases lone_variant. Qed.

Lemma ld_prune_output_wf_witness :
  wf_table trio ∧
  ref_prune trio trio_sources = Ok [variant "chr1" 105 (1 # 1000)] ∧
  wf_table [variant "chr1" 105 (1 # 1000)] ∧
  NoDup [variant "chr1" 105 (1 # 1000)] ∧
  ∀ r, r ∈ [variant "chr1" 105 (1 # 1000)] → r ∈ trio.
Proof.
  assert (ref_prune trio trio_sources = Ok [variant "chr1" 105 (1 # 1000)]) as Hrun
    by (vm_compute; reflexivity).
  split_and!; [apply trio_wf|exact Hrun|..];
    apply (@ld_prune_output_wf dec_builtins elements_order bfs_graphlib
             trio trio_sources _ trio_wf Hrun).
Defined.


Lemma kept_variants_not_linked_witness :
  wf_table self_linked ∧ NoDup [("chr1", self_file)].*1 ∧
  ref_keep self_linked [("chr1", self_file)] = Ok self_kept ∧
  ("chr1", self_file) ∈ [("chr1", self_file)] ∧
  ref_build self_file "chr1" (on_chrom "chr1" self_linked) = Ok self_ld_d ∧
  variant "chr1" 100 (1 # 100) ∈ on_chrom "chr1" self_linked ∧
  idx (variant "chr1" 100 (1 # 100)) ∈ self_kept ∧
  100 ∈ ld_cols self_ld_d ∧ 100 ∈ self_ld_d !!! 100 ∧
  (100 ∈ ld_cols self_ld_d → 100 ∈ self_ld_d !!! 100 →
   variant "chr1" 100 (1 # 100) = variant "chr1" 100 (1 # 100)) ∧
  (100 ∈ self_ld_d !!! 100 → 100 ∈ self_ld_d !!! 100 →
   variant "chr1" 100 (1 # 100) = variant "chr1" 100 (1 # 100)).
Proof.
  assert (wf_table self_linked) as Hwf by wf_by_cases self_linked.
  assert (NoDup [("chr1", self_file)].*1) as HL by compute_done.
  assert (ref_keep self_linked [("chr1", self_file)] = Ok self_kept)
    as Hkeep by (vm_compute; reflexivity).
  assert (("chr1", self_file) ∈ [("chr1", self_file)]) as Hcf by by left.
  assert (ref_build self_file "chr1" (on_chrom "chr1" self_linked) = Ok self_ld_d)
    as Hm by (vm_compute; reflexivity).
  assert (variant "chr1" 100 (1 # 100) ∈ on_chrom "chr1" self_linked) as Hr
    by (vm_compute; by left).
  assert (idx (variant "chr1" 100 (1 # 100)) ∈ self_kept)
    as Hk by compute_done.
  assert (100 ∈ ld_cols self_ld_d) as Hc by compute_done.
  assert (100 ∈ self_ld_d !!! 100) as Hl by compute_done.
  split_and!; [exact Hwf|exact HL|exact Hkeep|exact Hcf|exact Hm|exact Hr
              |exact Hk|exact Hc|exact Hl|..];
    apply (@kept_variants_not_linked dec_builtins elements_order bfs_graphlib
             self_linked _ _ ("chr1", self_file) self_ld_d
             (variant "chr1" 100 (1 # 100)) (variant "chr1" 100 (1 # 100))
             Hwf HL Hkeep Hcf Hm Hr Hr Hk Hk).
Defined.

Lemma unlinked_variants_all_kept_witness :
  wf_table bridged' ∧
  ref_prune bridged' [("chr1", bridged'_file)]
    = Ok [variant "chr1" 310 (1 # 100); variant "chr1" 300 (1 # 100)] ∧
  (∀ cf m r r', cf ∈ [("chr1", bridged'_file)] →
     ref_build cf.2 cf.1 (on_chrom cf.1 bridged') = Ok m →
     r ∈ on_chrom cf.1 bridged' → r' ∈ on_chrom cf.1 bridged' →
     end_ r ∉ m !!! end_ r') ∧
  [variant "chr1" 310 (1 # 100); variant "chr1" 300 (1 # 100)]
    ≡ₚ on_sources [("chr1", bridged'_file)] bridged'.
Proof.
  assert (ref_prune bridged' [("chr1", bridged'_file)]
    = Ok [variant "chr1" 310 (1 # 100); variant "chr1" 300 (1 # 100)]) as Hrun
    by (vm_compute; reflexivity).
  assert (∀ cf m r r', cf ∈ [("chr1", bridged'_file)] →
     ref_build cf.2 cf.1 (on_chrom cf.1 bridged') = Ok m →
     r ∈ on_chrom cf.1 bridged' → r' ∈ on_chrom cf.1 bridged' →
     end_ r ∉ m !!! end_ r') as Hfree.
  { intros cf m r r' ->%list_elem_of_singleton Hm Hr Hr'.
    assert (ref_build bridged'_file "chr1" (on_chrom "chr1" bridged')
            = Ok bridged'_ld_d) as Hm' by (vm_compute; reflexivity).
    change (ref_build bridged'_file "chr1" (on_chrom "chr1" bridged') = Ok m) in Hm.
    rewrite Hm' in Hm. injection Hm as <-.
    change (on_chrom ("chr1", bridged'_file).1 bridged') with
      [variant "chr1" 300 (1 # 100); variant "chr1" 310 (1 # 100)] in Hr, Hr'.
    apply elem_of_cons in Hr as [->|Hr%list_elem_of_singleton];
      apply elem_of_cons in Hr' as [->|Hr'%list_elem_of_singleton];
      subst; compute_done. }
  split_and!; [apply bridged'_wf|exact Hrun|exact Hfree|].
  exact (@unlinked_variants_all_kept dec_builtins elements_order bfs_graphlib
           bridged' [("chr1", bridged'_file)] _ bridged'_wf Hrun Hfree).
Defined.

Lemma ld_prune_key_order_witness :
  trio_chr2 ≡ₚ chr2_trio ∧
  ins_prune trio_and_chr2 trio_chr2
    = Ok [variant "chr1" 105 (1 # 1000); variant "chr2" 50 (1 # 100)] ∧
  ins_prune trio_and_chr2 chr2_trio
    = Ok [variant "chr2" 50 (1 # 100); variant "chr1" 105 (1 # 1000)] ∧
  ∃ out', ins_prune trio_and_chr2 chr2_trio = Ok out' ∧
    out' ≡ₚ [variant "chr1" 105 (1 # 1000); variant "chr2" 50 (1 # 100)].
Proof.
  assert (trio_chr2 ≡ₚ chr2_trio) as HL by apply perm_swap.
  assert (ins_prune trio_and_chr2 trio_chr2
    = Ok [variant "chr1" 105 (1 # 1000); variant "chr2" 50 (1 # 100)]) as Hrun
    by (vm_compute; reflexivity).
  split_and!; [exact HL|exact Hrun|vm_compute; reflexivity|].
  exact (@ld_prune_key_order dec_builtins insertion_order bfs_graphlib
           trio_and_chr2 trio_chr2 chr2_trio _ HL Hrun).
Defined.

Lemma ld_prune_failure_witness :
  wf_table lone_variant ∧
  ref_prune lone_variant [("chr1", unindexed)] = Raise NameError ∧
  ref_prune lone_variant [("chr1", unopenable)] = Raise TabixError ∧
  (∀ e, ref_prune lone_variant [("chr1", unopenable)] = Raise e →
     e = NameError ∨
     ∃ cf, cf ∈ [("chr1", unopenable)] ∧ open_error cf.2 = Some e) ∧
  (raises (ref_prune lone_variant [("chr1", unopenable)]) ↔
   ∃ cf, cf ∈ [("chr1", unopenable)] ∧
     (is_Some (open_error cf.2) ∨
      ∃ r, r ∈ on_chrom cf.1 lone_variant ∧
        (cf.2 cf.1 (end_ r - 1) (end_ r) = None ∨
         ∃ recs n, cf.2 cf.1 (end_ r - 1) (end_ r) = Some recs ∧ n ∈ recs ∧
                   @fatal_record dec_builtins n))).
Proof.
  split_and!; [apply lone_variant_wf|vm_compute; reflexivity..| |];
    apply (@ld_prune_failure dec_builtins elements_order bfs_graphlib
             lone_variant [("chr1", unopenable)] lone_variant_wf).
Defined.

Lemma ld_expand_failure_witness :
  wf_table two_chroms ∧
  ref_expand two_chroms odd_high = Raise ValueError ∧
  (∀ e, ref_expand two_chroms odd_high = Raise e →
     ∃ cf, cf ∈ odd_high ∧
       (open_error cf.2 = Some e ∨
        ∃ r recs n, r ∈ on_chrom cf.1 two_chroms ∧
          cf.2 cf.1 (end_ r - 1) (end_ r) = Some recs ∧ n ∈ recs ∧
          @ld_partner dec_builtins n = Raise e)) ∧
  (raises (ref_expand two_chroms odd_high) ↔
   ∃ cf, cf ∈ odd_high ∧
     (is_Some (open_error cf.2) ∨
      ∃ r recs n, r ∈ on_chrom cf.1 two_chroms ∧
        cf.2 cf.1 (end_ r - 1) (end_ r) = Some recs ∧ n ∈ recs ∧
        @fatal_record dec_builtins n)).
Proof.
  split_and!; [apply two_chroms_wf|vm_compute; reflexivity| |];
    apply (@ld_expand_failure dec_builtins two_chroms odd_high two_chroms_wf).
Defined.

Lemma ld_expand_intervals_witness :
  ref_expand self_linked [("chr1", self_file)]
    = Ok [Interval "chr1" 99 100 "chr1:100"; Interval "chr1" 99 100 "chr1:100";
          Interval "chr1" 119 120 "chr1:120"] ∧
  [Interval "chr1" 99 100 "chr1:100"; Interval "chr1" 99 100 "chr1:100";
   Interval "chr1" 119 120 "chr1:120"]
    ≡ₚ @expand_all dec_builtins self_linked [("chr1", self_file)] ∧
  (∀ i, i ∈ [Interval "chr1" 99 100 "chr1:100"; Interval "chr1" 99 100 "chr1:100";
             Interval "chr1" 119 120 "chr1:120"] ↔
     ∃ cf r, cf ∈ [("chr1", self_file)] ∧ r ∈ on_chrom cf.1 self_linked ∧
       (i = self_interval cf.1 r ∨
        ∃ recs n x c, cf.2 cf.1 (end_ r - 1) (end_ r) = Some recs ∧ n ∈ recs ∧
          @ld_partner dec_builtins n = Ok (Some x) ∧ first_field n = Ok c ∧
          i = Interval c (x - 1) x (label c x))) ∧
  (∀ i, i ∈ [Interval "chr1" 99 100 "chr1:100"; Interval "chr1" 99 100 "chr1:100";
             Interval "chr1" 119 120 "chr1:120"] → iend i = istart i + 1).
Proof.
  assert (ref_expand self_linked [("chr1", self_file)]
    = Ok [Interval "chr1" 99 100 "chr1:100"; Interval "chr1" 99 100 "chr1:100";
          Interval "chr1" 119 120 "chr1:120"]) as Hrun by (vm_compute; reflexivity).
  split; [exact Hrun|].
  exact (@ld_expand_intervals dec_builtins self_linked [("chr1", self_file)] _ Hrun).
Defined.

Lemma ld_expand_key_order_witness :
  trio_chr2 ≡ₚ chr2_trio ∧
  ref_expand two_chroms trio_chr2
    = Ok [Interval "chr1" 99 100 "chr1:100"; Interval "chr1" 104 105 "chr1:105";
          Interval "chr1" 109 110 "chr1:110"; Interval "chr2" 49 50 "chr2:50"] ∧
  ∃ out', ref_expand two_chroms chr2_trio = Ok out' ∧
    out' ≡ₚ [Interval "chr1" 99 100 "chr1:100"; Interval "chr1" 104 105 "chr1:105";
             Interval "chr1" 109 110 "chr1:110"; Interval "chr2" 49 50 "chr2:50"].
Proof.
  assert (trio_chr2 ≡ₚ chr2_trio) as HL by apply perm_swap.
  assert (ref_expand two_chroms trio_chr2
    = Ok [Interval "chr1" 99 100 "chr1:100"; Interval "chr1" 104 105 "chr1:105";
          Interval "chr1" 109 110 "chr1:110"; Interval "chr2" 49 50 "chr2:50"])
    as Hrun by (vm_compute; reflexivity).
  split_and!; [exact HL|exact Hrun|].
  exact (@ld_expand_key_order dec_builtins two_chroms trio_chr2 chr2_trio _ HL Hrun).
Defined.

Lemma parse_grasp_gwas_most_significant_witness :
  Grasp "1" 1000 "rs1" (Q2Qc (1 # 1000000)) ∈ grasp_sample ∧
  (Q2Qc (1 # 1000000) < sig_cutoff)%Qc ∧ "1" ≠ "Y" ∧
  ∃ r, r ∈ parse_grasp_gwas String.le grasp_sample ∧
       idx r = label ("chr" +:+ "1") 1000 ∧
       chrom r = "chr" +:+ "1" ∧ end_ r = 1000 ∧
       (pvalue r ≤ Q2Qc (1 # 1000000))%Qc ∧
       ∀ r', r' ∈ parse_grasp_gwas String.le grasp_sample → idx r' = idx r → r' = r.
Proof.
  assert (Grasp "1" 1000 "rs1" (Q2Qc (1 # 1000000)) ∈ grasp_sample) as Hg
    by (unfold grasp_sample; by left).
  assert (Q2Qc (1 # 1000000) < sig_cutoff)%Qc as Hp by compute_done.
  assert ("1" ≠ "Y") as Hy by done.
  split_and!; [exact Hg|exact Hp|exact Hy|].
  exact (@parse_grasp_gwas_most_significant String.le _ String.le_po String.le_total
           grasp_sample (Grasp "1" 1000 "rs1" (Q2Qc (1 # 1000000))) Hg Hp Hy).
Defined.

Lemma parse_roadmap_gwas_format_witness :
  (∀ g1 g2, g1 ∈ roadmap_sample → g2 ∈ roadmap_sample →
            rm_chrom g1 = rm_chrom g2 → rm_end g1 = rm_end g2 →
            rm_start g1 = rm_start g2) ∧
  wf_table (parse_roadmap_gwas roadmap_sample).
Proof.
  assert (∀ g1 g2, g1 ∈ roadmap_sample → g2 ∈ roadmap_sample →
            rm_chrom g1 = rm_chrom g2 → rm_end g1 = rm_end g2 →
            rm_start g1 = rm_start g2) as Hend.
  { assert (∀ g, g ∈ roadmap_sample → rm_end g = rm_start g + 1) as Hone.
    { intros g Hg. unfold roadmap_sample in Hg.
      repeat (apply elem_of_cons in Hg as [->|Hg]; [reflexivity|]).
      by apply not_elem_of_nil in Hg. }
    intros g1 g2 H1%Hone H2%Hone _ He. lia. }
  split; [exact Hend|].
  exact (parse_roadmap_gwas_format roadmap_sample Hend).
Defined.

Lemma parse_roadmap_gwas_index_collision_witness :
  Roadmap "chr1" 990 1000 "rsA" (Q2Qc (1 # 1000000)) ∈ roadmap_overlap ∧
  Roadmap "chr1" 999 1000 "rsB" (Q2Qc (1 # 10000000)) ∈ roadmap_overlap ∧
  roadmap_variant (Roadmap "chr1" 990 1000 "rsA" (Q2Qc (1 # 1000000)))
    ∈ parse_roadmap_gwas roadmap_overlap ∧
  roadmap_variant (Roadmap "chr1" 999 1000 "rsB" (Q2Qc (1 # 10000000)))
    ∈ parse_roadmap_gwas roadmap_overlap ∧
  idx (roadmap_variant (Roadmap "chr1" 990 1000 "rsA" (Q2Qc (1 # 1000000))))
    = idx (roadmap_variant (Roadmap "chr1" 999 1000 "rsB" (Q2Qc (1 # 10000000)))) ∧
  ¬ wf_table (parse_roadmap_gwas roadmap_overlap).
Proof.
  assert (Roadmap "chr1" 990 1000 "rsA" (Q2Qc (1 # 1000000)) ∈ roadmap_overlap)
    as H1 by (unfold roadmap_overlap; by left).
  assert (Roadmap "chr1" 999 1000 "rsB" (Q2Qc (1 # 10000000)) ∈ roadmap_overlap)
    as H2 by (unfold roadmap_overlap; right; by left).
  split_and!; [exact H1|exact H2|..];
    apply (parse_roadmap_gwas_index_collision roadmap_overlap _ _ H1 H2);
    try compute_done; try done;
    (intros g Hg _ _; unfold roadmap_overlap in Hg;
     apply elem_of_cons in Hg as [->|Hg%list_elem_of_singleton];
     [by left|by right]).
Defined.

Lemma prune_of_parsed_grasp_witness :
  NoDup chr1_only.*1 ∧
  ref_prune (parse_grasp_gwas String.le grasp_sample) chr1_only
    = Ok [Row "chr1:1000" "chr1" 999 1000 "rs1b" (Q2Qc (1 # 10000000))] ∧
  wf_table [Row "chr1:1000" "chr1" 999 1000 "rs1b" (Q2Qc (1 # 10000000))] ∧
  (∀ r, r ∈ [Row "chr1:1000" "chr1" 999 1000 "rs1b" (Q2Qc (1 # 10000000))] →
     r ∈ parse_grasp_gwas String.le grasp_sample ∧ (pvalue r < sig_cutoff)%Qc ∧
     ∃ g, g ∈ grasp_sample ∧ r = grasp_variant g) ∧
  ∃ out',
    ref_prune [Row "chr1:1000" "chr1" 999 1000 "rs1b" (Q2Qc (1 # 10000000))]
      chr1_only = Ok out' ∧
    out' ≡ₚ [Row "chr1:1000" "chr1" 999 1000 "rs1b" (Q2Qc (1 # 10000000))].
Proof.
  assert (NoDup chr1_only.*1) as HL by compute_done.
  assert (ref_prune (parse_grasp_gwas String.le grasp_sample) chr1_only
    = Ok [Row "chr1:1000" "chr1" 999 1000 "rs1b" (Q2Qc (1 # 10000000))]) as Hrun
    by (vm_compute; reflexivity).
  split_and!; [exact HL|exact Hrun|..];
    apply (@prune_of_parsed_grasp dec_builtins elements_order bfs_graphlib
             String.le _ grasp_sample chr1_only _ HL Hrun).
Defined.

Lemma expand_of_parsed_grasp_witness :
  ref_expand (parse_grasp_gwas String.le grasp_sample) chr1_only
    = Ok [Interval "chr1" 999 1000 "chr1:1000"] ∧
  Row "chr1:1000" "chr1" 999 1000 "rs1b" (Q2Qc (1 # 10000000))
    ∈ parse_grasp_gwas String.le grasp_sample ∧
  "chr1" ∈ chr1_only.*1 ∧
  Interval "chr1" 999 1000 "chr1:1000" ∈ [Interval "chr1" 999 1000 "chr1:1000"].
Proof.
  assert (ref_expand (parse_grasp_gwas String.le grasp_sample) chr1_only
    = Ok [Interval "chr1" 999 1000 "chr1:1000"]) as Hrun by (vm_compute; reflexivity).
  assert (Row "chr1:1000" "chr1" 999 1000 "rs1b" (Q2Qc (1 # 10000000))
    ∈ parse_grasp_gwas String.le grasp_sample) as Hr by (vm_compute; by left).
  assert ("chr1" ∈ chr1_only.*1) as Hc by compute_done.
  split_and!; [exact Hrun|exact Hr|exact Hc|].
  exact (@expand_of_parsed_grasp dec_builtins String.le _ grasp_sample chr1_only _
           (Row "chr1:1000" "chr1" 999 1000 "rs1b" (Q2Qc (1 # 10000000)))
           Hrun Hr Hc).
Defined.

Lemma expand_of_pruned_witness :
  wf_table trio ∧ NoDup trio_sources.*1 ∧
  ref_prune trio trio_sources = Ok [variant "chr1" 105 (1 # 1000)] ∧
  ∃ e e', ref_expand trio trio_sources = Ok e ∧
          ref_expand [variant "chr1" 105 (1 # 1000)] trio_sources = Ok e' ∧
          ∀ i, i ∈ e' → i ∈ e.
Proof.
  assert (NoDup trio_sources.*1) as HL by compute_done.
  assert (ref_prune trio trio_sources = Ok [variant "chr1" 105 (1 # 1000)]) as Hrun
    by (vm_compute; reflexivity).
  split_and!; [apply trio_wf|exact HL|exact Hrun|].
  exact (@expand_of_pruned dec_builtins elements_order bfs_graphlib
           trio trio_sources _ trio_wf HL Hrun).
Defined.
